(** * 123pan uploader: the chunked-upload engine of [src/uploader.ts]

    A shallow embedding of the [Uploader] class.  Numbers of the source that
    count bytes or configure the session are integers ([Z]); file sizes are
    non-negative integers far below 2^53, where the source's double
    arithmetic is exact.  Chunk indices and part numbers are [nat].

    The asynchronous methods are embedded as a reactive machine: every
    [await] of the source is a place where the machine waits for an input
    (the settlement of the awaited I/O), the code between two awaits is one
    function on the session state, and the public methods [pause], [resume]
    and [cancel] are inputs that may arrive between any two settlements.
    What the session does to the outside (events emitted, requests issued,
    timers started) is appended to a log.

    A session is one uploader with one activation of [upload]: the machine
    takes the call of [upload] once, on the new uploader, and a further
    call is outside it.  The listeners that the caller registers on the
    emitter return normally; of them the session needs to know one thing
    only, whether one for [error] is there when [upload] emits [error]
    (the emitter is Node's [EventEmitter], whose [emit("error", e)] throws
    [e] when there is none): the field [errorListener] of [Config].

    Where the methods of the source are found:
    - [uploadChunks] (planning loop): [planTask], [planTasks], [chunkPlan];
      (queueing and listeners): [uploadChunks], [idle_listener],
      [completed_listener], [error_listener];
    - [readChunk]: [readChunk], with [createReadStream], [buffer_concat];
    - [uploadChunk]: [uploadChunk_enter], [on_read], [on_url],
      [on_put_progress], [on_put], [uploadChunk_catch], [on_retry_timer];
    - [getChunkUploadUrl]: inside [on_url], with [getChunkUploadUrl_catch];
    - [upload]: [upload_start], [upload_created], [upload_after_chunks],
      [on_finish], [upload_complete], [upload_catch], [upload_settle];
    - [createUploadTask]: [upload_start], [on_md5], [on_create], with
      [createUploadTask_catch];
    - [finishUpload]: inside [on_finish];
    - [pollUploadStatus], [checkMergeStatus]: [poll_loop], [on_check];
    - [pause], [resume], [cancel], [taskClear]: under the same names;
    - the constructor: [newUploader], [construct]. *)

From stdpp Require Import gmap strings list fin_maps.
From Stdlib Require Import ZArith Lia Ascii.
From Stdlib Require Init.Byte.

Open Scope Z_scope.

(** ** Values of the host language *)

(** A thrown value: an [Error] with its message, or the cancellation error
    that [axios] raises for an aborted request ([axios.isCancel]). *)
Inductive Exn :=
  | Err (message : string)
  | Canceled.

Definition isCancel (e : Exn) : bool :=
  match e with Canceled => true | Err _ => false end.

Definition message (e : Exn) : string :=
  match e with Err m => m | Canceled => "canceled" end.

(** [a || b] on an optional string: [undefined] and the empty string are
    falsy. *)
Definition js_or (a : option string) (b : string) : string :=
  match a with
  | Some s => if decide (s = "") then b else s
  | None => b
  end.

(** [a ?? b]: only [undefined] gives way. *)
Definition js_nullish (a : option string) (b : string) : string :=
  default b a.

(** [path.basename] of Node (POSIX flavour, no extension argument):
    trailing separators are dropped, then the part after the last
    separator is taken. *)
Fixpoint drop_slashes (l : list ascii) : list ascii :=
  match l with
  | c :: l' => if decide (c = "/"%char) then drop_slashes l' else l
  | [] => []
  end.

Fixpoint upto_slash (l : list ascii) : list ascii :=
  match l with
  | c :: l' => if decide (c = "/"%char) then [] else c :: upto_slash l'
  | [] => []
  end.

Definition basename (path : string) : string :=
  String.string_of_list_ascii
    (rev (upto_slash (drop_slashes (rev (String.list_ascii_of_string path))))).

(** ** Chunk tasks ([interface UploadChunkTask]) *)

Inductive TaskStatus :=
  | TPending | TCompleted | TRunning | TError | TAbort.

#[global] Instance TaskStatus_eq_dec : EqDecision TaskStatus.
Proof. solve_decision. Defined.

(** An [AbortController] is a heap object; a task holds a reference to it.
    Which controllers have been aborted is part of the session state.  The
    fields [filePath], [size] and [token] of a task copy the session's and
    are read from there. *)
Module Task.
Record t := mk {
  start : Z;
  chunkSize : Z;
  uploadId : string;
  chunk : nat;
  chunks : Z;
  controller : nat;
  status : TaskStatus;
}.

Definition set_status (v : TaskStatus) (x : t) : t :=
  {| start := start x; chunkSize := chunkSize x; uploadId := uploadId x;
     chunk := chunk x; chunks := chunks x; controller := controller x;
     status := v |}.

Definition set_controller (v : nat) (x : t) : t :=
  {| start := start x; chunkSize := chunkSize x; uploadId := uploadId x;
     chunk := chunk x; chunks := chunks x; controller := v;
     status := status x |}.
End Task.

(** [const partNumber = chunk + 1] *)
Definition partNumber (t : Task.t) : nat := S (Task.chunk t).

(** ** Chunk planner *)

(** [Math.ceil(this.size / this.chunkSize)]: the least integer not below
    the quotient, for a non-zero divisor. *)
Definition ceil_div (a b : Z) : Z := - ((- a) / b).

(** One iteration of the [for] loop of [uploadChunks] that creates the
    tasks: iteration [i], with the controller [ctl] created in it. *)
Definition planTask (size sliceSize : Z) (uid : string) (totalChunks : Z)
    (ctl : nat) (i : nat) : Task.t :=
  let start := Z.of_nat i * sliceSize in
  let end_ := Z.min (start + sliceSize) size in
  let chunkSize := end_ - start in
  {| Task.start := start; Task.chunkSize := chunkSize; Task.uploadId := uid;
     Task.chunk := i; Task.chunks := totalChunks; Task.controller := ctl;
     Task.status := TPending |}.

(** [for (let i = 0; i < totalChunks; i++)]: the tasks in creation order;
    the controller of iteration [i] is the [i]-th one allocated from
    [ctl0]. *)
Definition planTasks (size sliceSize : Z) (uid : string) (totalChunks : Z)
    (ctl0 : nat) : list Task.t :=
  (λ i, planTask size sliceSize uid totalChunks (ctl0 + i)%nat i)
    <$> seq 0 (Z.to_nat totalChunks).

(** The plan of [upload]: [chunks = Math.ceil(size / chunkSize)], then the
    loop of [uploadChunks]. *)
Definition chunkPlan (size sliceSize : Z) (uid : string) (ctl0 : nat)
    : list Task.t :=
  planTasks size sliceSize uid (ceil_div size sliceSize) ctl0.

(** The byte range of a task contains offset [b]. *)
Definition covers (t : Task.t) (b : Z) : Prop :=
  Task.start t ≤ b < Task.start t + Task.chunkSize t.

(** ** Chunk reader ([readChunk])

    The file as the stream finds it when it is opened. *)
Inductive FileEntry :=
  | NoEntry
  | NoAccess
  | Bytes (content : list Byte.byte).

Inductive StreamEvent :=
  | SData (chunk : list Byte.byte)
  | SEnd
  | SError (msg : string).

(** The data events of a stream over [l] with buffer size [hwm]. *)
Fixpoint bursts (fuel : nat) (hwm : nat) (l : list Byte.byte)
    : list (list Byte.byte) :=
  match fuel with
  | O => []
  | S fuel' =>
      match l with
      | [] => []
      | _ => take hwm l :: bursts fuel' hwm (drop hwm l)
      end
  end.

(** [fs.createReadStream(path, {start, end, highWaterMark})]: the call
    throws on a range that is not [0 <= start <= end]; otherwise the stream
    reports an error for a file it cannot open, and else delivers the bytes
    of [start..end] (both inclusive) that the file has, in bursts of at
    most [highWaterMark] bytes, and then ends. *)
Definition createReadStream (f : FileEntry) (start end_ hwm : Z)
    : Exn + list StreamEvent :=
  if decide (start < 0 ∨ end_ < start) then
    inl (Err "ERR_OUT_OF_RANGE")
  else
    match f with
    | NoEntry => inr [SError "ENOENT: no such file or directory"]
    | NoAccess => inr [SError "EACCES: permission denied"]
    | Bytes content =>
        let range :=
          take (Z.to_nat (end_ - start + 1)) (drop (Z.to_nat start) content) in
        inr ((SData <$> bursts (length range) (Z.to_nat hwm) range) ++ [SEnd])
    end.

(** [Buffer.concat(list, totalLength)]: the concatenation, cut or
    zero-filled to [totalLength]. *)
Definition buffer_concat (chunks : list (list Byte.byte)) (totalLength : Z)
    : list Byte.byte :=
  let b := concat chunks in
  take (Z.to_nat totalLength) b
    ++ replicate (Z.to_nat totalLength - length b) Byte.x00.

(** The three listeners of [readChunk] over the events of the stream:
    [chunks] and [totalLength] are the locals of the promise executor.
    [None] when the stream falls silent before [end] or [error]. *)
Fixpoint readChunk_listen (evs : list StreamEvent)
    (chunks : list (list Byte.byte)) (totalLength : Z)
    : option (Exn + list Byte.byte) :=
  match evs with
  | [] => None
  | SData chunk :: evs' =>
      readChunk_listen evs' (chunks ++ [chunk])
        (totalLength + Z.of_nat (length chunk))
  | SEnd :: _ => Some (inr (buffer_concat chunks totalLength))
  | SError msg :: _ => Some (inl (Err ("读取文件失败: " +:+ msg)))
  end.

(** [readChunk(filePath, start, chunkSize)], against the file [f] that
    [filePath] names: how the returned promise settles. *)
Definition readChunk (f : FileEntry) (start chunkSize : Z)
    : option (Exn + list Byte.byte) :=
  let endByte := start + chunkSize - 1 in
  match createReadStream f start endByte (Z.min chunkSize (64 * 1024)) with
  | inl e => Some (inl e)
  | inr evs => readChunk_listen evs [] 0
  end.

(** ** Remote operations and what the session does to the outside *)

(** How an [axios] request settles: a response whose body carries [code],
    [message] and [data], or a rejection. *)
Inductive Reply (A : Type) :=
  | Resp (code : Z) (msg : string) (data : A)
  | NetErr (msg : string).
Arguments Resp {A} code msg data.
Arguments NetErr {A} msg.

(** [data] of /upload/v1/file/create *)
Record CreateData := {
  fileID : option string;
  reuse : bool;
  preuploadID : string;
  sliceSize : Z;
}.

(** [data] of /upload/v1/file/get_upload_url *)
Record UrlData := {
  presignedURL : string;
  isMultipart : bool;
}.

(** [data] of /upload/v1/file/upload_complete *)
Record FinishData := {
  asyncUpload : bool;
  finishFileID : option string;
  completed : bool;
}.

(** [data] of /upload/v1/file/check_merge *)
Record CheckData := {
  mergeCompleted : bool;
  mergeFileID : option string;
}.

Inductive Request :=
  | ReqMd5 (filePath : string)
  | ReqCreate (parentFileID filename : string) (size : Z) (etag : string)
      (duplicate : Z)
  | ReqRead (filePath : string) (start chunkSize : Z)
  | ReqGetUrl (preuploadID : string) (sliceNo : nat)
  | ReqPut (url : string) (body : list Byte.byte) (signal : nat)
  | ReqFinish (preuploadID : string)
  | ReqCheck (preuploadID : string).

(** [interface UploaderEvents] *)
Inductive Phase :=
  | PhInit | PhPreupload | PhUploading | PhComplete | PhMerging.

(** The fields of a progress event beyond [loaded] and [total]. *)
Inductive ProgressExtra :=
  | XNone
  | XChunk (chunk : nat) (chunkLoaded chunkSize : Z)
  | XMessage
  | XPoll (pollCount : Z).

(** [progress] is kept as the fraction the source divides out. *)
Record ProgressEvent := {
  event : Phase;
  fraction : Z * Z;
  loaded : Z;
  total : Z;
  extra : ProgressExtra;
}.

Record CompletedInfo := {
  fileId : string;
  filename : string;
}.

Inductive DebugData :=
  | DbgError (error : Exn) (msg : string)
  | DbgParts (parts : list nat) (total : Z) (uploaded : nat)
  | DbgMerged (pollCount : Z).

Inductive Emitted :=
  | EStart
  | ECompleted (response : CompletedInfo)
  | EProgress (response : ProgressEvent)
  | EError (error : Exn)
  | ECancel
  | EDebug (data : DebugData).

Inductive Action :=
  | Emit (e : Emitted)
  | Call (r : Request)
  | Sleep (ms : Z).

(** ** The session *)

Inductive Status :=
  | StPending | StRunning | StPaused | StCompleted | StError | StCancel.

#[global] Instance Status_eq_dec : EqDecision Status.
Proof. solve_decision. Defined.

Record Options := {
  concurrency : Z;
  retryTimes : Z;
  retryDelay : Z;
  limitRate : Z;
  duplicate : Z;
  pollInterval : Z;
  pollMaxTimes : Z;
}.

(** The defaults of the constructor. *)
Definition defaultOptions : Options :=
  {| concurrency := 3; retryTimes := 3; retryDelay := 3000; limitRate := 0;
     duplicate := 1; pollInterval := 2000; pollMaxTimes := 30 |}.

(** The arguments of the constructor; and [errorListener]: whether a
    listener for [error] is registered on the emitter of the uploader (with
    [on] or [once], bound in the constructor) at the moment when [upload]
    emits [error], which it does at most once, in its [catch] clause. *)
Record Config := {
  filePath : string;
  token : string;
  parentFileID : string;
  options : Options;
  errorListener : bool;
}.

(** The locals of [upload] that live across its awaits. *)
Record Ctx := {
  target : option string;
  ctxFileID : option string;
  ctxPreuploadID : string;
}.

(** How the promise of [upload] settled. *)
Inductive Settled :=
  | Resolved (v : option CompletedInfo)
  | Rejected (e : Exn).

(** Where the one activation of [upload] stands.  At [PcChunks] it awaits
    the promise of [uploadChunks]; the second component is that promise's
    state: [None] while pending, and once [resolve] or [reject] has been
    called, the value that the continuation will receive. *)
Inductive Pc :=
  | PcNew
  | PcMd5 (target : option string)
  | PcCreate (target : option string)
  | PcChunks (ctx : Ctx) (settled : option (Exn + bool))
  | PcFinish (ctx : Ctx)
  | PcPollCheck (ctx : Ctx) (pollCount : Z)
  | PcPollSleep (ctx : Ctx) (pollCount : Z)
  | PcDone (r : Settled).

(** Where one activation of [uploadChunk] stands: the await it is
    suspended at, and its [retryCount]. *)
Inductive Stage :=
  | SRead
  | SUrl (fileData : list Byte.byte)
  | SPut (signal : nat)
  | SRetry.

Record Invocation := {
  stage : Stage;
  retryCount : Z;
}.

(** The fields of [Uploader], the state of its queue, the locals that the
    listeners of [uploadChunks] close over, and the log.

    - [chunkTasks]: the object [this.chunkTasks], keyed by part number;
      position [i] of the list holds key [i + 1], the order in which
      [Object.values] enumerates it.
    - [qPaused], [qJobs]: the queue; a job [() => this.uploadChunk(task)]
      is named by the part number of its task.
    - [invs]: the activations of [uploadChunk] that have started and not
      finished; their number is what the queue counts as pending.
    - [listening], [parts], [totalChunks]: the listeners registered by
      [uploadChunks] and what they close over.
    - [abortedCtl], [nextCtl]: the controllers aborted so far, and the
      next one to allocate. *)
Record Session := {
  cfg : Config;
  size : Z;
  status : Status;
  chunkSize : Z;
  progress : gmap nat Z;
  chunkTasks : list Task.t;
  qPaused : bool;
  qJobs : list nat;
  invs : gmap nat Invocation;
  listening : bool;
  parts : list nat;
  totalChunks : Z;
  pc : Pc;
  abortedCtl : gset nat;
  nextCtl : nat;
  log : list Action;
}.

Definition set_status (v : Status) (s : Session) : Session :=
  {| cfg := cfg s; size := size s; status := v; chunkSize := chunkSize s;
     progress := progress s; chunkTasks := chunkTasks s; qPaused := qPaused s;
     qJobs := qJobs s; invs := invs s; listening := listening s; parts := parts
     s; totalChunks := totalChunks s; pc := pc s; abortedCtl := abortedCtl s;
     nextCtl := nextCtl s; log := log s |}.

Definition set_chunkSize (v : Z) (s : Session) : Session :=
  {| cfg := cfg s; size := size s; status := status s; chunkSize := v;
     progress := progress s; chunkTasks := chunkTasks s; qPaused := qPaused s;
     qJobs := qJobs s; invs := invs s; listening := listening s; parts := parts
     s; totalChunks := totalChunks s; pc := pc s; abortedCtl := abortedCtl s;
     nextCtl := nextCtl s; log := log s |}.

Definition set_progress (v : gmap nat Z) (s : Session) : Session :=
  {| cfg := cfg s; size := size s; status := status s; chunkSize :=
     chunkSize s; progress := v; chunkTasks := chunkTasks s; qPaused := qPaused
     s; qJobs := qJobs s; invs := invs s; listening := listening s; parts :=
     parts s; totalChunks := totalChunks s; pc := pc s; abortedCtl :=
     abortedCtl s; nextCtl := nextCtl s; log := log s |}.

Definition set_chunkTasks (v : list Task.t) (s : Session) : Session :=
  {| cfg := cfg s; size := size s; status := status s; chunkSize :=
     chunkSize s; progress := progress s; chunkTasks := v; qPaused := qPaused
     s; qJobs := qJobs s; invs := invs s; listening := listening s; parts :=
     parts s; totalChunks := totalChunks s; pc := pc s; abortedCtl :=
     abortedCtl s; nextCtl := nextCtl s; log := log s |}.

Definition set_qPaused (v : bool) (s : Session) : Session :=
  {| cfg := cfg s; size := size s; status := status s; chunkSize :=
     chunkSize s; progress := progress s; chunkTasks := chunkTasks s; qPaused
     := v; qJobs := qJobs s; invs := invs s; listening := listening s; parts :=
     parts s; totalChunks := totalChunks s; pc := pc s; abortedCtl :=
     abortedCtl s; nextCtl := nextCtl s; log := log s |}.

Definition set_qJobs (v : list nat) (s : Session) : Session :=
  {| cfg := cfg s; size := size s; status := status s; chunkSize :=
     chunkSize s; progress := progress s; chunkTasks := chunkTasks s; qPaused
     := qPaused s; qJobs := v; invs := invs s; listening := listening s; parts
     := parts s; totalChunks := totalChunks s; pc := pc s; abortedCtl :=
     abortedCtl s; nextCtl := nextCtl s; log := log s |}.

Definition set_invs (v : gmap nat Invocation) (s : Session) : Session :=
  {| cfg := cfg s; size := size s; status := status s; chunkSize :=
     chunkSize s; progress := progress s; chunkTasks := chunkTasks s; qPaused
     := qPaused s; qJobs := qJobs s; invs := v; listening := listening s; parts
     := parts s; totalChunks := totalChunks s; pc := pc s; abortedCtl :=
     abortedCtl s; nextCtl := nextCtl s; log := log s |}.

Definition set_listening (v : bool) (s : Session) : Session :=
  {| cfg := cfg s; size := size s; status := status s; chunkSize :=
     chunkSize s; progress := progress s; chunkTasks := chunkTasks s; qPaused
     := qPaused s; qJobs := qJobs s; invs := invs s; listening := v; parts :=
     parts s; totalChunks := totalChunks s; pc := pc s; abortedCtl :=
     abortedCtl s; nextCtl := nextCtl s; log := log s |}.

Definition set_parts (v : list nat) (s : Session) : Session :=
  {| cfg := cfg s; size := size s; status := status s; chunkSize :=
     chunkSize s; progress := progress s; chunkTasks := chunkTasks s; qPaused
     := qPaused s; qJobs := qJobs s; invs := invs s; listening := listening s;
     parts := v; totalChunks := totalChunks s; pc := pc s; abortedCtl :=
     abortedCtl s; nextCtl := nextCtl s; log := log s |}.

Definition set_totalChunks (v : Z) (s : Session) : Session :=
  {| cfg := cfg s; size := size s; status := status s; chunkSize :=
     chunkSize s; progress := progress s; chunkTasks := chunkTasks s; qPaused
     := qPaused s; qJobs := qJobs s; invs := invs s; listening := listening s;
     parts := parts s; totalChunks := v; pc := pc s; abortedCtl := abortedCtl
     s; nextCtl := nextCtl s; log := log s |}.

Definition set_pc (v : Pc) (s : Session) : Session :=
  {| cfg := cfg s; size := size s; status := status s; chunkSize :=
     chunkSize s; progress := progress s; chunkTasks := chunkTasks s; qPaused
     := qPaused s; qJobs := qJobs s; invs := invs s; listening := listening s;
     parts := parts s; totalChunks := totalChunks s; pc := v; abortedCtl :=
     abortedCtl s; nextCtl := nextCtl s; log := log s |}.

Definition set_abortedCtl (v : gset nat) (s : Session) : Session :=
  {| cfg := cfg s; size := size s; status := status s; chunkSize :=
     chunkSize s; progress := progress s; chunkTasks := chunkTasks s; qPaused
     := qPaused s; qJobs := qJobs s; invs := invs s; listening := listening s;
     parts := parts s; totalChunks := totalChunks s; pc := pc s; abortedCtl :=
     v; nextCtl := nextCtl s; log := log s |}.

Definition set_nextCtl (v : nat) (s : Session) : Session :=
  {| cfg := cfg s; size := size s; status := status s; chunkSize :=
     chunkSize s; progress := progress s; chunkTasks := chunkTasks s; qPaused
     := qPaused s; qJobs := qJobs s; invs := invs s; listening := listening s;
     parts := parts s; totalChunks := totalChunks s; pc := pc s; abortedCtl :=
     abortedCtl s; nextCtl := v; log := log s |}.

Definition set_log (v : list Action) (s : Session) : Session :=
  {| cfg := cfg s; size := size s; status := status s; chunkSize :=
     chunkSize s; progress := progress s; chunkTasks := chunkTasks s; qPaused
     := qPaused s; qJobs := qJobs s; invs := invs s; listening := listening s;
     parts := parts s; totalChunks := totalChunks s; pc := pc s; abortedCtl :=
     abortedCtl s; nextCtl := nextCtl s; log := v |}.

Definition emit (e : Emitted) (s : Session) : Session :=
  set_log (log s ++ [Emit e]) s.

Definition call (r : Request) (s : Session) : Session :=
  set_log (log s ++ [Call r]) s.

Definition sleep (ms : Z) (s : Session) : Session :=
  set_log (log s ++ [Sleep ms]) s.

Definition progressEvent (ph : Phase) (fr : Z * Z) (l t : Z)
    (x : ProgressExtra) : Emitted :=
  EProgress {| event := ph; fraction := fr; loaded := l; total := t;
               extra := x |}.

(** [this.chunkTasks[partNumber]] *)
Definition task_at (p : nat) (ts : list Task.t) : option Task.t :=
  match p with
  | O => None
  | S i => ts !! i
  end.

(** An assignment to a field of [this.chunkTasks[partNumber]]. *)
Definition task_update (p : nat) (f : Task.t → Task.t) (ts : list Task.t)
    : list Task.t :=
  match p with
  | O => ts
  | S i => alter f i ts
  end.

Definition set_task_status (p : nat) (v : TaskStatus) (s : Session)
    : Session :=
  set_chunkTasks (task_update p (Task.set_status v) (chunkTasks s)) s.

(** ** The constructor *)

(** The session that [new Uploader(filePath, token, parentFileID, options)]
    builds when [fs.statSync(filePath).size] is [sz]. *)
Definition newUploader (c : Config) (sz : Z) : Session :=
  {| cfg := c; size := sz; status := StPending;
     chunkSize := 4 * 1024 * 1024; progress := ∅; chunkTasks := [];
     qPaused := false; qJobs := []; invs := ∅; listening := false;
     parts := []; totalChunks := 0; pc := PcNew; abortedCtl := ∅;
     nextCtl := 0%nat;
     log := [Emit (progressEvent PhInit (0, 1) 0 sz XNone)] |}.

(** The constructor.  [new PQueue({concurrency})] throws for a
    [concurrency] below 1 (its message goes on with the value it got),
    before the size of the file is asked for.  When [statSync] throws,
    so does the constructor: its [emit("error", e)] finds no listener, for
    none can be registered on an uploader that is not built yet, and
    throws [e] itself.  In both cases no session exists. *)
Definition construct (c : Config) (stat : Exn + Z) : Exn + Session :=
  if decide (concurrency (options c) < 1) then
    inl (Err "Expected `concurrency` to be a number from 1 and up")
  else
    match stat with
    | inl e => inl e
    | inr sz => inr (newUploader c sz)
    end.

(** ** [upload]: the [try] block, its [catch] clause and its last lines *)

(** How a stretch of the body of [upload] ends: suspended at its next
    await, returned, or thrown into the [catch] clause. *)
Inductive Outcome :=
  | Await (pc : Pc)
  | Return (v : option CompletedInfo)
  | Throw (e : Exn).

(** [catch (error) { if (this.status === "cancel") return;
    this.emitter.emit("error", error); this.status = "error";
    throw error; }].  With a listener for [error] the event goes out, the
    status is assigned and [error] is thrown again.  With none, [emit]
    itself throws [error]: no event goes out, the assignment is not
    reached, and the promise of [upload] is rejected with the same
    [error]. *)
Definition upload_catch (e : Exn) (s : Session) : Session :=
  if decide (status s = StCancel) then
    set_pc (PcDone (Resolved None)) s
  else if errorListener (cfg s) then
    set_pc (PcDone (Rejected e)) (set_status StError (emit (EError e) s))
  else
    set_pc (PcDone (Rejected e)) s.

(** [try { ... } catch ...] around a stretch of the body, and the
    settlement of the promise of [upload]. *)
Definition upload_settle (r : Session * Outcome) : Session :=
  match r with
  | (s, Await pc') => set_pc pc' s
  | (s, Return v) => set_pc (PcDone (Resolved v)) s
  | (s, Throw e) => upload_catch e s
  end.

Definition completedInfo (ctx : Ctx) (s : Session) : CompletedInfo :=
  {| fileId := js_or (ctxFileID ctx) (ctxPreuploadID ctx);
     filename := js_or (target ctx) (basename (filePath (cfg s))) |}.

(** Step 6 of [upload], and the same lines of the [reuse] branch. *)
Definition upload_complete (ctx : Ctx) (s : Session) : Session * Outcome :=
  let info := completedInfo ctx s in
  let s := emit (progressEvent PhComplete (1, 1) (size s) (size s) XNone) s in
  let s := emit (ECompleted info) s in
  let s := set_status StCompleted s in
  (s, Return (Some info)).

(** ** The queue

    The queue class is a dependency of the repository.  Its contract, as
    the source relies on it: [add] enqueues a job and tries to start one;
    a job that settles fires [completed] or [error], then one more job is
    tried; trying to start a job on an empty queue fires [idle] when
    nothing is pending; a job starts only when the queue is not paused and
    fewer than [concurrency] are pending; [start] un-pauses and starts as
    many jobs as it may; [clear] drops the queued jobs.  The constructor of
    the queue accepts a [concurrency] of at least 1 only.  What is pending
    in the queue are the activations of [uploadChunk] that have not
    settled. *)

Definition pending (s : Session) : Z := Z.of_nat (base.size (invs s)).

(** [resolve(b)] of the promise of [uploadChunks]: a settled promise stays
    as it is. *)
Definition resolve_chunks (b : bool) (s : Session) : Session :=
  match pc s with
  | PcChunks ctx None => set_pc (PcChunks ctx (Some (inr b))) s
  | _ => s
  end.

(** [reject(error)] of the same promise. *)
Definition reject_chunks (e : Exn) (s : Session) : Session :=
  match pc s with
  | PcChunks ctx None => set_pc (PcChunks ctx (Some (inl e))) s
  | _ => s
  end.

(** [this.queue.on("idle", ...)]; [chunkTasks.length] there is the number
    of planned tasks. *)
Definition idle_listener (s : Session) : Session :=
  if listening s then
    if decide (length (parts s) = 0%nat ∧ (0 < length (chunkTasks s))%nat)
    then resolve_chunks false s
    else if decide (Z.of_nat (length (parts s)) = totalChunks s)
    then resolve_chunks true s
    else
      resolve_chunks false
        (emit (EDebug (DbgParts (parts s) (totalChunks s) (length (parts s))))
           s)
  else s.

(** [this.queue.addListener("completed", ...)] *)
Definition completed_listener (result : option nat) (s : Session) : Session :=
  if listening s then
    match result with
    | None => s
    | Some p => set_parts (parts s ++ [p]) (set_task_status p TCompleted s)
    end
  else s.

(** [taskClear()] *)
Definition taskClear (s : Session) : Session :=
  set_abortedCtl
    (abortedCtl s ∪ list_to_set (Task.controller <$> chunkTasks s))
    (set_qJobs [] s).

(** [this.queue.on("error", ...)] *)
Definition error_listener (e : Exn) (s : Session) : Session :=
  if listening s then reject_chunks e (taskClear s) else s.

(** The synchronous head of [uploadChunk(task, retryCount)]: the status
    assignment and the call of [readChunk], up to its await. *)
Definition uploadChunk_enter (p : nat) (retry : Z) (s : Session) : Session :=
  match task_at p (chunkTasks s) with
  | None => s
  | Some t =>
      let s := set_task_status p TRunning s in
      let s :=
        call (ReqRead (filePath (cfg s)) (Task.start t) (Task.chunkSize t)) s in
      set_invs (<[p := {| stage := SRead; retryCount := retry |}]> (invs s)) s
  end.

(** The queue tries to start one job; the flag tells whether it did. *)
Definition tryToStartAnother (s : Session) : Session * bool :=
  match qJobs s with
  | [] => (if decide (pending s = 0) then idle_listener s else s, false)
  | p :: rest =>
      if negb (qPaused s)
         && bool_decide (pending s < concurrency (options (cfg s)))
      then (uploadChunk_enter p 0 (set_qJobs rest s), true)
      else (s, false)
  end.

(** [queue.add(() => this.uploadChunk(task))] *)
Definition queue_add (p : nat) (s : Session) : Session :=
  (tryToStartAnother (set_qJobs (qJobs s ++ [p]) s)).1.

(** The queue after a job has settled: one pending less, one more try. *)
Definition next (p : nat) (s : Session) : Session :=
  (tryToStartAnother (set_invs (delete p (invs s)) s)).1.

(** [while (tryToStartAnother()) {}] of [queue.start()]; every round that
    goes on has taken a job off the queue. *)
Fixpoint processQueue (fuel : nat) (s : Session) : Session :=
  match fuel with
  | O => s
  | S fuel' =>
      let '(s', started) := tryToStartAnother s in
      if started then processQueue fuel' s' else s'
  end.

(** [queue.start()] *)
Definition queue_start (s : Session) : Session :=
  if qPaused s then
    let s := set_qPaused false s in
    processQueue (S (length (qJobs s))) s
  else s.

(** ** [upload] after the chunk pass *)

(** [while (pollCount < maxPollTimes) { pollCount++; ... }] of
    [pollUploadStatus], from the loop test to the await of
    [checkMergeStatus]; when the test fails the method returns and
    [upload] goes on to step 6. *)
Definition poll_loop (ctx : Ctx) (pollCount : Z) (s : Session)
    : Session * Outcome :=
  if decide (pollCount < pollMaxTimes (options (cfg s))) then
    (call (ReqCheck (ctxPreuploadID ctx)) s,
     Await (PcPollCheck ctx (pollCount + 1)))
  else upload_complete ctx s.

(** [upload] from the settlement of [uploadChunks] to its next await. *)
Definition upload_after_chunks (ctx : Ctx) (r : Exn + bool) (s : Session)
    : Session * Outcome :=
  match r with
  | inl e => (s, Throw e)
  | inr false =>
      if decide (status s = StRunning) then (s, Throw (Err "上传失败"))
      else (s, Return None)
  | inr true =>
      (call (ReqFinish (ctxPreuploadID ctx)) s, Await (PcFinish ctx))
  end.

(** The continuation of [upload] runs once the code that settled the
    promise of [uploadChunks] has run to its end. *)
Definition flush (s : Session) : Session :=
  match pc s with
  | PcChunks ctx (Some r) => upload_settle (upload_after_chunks ctx r s)
  | _ => s
  end.

(** ** A job settles *)

(** [uploadChunk] returned [result]: the [completed] listeners, then the
    queue moves on. *)
Definition job_return (p : nat) (result : option nat) (s : Session)
    : Session :=
  next p (completed_listener result s).

(** [uploadChunk] threw: the [error] listeners, the queue moves on, the
    continuation of [upload] runs, and then the [catch] attached to the
    promise of [add] reports the error. *)
Definition job_throw (p : nat) (e : Exn) (s : Session) : Session :=
  emit (EDebug (DbgError e "上传分片失败"))
    (flush (next p (error_listener e s))).

(** The [catch] clause of [uploadChunk] for the activation [inv] of part
    [p]. *)
Definition uploadChunk_catch (p : nat) (inv : Invocation) (e : Exn)
    (s : Session) : Session :=
  if isCancel e then
    job_return p None (set_task_status p TAbort s)
  else if decide (retryCount inv < retryTimes (options (cfg s))) then
    set_invs (<[p := {| stage := SRetry; retryCount := retryCount inv |}]>
                (invs s))
      (sleep (retryDelay (options (cfg s))) s)
  else
    job_throw p e (set_task_status p TError s).

(** ** [uploadChunk] after each of its awaits *)

(** [readChunk] settled with [r]. *)
Definition on_read (p : nat) (t : Task.t) (inv : Invocation)
    (r : Exn + list Byte.byte) (s : Session) : Session :=
  match r with
  | inr fileData =>
      set_invs (<[p := {| stage := SUrl fileData;
                          retryCount := retryCount inv |}]> (invs s))
        (call (ReqGetUrl (Task.uploadId t) p) s)
  | inl e => uploadChunk_catch p inv e s
  end.

(** The [catch] clause of [getChunkUploadUrl]: what is rethrown. *)
Definition getChunkUploadUrl_catch (error : Exn) (s : Session)
    : Session * Exn :=
  (emit (EDebug (DbgError error "获取上传URL失败")) s,
   Err ("获取上传URL失败: " +:+ message error)).

(** [getChunkUploadUrl] settled; on success [axios.put] is called with the
    signal of the controller that the task holds at that moment. *)
Definition on_url (p : nat) (t : Task.t) (inv : Invocation)
    (fileData : list Byte.byte) (r : Reply UrlData) (s : Session) : Session :=
  match r with
  | Resp code msg d =>
      if decide (code ≠ 0) then
        let '(s, e) :=
          getChunkUploadUrl_catch (Err ("获取上传URL失败: " +:+ msg)) s in
        uploadChunk_catch p inv e s
      else
        set_invs (<[p := {| stage := SPut (Task.controller t);
                            retryCount := retryCount inv |}]> (invs s))
          (call (ReqPut (presignedURL d) fileData (Task.controller t)) s)
  | NetErr msg =>
      let '(s, e) := getChunkUploadUrl_catch (Err msg) s in
      uploadChunk_catch p inv e s
  end.

(** [Object.values(this.progress).reduce((a, b) => a + b, 0)] *)
Definition totalLoaded (m : gmap nat Z) : Z :=
  map_fold (λ _ v acc, acc + v) 0 m.

(** [onUploadProgress] *)
Definition on_put_progress (p : nat) (t : Task.t) (progressLoaded : Z)
    (s : Session) : Session :=
  let s := set_progress (<[p := progressLoaded]> (progress s)) s in
  let tl := totalLoaded (progress s) in
  emit (progressEvent PhUploading (tl, size s) tl (size s)
          (XChunk p progressLoaded (Task.chunkSize t))) s.

(** [axios.put] settled: [None] for a response. *)
Definition on_put (p : nat) (inv : Invocation) (r : option Exn)
    (s : Session) : Session :=
  match r with
  | None => job_return p (Some p) s
  | Some e => uploadChunk_catch p inv e s
  end.

(** The timer of a retry fired: [return this.uploadChunk(task,
    retryCount + 1)]. *)
Definition on_retry_timer (p : nat) (inv : Invocation) (s : Session)
    : Session :=
  uploadChunk_enter p (retryCount inv + 1) s.

(** ** [upload] before the chunk pass *)

(** The [catch] clause of [createUploadTask]: what is rethrown. *)
Definition createUploadTask_catch (error : Exn) (s : Session)
    : Session * Exn :=
  (emit (EDebug (DbgError error "创建上传任务失败")) s,
   Err ("创建上传任务失败: " +:+ message error)).

(** [upload(target)] up to the first await, which is the one of [md5File]
    inside [createUploadTask]. *)
Definition upload_start (tgt : option string) (s : Session)
    : Session * Outcome :=
  let s := set_status StRunning s in
  let s := emit EStart s in
  let s := emit (progressEvent PhPreupload (0, 1) 0 (size s) XNone) s in
  (call (ReqMd5 (filePath (cfg s))) s, Await (PcMd5 tgt)).

(** [md5File] settled; [createUploadTask(target)] receives [target] as its
    [parentFileID]. *)
Definition on_md5 (tgt : option string) (r : Exn + string) (s : Session)
    : Session * Outcome :=
  match r with
  | inr etag =>
      (call (ReqCreate (js_nullish tgt (parentFileID (cfg s)))
               (basename (filePath (cfg s))) (size s) etag
               (duplicate (options (cfg s)))) s,
       Await (PcCreate tgt))
  | inl e =>
      let '(s, e') := createUploadTask_catch e s in
      (s, Throw e')
  end.

(** [uploadChunks(uploadId, totalChunks)] up to the promise it returns:
    the tasks are planned and stored, every task is added to the queue,
    and the listeners are registered. *)
Definition uploadChunks (uid : string) (n : Z) (s : Session) : Session :=
  let tasks := planTasks (size s) (chunkSize s) uid n (nextCtl s) in
  let s := set_nextCtl (nextCtl s + length tasks)%nat s in
  let s := set_chunkTasks tasks s in
  let s := foldl (λ s t, queue_add (partNumber t) s) s tasks in
  set_totalChunks n (set_parts [] (set_listening true s)).

(** [upload] after [createUploadTask] returned [d]. *)
Definition upload_created (tgt : option string) (d : CreateData)
    (s : Session) : Session * Outcome :=
  let ctx := {| target := tgt; ctxFileID := fileID d;
                ctxPreuploadID := preuploadID d |} in
  if reuse d then upload_complete ctx s
  else
    let s := set_chunkSize (sliceSize d) s in
    let n := ceil_div (size s) (chunkSize s) in
    (uploadChunks (preuploadID d) n s, Await (PcChunks ctx None)).

(** The request of [createUploadTask] settled. *)
Definition on_create (tgt : option string) (r : Reply CreateData)
    (s : Session) : Session * Outcome :=
  match r with
  | Resp code msg d =>
      if decide (code ≠ 0) then
        let '(s, e) :=
          createUploadTask_catch (Err ("创建上传任务失败: " +:+ msg)) s in
        (s, Throw e)
      else upload_created tgt d s
  | NetErr msg =>
      let '(s, e) := createUploadTask_catch (Err msg) s in
      (s, Throw e)
  end.

(** The request of [finishUpload] settled; steps 5 and 6 of [upload]. *)
Definition on_finish (ctx : Ctx) (r : Reply FinishData) (s : Session)
    : Session * Outcome :=
  match r with
  | Resp code msg d =>
      if decide (code ≠ 0) then
        (s, Throw (Err ("完成上传失败: " +:+ ("完成上传失败: " +:+ msg))))
      else if asyncUpload d && negb (completed d) then
        poll_loop ctx 0
          (emit (progressEvent PhMerging (1, 1) (size s) (size s) XMessage) s)
      else upload_complete ctx s
  | NetErr msg => (s, Throw (Err ("完成上传失败: " +:+ msg)))
  end.

(** The [catch] clause inside the loop of [pollUploadStatus]. *)
Definition poll_catch (error : Exn) : Exn :=
  Err ("检查合并状态失败: " +:+ message error).

(** [checkMergeStatus] settled at the [pollCount]-th round of
    [pollUploadStatus]. *)
Definition on_check (ctx : Ctx) (pollCount : Z) (r : Reply CheckData)
    (s : Session) : Session * Outcome :=
  match r with
  | Resp code msg d =>
      if decide (code ≠ 0) then
        (s, Throw
              (poll_catch
                 (Err ("检查合并状态失败: "
                       +:+ ("检查合并状态失败: " +:+ msg)))))
      else if mergeCompleted d then
        upload_complete ctx (emit (EDebug (DbgMerged pollCount)) s)
      else if decide (pollCount >= pollMaxTimes (options (cfg s))) then
        (s, Throw (poll_catch (Err "轮询检查上传状态超时")))
      else
        (sleep (pollInterval (options (cfg s)))
           (emit (progressEvent PhMerging (1, 1) (size s) (size s)
                    (XPoll pollCount)) s),
         Await (PcPollSleep ctx pollCount))
  | NetErr msg =>
      (s, Throw (poll_catch (Err ("检查合并状态失败: " +:+ msg))))
  end.

(** ** [pause], [resume], [cancel] *)

Definition pause_task (s : Session) (t : Task.t) : Session :=
  if decide (Task.status t = TRunning) then
    set_abortedCtl ({[Task.controller t]} ∪ abortedCtl s)
      (set_progress (<[partNumber t := 0]> (progress s)) s)
  else s.

Definition pause (s : Session) : Session :=
  if decide (status s ≠ StRunning) then s
  else
    let s := set_status StPaused s in
    let s := set_qPaused true s in
    foldl pause_task s (chunkTasks s).

Definition fresh_controller (c : nat) (t : Task.t) : Task.t :=
  Task.set_status TPending (Task.set_controller c t).

Definition resume_task (s : Session) (p : nat) : Session :=
  let s :=
    set_nextCtl (S (nextCtl s))
      (set_chunkTasks
         (task_update p (fresh_controller (nextCtl s)) (chunkTasks s)) s) in
  queue_add p s.

(** The part numbers of the tasks that [resume] re-adds. *)
Definition abortedTasks (s : Session) : list nat :=
  partNumber <$> filter (λ t, Task.status t = TAbort) (chunkTasks s).

Definition resume (s : Session) : Session :=
  if decide (status s ≠ StPaused) then s
  else
    let s := set_status StRunning s in
    let s := foldl resume_task s (abortedTasks s) in
    queue_start s.

Definition cancel (s : Session) : Session :=
  let s := set_status StCancel s in
  let s := taskClear s in
  emit ECancel s.

(** ** The machine *)

Inductive Input :=
  | CallUpload (target : option string)
  | CallPause
  | CallResume
  | CallCancel
  | Md5Done (r : Exn + string)
  | CreateReply (r : Reply CreateData)
  | ReadDone (p : nat) (f : FileEntry)
  | UrlReply (p : nat) (r : Reply UrlData)
  | PutProgress (p : nat) (progressLoaded : Z)
  | PutDone (p : nat) (r : option Exn)
  | RetryTimer (p : nat)
  | FinishReply (r : Reply FinishData)
  | CheckReply (r : Reply CheckData)
  | PollTimer.

(** How [axios.put] may settle, given the signal it was called with: an
    aborted transfer is rejected with the cancellation error and with
    nothing else; a transfer that is not aborted never is. *)
Definition put_settles (signal : nat) (r : option Exn) (s : Session) : bool :=
  match r with
  | Some Canceled => bool_decide (signal ∈ abortedCtl s)
  | _ => bool_decide (signal ∉ abortedCtl s)
  end.

(** The body of [upload] from the await that input [i] settles (or from
    the call, for [CallUpload]) to its next await, return or throw.
    [None] when [upload] does not wait for [i].  The machine follows one
    activation of [upload]: the source has no guard against a second call
    of [upload] on the same uploader, which would start a second
    activation beside or after the first; such a call is outside the
    machine ([None] for [CallUpload] anywhere but on the new session), and
    what is proved of a run is proved of sessions whose [upload] is called
    once.  A slice size of zero, for which the source never leaves the
    planning loop, is outside the machine too. *)
Definition upload_resume (s : Session) (i : Input)
    : option (Session * Outcome) :=
  match i, pc s with
  | CallUpload tgt, PcNew => Some (upload_start tgt s)
  | Md5Done r, PcMd5 tgt => Some (on_md5 tgt r s)
  | CreateReply r, PcCreate tgt =>
      match r with
      | Resp 0 _ d =>
          if negb (reuse d) && bool_decide (sliceSize d = 0) then None
          else Some (on_create tgt r s)
      | _ => Some (on_create tgt r s)
      end
  | FinishReply r, PcFinish ctx => Some (on_finish ctx r s)
  | CheckReply r, PcPollCheck ctx n => Some (on_check ctx n r s)
  | PollTimer, PcPollSleep ctx n => Some (poll_loop ctx n s)
  | _, _ => None
  end.

(** The session takes one input: the code that the input wakes runs up to
    its next await.  [None] when nothing in the session waits for the
    input. *)
Definition handle (s : Session) (i : Input) : option Session :=
  match i with
  | CallPause => Some (pause s)
  | CallResume => Some (resume s)
  | CallCancel => Some (cancel s)
  | ReadDone p f =>
      inv ← invs s !! p;
      t ← task_at p (chunkTasks s);
      match stage inv with
      | SRead =>
          r ← readChunk f (Task.start t) (Task.chunkSize t);
          Some (on_read p t inv r s)
      | _ => None
      end
  | UrlReply p r =>
      inv ← invs s !! p;
      t ← task_at p (chunkTasks s);
      match stage inv with
      | SUrl fileData => Some (on_url p t inv fileData r s)
      | _ => None
      end
  | PutProgress p l =>
      inv ← invs s !! p;
      t ← task_at p (chunkTasks s);
      match stage inv with
      | SPut sig =>
          if bool_decide (sig ∉ abortedCtl s)
          then Some (on_put_progress p t l s) else None
      | _ => None
      end
  | PutDone p r =>
      inv ← invs s !! p;
      match stage inv with
      | SPut sig =>
          if put_settles sig r s then Some (on_put p inv r s) else None
      | _ => None
      end
  | RetryTimer p =>
      inv ← invs s !! p;
      match stage inv with
      | SRetry => Some (on_retry_timer p inv s)
      | _ => None
      end
  | _ => upload_settle <$> upload_resume s i
  end.

(** One input, and then the continuation of [upload] if the input settled
    the promise it awaits. *)
Definition step (s : Session) (i : Input) : option Session :=
  flush <$> handle s i.

Fixpoint run (s : Session) (ins : list Input) : option Session :=
  match ins with
  | [] => Some s
  | i :: ins' => s' ← step s i; run s' ins'
  end.

(** ** Vocabulary of the statements *)

(** The three statuses that the specification calls terminal. *)
Definition terminal (st : Status) : Prop :=
  st = StCompleted ∨ st = StError ∨ st = StCancel.

(** What the specification asks of one read: exactly [len] bytes of the
    file from [start] on, or a failure. *)
Definition exact_or_error (f : FileEntry) (start len : Z) : Prop :=
  match readChunk f start len with
  | Some (inr data) =>
      Z.of_nat (length data) = len
      ∧ ∃ content, f = Bytes content
          ∧ data = take (Z.to_nat len) (drop (Z.to_nat start) content)
  | Some (inl _) => True
  | None => False
  end.

Definition is_cancel_event (a : Action) : bool :=
  match a with Emit ECancel => true | _ => false end.

(** The number of [cancel] events in a log. *)
Definition cancelEvents (l : list Action) : nat :=
  length (List.filter is_cancel_event l).

(** ** Sessions and replies used as concrete inputs *)

Definition exampleConfig : Config :=
  {| filePath := "/data/video.mp4"; token := "token"; parentFileID := "0";
     errorListener := true;
     options := defaultOptions |}.

(** The same on an uploader on which nobody listens for [error]. *)
Definition silentConfig : Config :=
  {| filePath := "/data/video.mp4"; token := "token"; parentFileID := "0";
     errorListener := false;
     options := defaultOptions |}.

Definition exampleFile : FileEntry :=
  Bytes [Byte.x01; Byte.x02; Byte.x03; Byte.x04; Byte.x05;
         Byte.x06; Byte.x07; Byte.x08; Byte.x09; Byte.x0a].

(** A create-task response with file id "F1", preupload id "P1" and slice
    size 4. *)
Definition createReply (reuse : bool) : Reply CreateData :=
  Resp 0 "ok" {| fileID := Some "F1"; reuse := reuse; preuploadID := "P1";
                 sliceSize := 4 |}.

Definition urlReply : Reply UrlData :=
  Resp 0 "ok" {| presignedURL := "https://store/part"; isMultipart := false |}.

Definition finishReply (async done : bool) : Reply FinishData :=
  Resp 0 "ok" {| asyncUpload := async; finishFileID := Some "F2";
                 completed := done |}.

Definition checkReply (done : bool) : Reply CheckData :=
  Resp 0 "ok" {| mergeCompleted := done; mergeFileID := Some "F3" |}.

(** [upload()] up to the response of the create-task request. *)
Definition created (reuse : bool) : list Input :=
  [CallUpload None; Md5Done (inr "etag"); CreateReply (createReply reuse)].

(** One successful attempt on part [p]. *)
Definition transfers (p : nat) : list Input :=
  [ReadDone p exampleFile; UrlReply p urlReply; PutDone p None].

(** The actions of the chunk pass: a chunk is read, its destination is
    requested, its bytes are transferred, or an [uploading] progress event
    is emitted. *)
Definition chunk_action (a : Action) : bool :=
  match a with
  | Call (ReqRead _ _ _) | Call (ReqGetUrl _ _) | Call (ReqPut _ _ _) => true
  | Emit (EProgress pe) =>
      match event pe with PhUploading => true | _ => false end
  | _ => false
  end.

(** The calls of [pause], [resume] and [cancel]. *)
Definition is_control (i : Input) : bool :=
  match i with
  | CallPause | CallResume | CallCancel => true
  | _ => false
  end.

(** The calls of [upload] among the inputs. *)
Definition is_upload (i : Input) : bool :=
  match i with CallUpload _ => true | _ => false end.

Definition uploads (ins : list Input) : nat :=
  length (List.filter is_upload ins).

(** The requests that the session has issued. *)
Definition requests (l : list Action) : list Request :=
  omap (λ a, match a with Call r => Some r | _ => None end) l.

(** A session that has planned no chunk: no task, nothing queued or in
    progress, no listener of the chunk pass, and no action of the chunk
    pass so far. *)
Record untouched (c : Config) (sz : Z) (s : Session) : Prop := Untouched {
  ut_cfg : cfg s = c;
  ut_size : size s = sz;
  ut_invs : invs s = ∅;
  ut_tasks : chunkTasks s = [];
  ut_queue : qJobs s = [];
  ut_deaf : listening s = false;
  ut_log : Forall (λ a, chunk_action a = false) (log s);
}.

(** A session that has settled without ever starting a chunk: nothing in
    it waits for an input of the chunk pass. *)
Definition settled_idle (s : Session) : Prop :=
  invs s = ∅ ∧ (∃ r, pc s = PcDone r)
  ∧ status s ≠ StRunning ∧ status s ≠ StPaused
  ∧ Forall (λ a, chunk_action a = false) (log s).

(** The configuration of the examples with a poll budget of zero. *)
Definition noPollConfig : Config :=
  {| filePath := "/data/video.mp4"; token := "token"; parentFileID := "0";
     errorListener := true;
     options :=
       {| concurrency := 3; retryTimes := 3; retryDelay := 3000;
          limitRate := 0; duplicate := 1; pollInterval := 2000;
          pollMaxTimes := 0 |} |}.

Definition is_check_call (a : Action) : bool :=
  match a with Call (ReqCheck _) => true | _ => false end.

Definition is_finish_call (a : Action) : bool :=
  match a with Call (ReqFinish _) => true | _ => false end.

(** The locals of [upload] after the create-task response of the
    examples. *)
Definition exampleCtx : Ctx :=
  {| target := None; ctxFileID := Some "F1"; ctxPreuploadID := "P1" |}.

(** The session of the examples after the create-task response asked
    for a chunked upload of a file of [sz] bytes. *)
Definition afterCreate (sz : Z) : Session :=
  upload_settle (on_create None (createReply false)
    (upload_settle (on_md5 None (inr "etag")
       (upload_settle (upload_start None (newUploader exampleConfig sz)))))).

(** ** Attempts of [uploadChunk] *)

(** An attempt that fails otherwise than by cancellation: the read is
    rejected; or the read succeeds and the request for the destination
    is rejected or answered with a non-zero code; or both succeed and the
    transfer is rejected with an error. *)
Inductive Failure :=
  | FRead (f : FileEntry)
  | FUrl (f : FileEntry) (r : Reply UrlData)
  | FPut (f : FileEntry) (msg : string) (d : UrlData) (e : string).

(** The inputs by which the attempt on part [p] fails. *)
Definition failure_inputs (p : nat) (a : Failure) : list Input :=
  match a with
  | FRead f => [ReadDone p f]
  | FUrl f r => [ReadDone p f; UrlReply p r]
  | FPut f msg d e =>
      [ReadDone p f; UrlReply p (Resp 0 msg d); PutDone p (Some (Err e))]
  end.

Definition read_result (t : Task.t) (f : FileEntry)
    : option (Exn + list Byte.byte) :=
  readChunk f (Task.start t) (Task.chunkSize t).

Definition fails (t : Task.t) (a : Failure) : Prop :=
  match a with
  | FRead f => ∃ e, read_result t f = Some (inl e)
  | FUrl f r =>
      (∃ data, read_result t f = Some (inr data))
      ∧ match r with Resp 0 _ _ => False | _ => True end
  | FPut f _ _ _ => ∃ data, read_result t f = Some (inr data)
  end.

(** The bytes that a successful read delivers. *)
Definition read_data (t : Task.t) (f : FileEntry) : list Byte.byte :=
  match read_result t f with
  | Some (inr data) => data
  | _ => []
  end.

(** The error with which the attempt ends. *)
Definition failure_error (t : Task.t) (a : Failure) : Exn :=
  match a with
  | FRead f =>
      match read_result t f with
      | Some (inl e) => e
      | _ => Err ""
      end
  | FUrl _ (Resp _ msg _) =>
      Err ("获取上传URL失败: " +:+ ("获取上传URL失败: " +:+ msg))
  | FUrl _ (NetErr msg) => Err ("获取上传URL失败: " +:+ msg)
  | FPut _ _ _ e => Err e
  end.

(** What a failing attempt on part [p] logs after its read was issued. *)
Definition failure_log (t : Task.t) (p : nat) (a : Failure) : list Action :=
  match a with
  | FRead _ => []
  | FUrl _ r =>
      [Call (ReqGetUrl (Task.uploadId t) p);
       Emit (EDebug (DbgError
               match r with
               | Resp _ msg _ => Err ("获取上传URL失败: " +:+ msg)
               | NetErr msg => Err msg
               end "获取上传URL失败"))]
  | FPut f _ d _ =>
      [Call (ReqGetUrl (Task.uploadId t) p);
       Call (ReqPut (presignedURL d) (read_data t f) (Task.controller t))]
  end.

(** A failing attempt followed by its retry: the pause of [retryDelay]
    and the read of the next attempt. *)
Definition retry_inputs (p : nat) (a : Failure) : list Input :=
  failure_inputs p a ++ [RetryTimer p].

Definition retry_log (c : Config) (t : Task.t) (p : nat) (a : Failure)
    : list Action :=
  failure_log t p a
    ++ [Sleep (retryDelay (options c));
        Call (ReqRead (filePath c) (Task.start t) (Task.chunkSize t))].

(** The continuation of [upload] is not waiting to run. *)
Definition flushed (s : Session) : Prop :=
  ∀ ctx r, pc s ≠ PcChunks ctx (Some r).

(** The activation of [uploadChunk] for part [p], whose task is [t],
    stands at [inv], the controller of the task has not been aborted, and
    the continuation of [upload] is not waiting to run. *)
Definition standing (s : Session) (p : nat) (t : Task.t) (inv : Invocation)
    : Prop :=
  flushed s
  ∧ task_at p (chunkTasks s) = Some t
  ∧ Task.status t = TRunning
  ∧ invs s !! p = Some inv
  ∧ Task.controller t ∉ abortedCtl s.

(** It stands at the read of an attempt with [retryCount = r]. *)
Definition reading (s : Session) (p : nat) (t : Task.t) (r : Z) : Prop :=
  standing s p t {| stage := SRead; retryCount := r |}.

(** The session [s] after the activation for part [p] has logged [l] and
    come to stand at [inv]. *)
Definition advanced (p : nat) (inv : Invocation) (l : list Action)
    (s : Session) : Session :=
  set_invs (<[p := inv]> (invs s)) (set_log (log s ++ l) s).

(** The second of the three tasks of the examples (a file of 10 bytes in
    slices of 4), once its activation has started. *)
Definition secondTask : Task.t :=
  Task.set_status TRunning (planTask 10 4 "P1" 3 1%nat 1%nat).

(** Two failing attempts: a transfer that is rejected, and a read that
    finds no file. *)
Definition twoFailures : list Failure :=
  [FPut exampleFile "ok"
     {| presignedURL := "https://store/part"; isMultipart := false |}
     "ECONNRESET";
   FRead NoEntry].

(** ** The file id of a completed upload *)

(** How the chunk pass and the control calls move the activation of
    [upload]: not at all, or from the await of the chunk pass to its
    settlement and on to the completion request, to a failure, or to the
    return of [undefined]. *)
Inductive chunk_pc : Pc → Pc → Prop :=
  | cp_refl a : chunk_pc a a
  | cp_settle ctx o r : chunk_pc (PcChunks ctx o) (PcChunks ctx (Some r))
  | cp_finish ctx o : chunk_pc (PcChunks ctx o) (PcFinish ctx)
  | cp_fail ctx o e : chunk_pc (PcChunks ctx o) (PcDone (Rejected e))
  | cp_none ctx o : chunk_pc (PcChunks ctx o) (PcDone (Resolved None)).

(** The locals [fileID] and [preuploadID] of [upload] are those of a
    create-task response among the inputs [ins]. *)
Definition from_create (ins : list Input) (ctx : Ctx) : Prop :=
  ∃ msg d, CreateReply (Resp 0 msg d) ∈ ins
    ∧ ctxFileID ctx = fileID d ∧ ctxPreuploadID ctx = preuploadID d.

(** The invariant of [upload] along the inputs [ins] taken so far. *)
Definition id_inv (ins : list Input) (p : Pc) : Prop :=
  match p with
  | PcChunks ctx _ | PcFinish ctx | PcPollCheck ctx _ | PcPollSleep ctx _ =>
      from_create ins ctx
  | PcDone (Resolved (Some info)) =>
      ∃ ctx, from_create ins ctx
        ∧ fileId info = js_or (ctxFileID ctx) (ctxPreuploadID ctx)
  | _ => True
  end.

(** An input with the file ids of the completion and merge-status
    responses blanked. *)
Definition scrub (i : Input) : Input :=
  match i with
  | FinishReply (Resp code msg d) =>
      FinishReply (Resp code msg
        {| asyncUpload := asyncUpload d; finishFileID := None;
           completed := completed d |})
  | CheckReply (Resp code msg d) =>
      CheckReply (Resp code msg
        {| mergeCompleted := mergeCompleted d; mergeFileID := None |})
  | _ => i
  end.

(** A chunked upload of a file of one chunk, from the call of [upload] to
    the synchronous completion response. *)
Definition fullUpload : list Input :=
  created false ++ transfers 1 ++ [FinishReply (finishReply false true)].

(** ** Rounds of the completion poller *)

(** The merge-status responses [rs], none of them the last word, as the
    poller takes them: a response, the timer of the pause, the next
    response, and so on. *)
Fixpoint poll_inputs (rs : list CheckData) : list Input :=
  match rs with
  | [] => []
  | d :: rs' =>
      CheckReply (Resp 0 "ok" d)
        :: match rs' with
           | [] => []
           | _ => PollTimer :: poll_inputs rs'
           end
  end.

(** What [k] rounds that go on log, from round [n]: the [merging]
    progress event, the pause of [pollInterval], the next status check. *)
Fixpoint poll_log (s : Session) (ctx : Ctx) (n : Z) (k : nat) : list Action :=
  match k with
  | O => []
  | S k' =>
      [Emit (progressEvent PhMerging (1, 1) (size s) (size s) (XPoll n));
       Sleep (pollInterval (options (cfg s)));
       Call (ReqCheck (ctxPreuploadID ctx))]
        ++ poll_log s ctx (n + 1) k'
  end.

Definition pollTimeout : Exn :=
  Err "检查合并状态失败: 轮询检查上传状态超时".

(** The session [s] with [upload] moved to [p] and [l] logged. *)
Definition moved (p : Pc) (l : list Action) (s : Session) : Session :=
  set_pc p (set_log (log s ++ l) s).

Definition is_sleep (a : Action) : bool :=
  match a with Sleep _ => true | _ => false end.

(** The configuration of the examples with a poll budget of three. *)
Definition threePollConfig : Config :=
  {| filePath := "/data/video.mp4"; token := "token"; parentFileID := "0";
     errorListener := true;
     options :=
       {| concurrency := 3; retryTimes := 3; retryDelay := 3000;
          limitRate := 0; duplicate := 1; pollInterval := 2000;
          pollMaxTimes := 3 |} |}.

(** The session of that configuration when the one chunk of a file of
    three bytes has been transferred and the completion request is
    outstanding. *)
Definition beforeFinish : Session :=
  default (newUploader threePollConfig 3)
    (run (newUploader threePollConfig 3) (created false ++ transfers 1)).

(** What the poller logs between the completion response and the
    time-out, from round 1 on. *)
Definition poll_trace (s : Session) (ctx : Ctx) (k : nat) : list Action :=
  [Emit (progressEvent PhMerging (1, 1) (size s) (size s) XMessage);
   Call (ReqCheck (ctxPreuploadID ctx))]
    ++ poll_log s ctx 1 k.

(** The task at position [i] of [this.chunkTasks] is the one that the
    planning loop created in iteration [i]. *)
Definition well_numbered (ts : list Task.t) : Prop :=
  ∀ i t, ts !! i = Some t → Task.chunk t = i.

(** * Further vocabulary

    Invariants and examples for the properties that follow the claims. *)

(** ** Invariants of the queue and of the tasks *)

(** The status of the task of part [p], when there is one. *)
Definition task_status (s : Session) (p : nat) : option TaskStatus :=
  Task.status <$> task_at p (chunkTasks s).

(** The controller that the task of part [p] holds. *)
Definition task_ctl (s : Session) (p : nat) : option nat :=
  Task.controller <$> task_at p (chunkTasks s).

Definition all_completed (s : Session) : Prop :=
  ∀ i t, chunkTasks s !! i = Some t → Task.status t = TCompleted.

(** [upload] has gone past the chunk pass with success, or has resolved
    with a result. *)
Definition committed (p : Pc) : Prop :=
  match p with
  | PcChunks _ (Some (inr true)) | PcFinish _ | PcPollCheck _ _
  | PcPollSleep _ _ | PcDone (Resolved (Some _)) => True
  | _ => False
  end.

(** [upload] has not reached the chunk pass. *)
Definition before_chunks (p : Pc) : Prop :=
  match p with
  | PcNew | PcMd5 _ | PcCreate _ => True
  | _ => False
  end.

(** The lengths of the planned chunks. *)
Definition sum_sizes (ts : list Task.t) : Z :=
  foldr (λ t acc, Task.chunkSize t + acc) 0 ts.

(** The chunks have lengths that are not negative and fit the file. *)
Definition sizes_fit (sz : Z) (ts : list Task.t) : Prop :=
  Forall (λ t, 0 ≤ Task.chunkSize t) ts ∧ sum_sizes ts ≤ sz.

(** Every entry of [this.progress] belongs to a task and lies within the
    length of its chunk. *)
Definition progress_within (m : gmap nat Z) (ts : list Task.t) : Prop :=
  ∀ p v, m !! p = Some v →
    ∃ t, task_at p ts = Some t ∧ 0 ≤ v ≤ Task.chunkSize t.

(** The byte count that the transfer of a chunk reports lies within the
    length of the chunk. *)
Definition reports_within (s : Session) (i : Input) : bool :=
  match i with
  | PutProgress p l =>
      match task_at p (chunkTasks s) with
      | Some t => bool_decide (0 ≤ l ≤ Task.chunkSize t)
      | None => true
      end
  | _ => true
  end.

(** Along the inputs [ins], taken from [s] on, every report does. *)
Fixpoint honest_run (s : Session) (ins : list Input) : bool :=
  match ins with
  | [] => true
  | i :: ins' =>
      reports_within s i
      && match step s i with
         | Some s' => honest_run s' ins'
         | None => true
         end
  end.

(** The invariant of the queue, for a session of configuration [c] on a
    file of [sz] bytes; the clause on [this.progress] is for sessions
    whose transfers report as [reports_within] says ([R]). *)
Record queue_inv (c : Config) (sz : Z) (R : Prop) (s : Session) : Prop :=
    QueueInv {
  qi_jobs : NoDup (qJobs s);
  qi_queued : ∀ p, p ∈ qJobs s → task_status s p = Some TPending;
  qi_active : ∀ p, is_Some (invs s !! p) → task_status s p = Some TRunning;
  qi_parts_nodup : NoDup (parts s);
  qi_parts : ∀ p, p ∈ parts s → task_status s p = Some TCompleted;
  qi_numbered : well_numbered (chunkTasks s);
  qi_total :
    listening s = true →
    Z.of_nat (length (chunkTasks s)) = Z.max 0 (totalChunks s);
  qi_bound : pending s ≤ Z.max 0 (concurrency (options (cfg s)));
  qi_before : before_chunks (pc s) → chunkTasks s = [];
  qi_deaf : before_chunks (pc s) → listening s = false;
  qi_committed : committed (pc s) → all_completed s;
  qi_recorded : ∀ p, task_status s p = Some TCompleted → p ∈ parts s;
  qi_cfg : cfg s = c;
  qi_size : size s = sz;
  qi_shape : 0 ≤ sz → sizes_fit sz (chunkTasks s);
  qi_progress : R → 0 ≤ sz → progress_within (progress s) (chunkTasks s);
  qi_ctl :
    Forall (λ t, (Task.controller t < nextCtl s)%nat) (chunkTasks s);
  qi_aborted : ∀ k, k ∈ abortedCtl s → (k < nextCtl s)%nat;
  qi_ctl_nodup : NoDup (Task.controller <$> chunkTasks s);
  qi_live :
    ∀ p k, p ∈ qJobs s → task_ctl s p = Some k → k ∉ abortedCtl s;
  qi_signal :
    ∀ p inv sig, invs s !! p = Some inv → stage inv = SPut sig →
      task_ctl s p = Some sig;
}.


(** The session of the examples while the one chunk of a file of three
    bytes is in transfer. *)
Definition midTransfer : Session :=
  default (newUploader exampleConfig 3)
    (run (newUploader exampleConfig 3)
       (created false ++ [ReadDone 1 exampleFile; UrlReply 1 urlReply])).

(** ** Lifecycle events *)

(** The events that tell the life of a session: [start], [completed] and
    [error]. *)
Definition outcome_event (a : Action) : option Emitted :=
  match a with
  | Emit EStart => Some EStart
  | Emit (ECompleted r) => Some (ECompleted r)
  | Emit (EError e) => Some (EError e)
  | _ => None
  end.

Definition lifecycle (l : list Action) : list Emitted := omap outcome_event l.

(** The lifecycle events that go with where [upload] stands, on an
    uploader on which somebody listens for [error] ([heard]) or nobody
    does. *)
Definition expected_lifecycle (heard : bool) (p : Pc) : list Emitted :=
  match p with
  | PcNew => []
  | PcDone (Resolved (Some info)) => [EStart; ECompleted info]
  | PcDone (Rejected e) => if heard then [EStart; EError e] else [EStart]
  | _ => [EStart]
  end.

Definition error_event (a : Action) : option Exn :=
  match a with
  | Emit (EError e) => Some e
  | _ => None
  end.

(** The errors that the session has reported. *)
Definition error_events (l : list Action) : list Exn := omap error_event l.

(** The promise of the chunk pass stays as it is or is settled. *)
Inductive settles : Pc → Pc → Prop :=
  | st_refl a : settles a a
  | st_settle ctx r : settles (PcChunks ctx None) (PcChunks ctx (Some r)).

(** What the queue and the chunk pass leave alone: the configuration, the
    file size, the status of the session and its lifecycle events; and
    they move [upload] at most by settling the promise it awaits. *)
Record quiet (s s' : Session) : Prop := Quiet {
  q_cfg : cfg s' = cfg s;
  q_size : size s' = size s;
  q_status : status s' = status s;
  q_pc : settles (pc s) (pc s');
  q_life : lifecycle (log s') = lifecycle (log s);
}.

(** Chunk-pass code, and the continuation of [upload] that it wakes. *)
Inductive moves : Session → Session → Prop :=
  | mv_quiet s s' : quiet s s' → moves s s'
  | mv_flush s : moves s (flush s)
  | mv_trans s1 s2 s3 : moves s1 s2 → moves s2 s3 → moves s1 s3.

Definition life_inv (s : Session) : Prop :=
  lifecycle (log s) = expected_lifecycle (errorListener (cfg s)) (pc s).


(** What a stretch of the body of [upload] does to the status and to the
    lifecycle events, by how it ends. *)
Definition stretch_effect (s : Session) (r : Session * Outcome) : Prop :=
  match r with
  | (s1, Await p') =>
      (∀ h, expected_lifecycle h p' = [EStart])
      ∧ ((pc s ≠ PcNew ∧ quiet s s1)
         ∨ (pc s = PcNew ∧ status s1 = StRunning
            ∧ lifecycle (log s1) = lifecycle (log s) ++ [EStart]))
  | (s1, Return v) =>
      pc s ≠ PcNew
      ∧ ∃ info, v = Some info ∧ status s1 = StCompleted
          ∧ lifecycle (log s1) = lifecycle (log s) ++ [ECompleted info]
  | (s1, Throw e) => pc s ≠ PcNew ∧ quiet s s1
  end.


(** ** A session cancelled during the chunk pass *)

(** [upload] has not got past the chunk pass: it awaits it, it is about
    to be told that the pass failed, or it has resolved to [undefined]. *)
Definition unfinished (p : Pc) : Prop :=
  match p with
  | PcChunks _ None | PcChunks _ (Some (inl _))
  | PcChunks _ (Some (inr false)) | PcDone (Resolved None) => True
  | _ => False
  end.

(** A session cancelled during the chunk pass, with the parts [ps]
    recorded: nothing is queued, every controller is aborted, and so is
    the signal of every transfer in flight. *)
Record stopped (ps : list nat) (s : Session) : Prop := Stopped {
  sp_status : status s = StCancel;
  sp_pc : unfinished (pc s);
  sp_queue : qJobs s = [];
  sp_parts : parts s = ps;
  sp_ctl : Forall (λ t, Task.controller t ∈ abortedCtl s) (chunkTasks s);
  sp_signal :
    ∀ p inv sig, invs s !! p = Some inv → stage inv = SPut sig →
      sig ∈ abortedCtl s;
}.

(** ** Tasks in transfer *)

(** The tasks whose transfer [pause] aborts. *)
Definition runningTasks (s : Session) : list Task.t :=
  filter (λ t, Task.status t = TRunning) (chunkTasks s).

(** ** Rounds of the poller that go on *)

(** The merge-status responses [rs], each followed by the timer of the
    pause that the poller takes after it. *)
Definition poll_waits (rs : list CheckData) : list Input :=
  rs ≫= λ d, [CheckReply (Resp 0 "ok" d); PollTimer].

(** What the session logs when a status check at round [n] finds the
    merge complete. *)
Definition merged_log (s : Session) (ctx : Ctx) (n : Z) : list Action :=
  [Emit (EDebug (DbgMerged n));
   Emit (progressEvent PhComplete (1, 1) (size s) (size s) XNone);
   Emit (ECompleted (completedInfo ctx s))].

(** ** A chunk pass that nothing disturbs *)

(** An input that brings good news to the chunk pass: a read of a file
    that is there, a URL response with code 0, a progress report, a
    transfer that got its response. *)
Definition succeeds (i : Input) : bool :=
  match i with
  | ReadDone _ (Bytes _) | UrlReply _ (Resp 0 _ _) | PutProgress _ _
  | PutDone _ None => true
  | _ => false
  end.

Definition puts (i : Input) : nat :=
  match i with
  | PutDone _ _ => 1
  | _ => 0
  end.

(** The transfers that have settled along [ins]. *)
Definition transferred (ins : list Input) : nat := sum_list (puts <$> ins).

(** A queue that no control call and no failure for good has disturbed,
    in a session of configuration [c] with [n] tasks, of which the parts
    up to [m] have been added and [j] are queued or in progress: the queue
    is open, no controller is aborted, a job waits in the queue only while
    [concurrency] activations are in progress, and every activation in
    progress is as [P] says. *)
Record flowing (P : nat → Invocation → Prop) (c : Config) (n m j : nat)
    (s : Session) : Prop := Flowing {
  fl_cfg : cfg s = c;
  fl_status : status s = StRunning;
  fl_open : qPaused s = false;
  fl_clean : abortedCtl s = ∅;
  fl_tasks : length (chunkTasks s) = n;
  fl_ranges :
    Forall (λ t, 0 ≤ Task.start t ∧ 0 < Task.chunkSize t) (chunkTasks s);
  fl_balance : (base.size (invs s) + length (qJobs s))%nat = j;
  fl_bound : pending s ≤ concurrency (options c);
  fl_full : qJobs s ≠ [] → pending s = concurrency (options c);
  fl_nodup : NoDup (qJobs s);
  fl_apart : ∀ p, p ∈ qJobs s → invs s !! p = None;
  fl_keys : ∀ p, is_Some (invs s !! p) ∨ p ∈ qJobs s → (1 ≤ p ≤ m)%nat;
  fl_stage : ∀ p inv, invs s !! p = Some inv → P p inv;
}.

(** An activation that does not wait for a retry. *)
Definition calm (p : nat) (inv : Invocation) : Prop := stage inv ≠ SRetry.

(** The chunk pass of a session that nothing has disturbed, with [k] of
    the [n] chunks transferred and the activations in progress as [P]
    says: [upload] awaits the chunk pass while chunks are left, and has
    issued the completion request when none is. *)
Record passing (P : nat → Invocation → Prop) (c : Config) (ctx : Ctx)
    (n k : nat) (s : Session) : Prop := Passing {
  ps_flowing : flowing P c n n (n - k) s;
  ps_done : (k ≤ n)%nat;
  ps_listening : listening s = true;
  ps_total : totalChunks s = Z.of_nat n;
  ps_parts : length (parts s) = k;
  ps_pc : pc s = if decide (k = n) then PcFinish ctx else PcChunks ctx None;
  ps_asked :
    k = n → last (log s) = Some (Call (ReqFinish (ctxPreuploadID ctx)));
}.

(** The good news that an activation at stage [st] of part [p] waits
    for. *)
Definition good_news (p : nat) (st : Stage) : Input :=
  match st with
  | SRead => ReadDone p (Bytes [])
  | SUrl _ => UrlReply p urlReply
  | SPut _ => PutDone p None
  | SRetry => RetryTimer p
  end.

(** Three chunks served in an order of their own. *)
Definition interleaved : list Input :=
  [ReadDone 2 exampleFile; ReadDone 1 exampleFile; UrlReply 2 urlReply;
   PutProgress 2 4; PutDone 2 None; UrlReply 1 urlReply;
   ReadDone 3 exampleFile; UrlReply 3 urlReply; PutDone 3 None;
   PutDone 1 None].

(** ** Failures within the retries *)

(** The part whose attempt an input fails otherwise than by cancellation:
    a read that finds no file or may not open it, a request for the
    destination that is rejected or answered with a non-zero code, a
    transfer that is rejected with an error. *)
Definition failure_of (i : Input) : option nat :=
  match i with
  | ReadDone p NoEntry | ReadDone p NoAccess => Some p
  | UrlReply p (Resp 0 _ _) => None
  | UrlReply p _ => Some p
  | PutDone p (Some (Err _)) => Some p
  | _ => None
  end.

(** News to the chunk pass, good or bad: the good news, the failures of
    attempts, and the timers of the pauses before the retries. *)
Definition chunk_news (i : Input) : bool :=
  match i with
  | RetryTimer _ => true
  | _ => succeeds i || bool_decide (is_Some (failure_of i))
  end.

Definition fails_part (p : nat) (i : Input) : nat :=
  if decide (failure_of i = Some p) then 1 else 0.

(** The attempts of part [p] that fail along [ins]. *)
Definition failures (p : nat) (ins : list Input) : nat :=
  sum_list (fails_part p <$> ins).

Definition delivers (i : Input) : nat :=
  match i with
  | PutDone _ None => 1
  | _ => 0
  end.

(** The transfers that have got their response along [ins]. *)
Definition delivered (ins : list Input) : nat :=
  sum_list (delivers <$> ins).

(** The attempts that have failed in an activation of [uploadChunk] and
    the activations it continues: [retryCount] of them, and one more
    while it pauses before the next. *)
Definition failed_attempts (inv : Invocation) : Z :=
  match stage inv with
  | SRetry => retryCount inv + 1
  | _ => retryCount inv
  end.

(** The activation for part [p] has [b p] failures before it and stays
    within [retryTimes] with them. *)
Definition within (c : Config) (b : nat → nat) (p : nat) (inv : Invocation)
    : Prop :=
  0 ≤ retryCount inv
  ∧ failed_attempts inv + Z.of_nat (b p) ≤ Z.max 0 (retryTimes (options c)).

(** The scenario of the specification: of three chunks the second fails
    twice and succeeds at the third attempt. *)
Definition secondFailsTwice : list Input :=
  transfers 1 ++ transfers 3 ++ (twoFailures ≫= retry_inputs 2)
    ++ transfers 2.

(** * Properties *)

(** Projections of updated sessions, computed without unfolding anything
    else. *)
Ltac session_cbv :=
  cbv beta iota delta
    [set_status set_chunkSize set_progress set_chunkTasks set_qPaused
     set_qJobs set_invs set_listening set_parts set_totalChunks set_pc
     set_abortedCtl set_nextCtl set_log
     cfg size status chunkSize progress chunkTasks qPaused qJobs invs
     listening parts totalChunks pc abortedCtl nextCtl log
     emit call sleep].

(** The same a setter at a time, in the goal and in the hypotheses;
    projections of a session that is a variable stay as they are. *)
Ltac proj_cbn :=
  cbn [set_status set_chunkSize set_progress set_chunkTasks set_qPaused
       set_qJobs set_invs set_listening set_parts set_totalChunks set_pc
       set_abortedCtl set_nextCtl set_log
       cfg size status chunkSize progress chunkTasks qPaused qJobs invs
       listening parts totalChunks pc abortedCtl nextCtl log
       emit call sleep] in *.

(** ** The constructor *)

(** The constructor builds an uploader for a [concurrency] of at least 1
    and a file whose size it can ask for, and throws otherwise. *)
Lemma construct_builds (c : Config) (stat : Exn + Z) (s : Session) :
  construct c stat = inr s ↔
  1 ≤ concurrency (options c) ∧ ∃ sz, stat = inr sz ∧ s = newUploader c sz.
Proof.
  unfold construct. case_decide as Hc.
  - split; [done|]. intros [H _]. lia.
  - destruct stat as [e|sz].
    + split; [done|]. by intros [_ (sz & H & _)].
    + split.
      * intros [= <-]. split; [lia|by eexists].
      * by intros [_ (sz' & [= <-] & ->)].
Qed.

(** ** The chunk planner *)

Section planner_facts.
Context (size sliceSize : Z) (uid : string) (ctl0 : nat).
Hypothesis Hsize : 0 ≤ size.
Hypothesis Hslice : 0 < sliceSize.

Lemma ceil_div_bounds :
  sliceSize * (ceil_div size sliceSize - 1) < size ≤
    sliceSize * ceil_div size sliceSize.
Proof.
  unfold ceil_div.
  pose proof (Z.div_mod (- size) sliceSize ltac:(lia)) as Hdm.
  pose proof (Z.mod_pos_bound (- size) sliceSize Hslice) as Hb.
  nia.
Qed.

Lemma ceil_div_nonneg : 0 ≤ ceil_div size sliceSize.
Proof. pose proof ceil_div_bounds. nia. Qed.

Lemma chunkPlan_length :
  Z.of_nat (length (chunkPlan size sliceSize uid ctl0)) =
    ceil_div size sliceSize.
Proof.
  unfold chunkPlan, planTasks.
  rewrite length_fmap, length_seq.
  pose proof ceil_div_nonneg. lia.
Qed.

Lemma chunkPlan_lookup (i : nat) (t : Task.t) :
  chunkPlan size sliceSize uid ctl0 !! i = Some t →
  t = planTask size sliceSize uid (ceil_div size sliceSize) (ctl0 + i)%nat i
  ∧ Z.of_nat i < ceil_div size sliceSize.
Proof.
  unfold chunkPlan, planTasks. intros H.
  apply list_lookup_fmap_Some in H as (j & -> & Hj).
  apply lookup_seq in Hj as [-> Hlt]. simpl.
  split; [done|]. pose proof ceil_div_nonneg. lia.
Qed.

Lemma chunkPlan_lookup_lt (i : nat) :
  Z.of_nat i < ceil_div size sliceSize →
  chunkPlan size sliceSize uid ctl0 !! i =
    Some (planTask size sliceSize uid (ceil_div size sliceSize)
            (ctl0 + i)%nat i).
Proof.
  intros Hlt. unfold chunkPlan, planTasks.
  apply list_lookup_fmap_Some. exists i. split; [done|].
  apply lookup_seq. split; [done|lia].
Qed.

(** Every chunk but the last is a full slice; the last one ends at
    [size]. *)
Lemma planTask_chunkSize (i : nat) n c :
  Z.of_nat i < ceil_div size sliceSize →
  Task.chunkSize (planTask size sliceSize uid n c i) =
    if decide (Z.of_nat i + 1 = ceil_div size sliceSize)
    then size - Z.of_nat i * sliceSize else sliceSize.
Proof.
  intros Hlt. pose proof ceil_div_bounds as Hb. simpl.
  case_decide; nia.
Qed.

Lemma planTask_covers (i : nat) n c b :
  Z.of_nat i < ceil_div size sliceSize →
  covers (planTask size sliceSize uid n c i) b ↔
  0 ≤ b < size ∧ Z.of_nat i = b / sliceSize.
Proof.
  intros Hlt. unfold covers.
  rewrite planTask_chunkSize by done.
  pose proof ceil_div_bounds as Hb. simpl.
  split.
  - intros [H1 H2].
    assert (Hr : 0 ≤ b - Z.of_nat i * sliceSize < sliceSize)
      by (case_decide; nia).
    split; [case_decide; nia|].
    apply (Z.div_unique b sliceSize (Z.of_nat i)
             (b - Z.of_nat i * sliceSize)); lia.
  - intros [H1 H2].
    pose proof (Z.div_mod b sliceSize ltac:(lia)) as Hdm.
    pose proof (Z.mod_pos_bound b sliceSize Hslice) as Hm.
    rewrite <- H2 in Hdm. case_decide; nia.
Qed.

Lemma last_chunk_remainder :
  0 < size →
  size - (ceil_div size sliceSize - 1) * sliceSize =
    if decide (size `mod` sliceSize = 0) then sliceSize
    else size `mod` sliceSize.
Proof.
  intros Hpos. pose proof ceil_div_bounds as Hb.
  pose proof (Z.div_mod size sliceSize ltac:(lia)) as Hdm.
  pose proof (Z.mod_pos_bound size sliceSize Hslice) as Hm.
  set (n := ceil_div size sliceSize) in *.
  set (q := size / sliceSize) in *.
  set (r := size `mod` sliceSize) in *.
  assert (Hq1 : n - 1 ≤ q) by nia.
  assert (Hq2 : q ≤ n) by nia.
  case_decide.
  - assert (q = n) by nia. subst q. nia.
  - assert (q = n - 1) by nia. nia.
Qed.
End planner_facts.

(** C1. For a size [>= 0] and a slice size [> 0] the plan has
    [ceil(size / sliceSize)] tasks (the count [n] with
    [sliceSize * (n - 1) < size <= sliceSize * n]); the task at position
    [i] has the 1-based part number [i + 1]; every task is non-empty, the
    first one starts at offset 0, each next one starts where its
    predecessor ends, and the last one ends at [size]; every offset of
    [0, size) lies in the range of exactly one task and no range leaves
    [0, size); and the last task has length [size mod sliceSize], or
    [sliceSize] when that remainder is zero. *)
Theorem chunk_plan_tiles (size sliceSize : Z) (uid : string) (ctl0 : nat) :
  0 ≤ size → 0 < sliceSize →
  let plan := chunkPlan size sliceSize uid ctl0 in
  let n := ceil_div size sliceSize in
  (Z.of_nat (length plan) = n ∧ sliceSize * (n - 1) < size ≤ sliceSize * n)
  ∧ (∀ i t, plan !! i = Some t → partNumber t = S i)
  ∧ (∀ i t, plan !! i = Some t → 0 < Task.chunkSize t)
  ∧ (∀ t, plan !! 0%nat = Some t → Task.start t = 0)
  ∧ (∀ i t u, plan !! i = Some t → plan !! S i = Some u →
       Task.start u = Task.start t + Task.chunkSize t)
  ∧ (∀ t, last plan = Some t → Task.start t + Task.chunkSize t = size)
  ∧ (∀ b, 0 ≤ b < size →
       ∃ i t, plan !! i = Some t ∧ covers t b
         ∧ ∀ j u, plan !! j = Some u → covers u b → j = i)
  ∧ (∀ i t b, plan !! i = Some t → covers t b → 0 ≤ b < size)
  ∧ (∀ t, last plan = Some t →
       Task.chunkSize t =
         if decide (size `mod` sliceSize = 0) then sliceSize
         else size `mod` sliceSize).
Proof.
  intros Hsize Hslice plan n.
  pose proof (ceil_div_bounds size sliceSize Hslice) as Hb.
  pose proof (chunkPlan_length size sliceSize uid ctl0 Hsize Hslice) as Hlen.
  fold plan n in Hlen, Hb.
  assert (Hlast : ∀ t, last plan = Some t →
            t = planTask size sliceSize uid n (ctl0 + Z.to_nat (n - 1))%nat
                  (Z.to_nat (n - 1)) ∧ 0 < n).
  { intros t Ht. rewrite last_lookup in Ht.
    assert (0 < n).
    { destruct (decide (0 < n)); [done|].
      apply lookup_lt_Some in Ht. lia. }
    replace (pred (length plan)) with (Z.to_nat (n - 1)) in Ht by lia.
    apply chunkPlan_lookup in Ht as [-> _]; done. }
  split_and!.
  - done.
  - lia.
  - lia.
  - intros i t Ht. apply chunkPlan_lookup in Ht as [-> _]; done.
  - intros i t Ht. apply chunkPlan_lookup in Ht as [-> Hlt]; [|done..].
    rewrite planTask_chunkSize by done. fold n. case_decide; nia.
  - intros t Ht. apply chunkPlan_lookup in Ht as [-> _]; [|done..].
    simpl. lia.
  - intros i t u Ht Hu.
    apply chunkPlan_lookup in Ht as [-> Hlt]; [|done..].
    apply chunkPlan_lookup in Hu as [-> Hlu]; [|done..].
    rewrite planTask_chunkSize by done. fold n in Hlu |- *.
    simpl. case_decide; lia.
  - intros t Ht. apply Hlast in Ht as [-> Hn].
    rewrite planTask_chunkSize by (fold n; lia). fold n. simpl.
    case_decide; lia.
  - intros b Hbr.
    pose proof (Z.div_mod b sliceSize ltac:(lia)) as Hdm.
    pose proof (Z.mod_pos_bound b sliceSize Hslice) as Hm.
    assert (Hi : Z.of_nat (Z.to_nat (b / sliceSize)) < n) by nia.
    exists (Z.to_nat (b / sliceSize)), (planTask size sliceSize uid n
      (ctl0 + Z.to_nat (b / sliceSize))%nat (Z.to_nat (b / sliceSize))).
    split; [by apply chunkPlan_lookup_lt|].
    split.
    + apply planTask_covers; [done..|]. split; [done|]. nia.
    + intros j u Hu Hc.
      apply chunkPlan_lookup in Hu as [-> Hlt]; [|done..].
      apply planTask_covers in Hc as [_ Hj]; [|done..]. lia.
  - intros i t b Ht Hc.
    apply chunkPlan_lookup in Ht as [-> Hlt]; [|done..].
    apply planTask_covers in Hc as [Hc _]; done.
  - intros t Ht. apply Hlast in Ht as [-> Hn].
    rewrite planTask_chunkSize by (fold n; lia). fold n.
    rewrite decide_True by lia.
    pose proof (last_chunk_remainder size sliceSize Hslice) as Hr.
    fold n in Hr. clear Hlast Hlen. clearbody n plan.
    assert (0 ≤ sliceSize * (n - 1)) by (apply Z.mul_nonneg_nonneg; lia).
    rewrite <- Hr by lia. rewrite Z2Nat.id by lia. done.
Qed.

Lemma chunk_plan_tiles_witness :
  last (chunkPlan 10 4 "P1" 0) =
    Some (planTask 10 4 "P1" 3 2%nat 2%nat) ∧
  Task.chunkSize (planTask 10 4 "P1" 3 2%nat 2%nat) = 2.
Proof.
  split; [reflexivity|].
  pose proof (chunk_plan_tiles 10 4 "P1" 0%nat ltac:(lia) ltac:(lia)) as H.
  simpl in H.
  destruct H as (_ & _ & _ & _ & _ & _ & _ & _ & H).
  exact (H _ eq_refl).
Defined.

(** The scenario of the specification: 10 MB in slices of 4 MB are three
    chunks of 4 MB, 4 MB and 2 MB. *)
Lemma ten_megabytes_in_three_chunks :
  (λ t, (partNumber t, Task.start t, Task.chunkSize t)) <$>
    chunkPlan (10 * 1024 * 1024) (4 * 1024 * 1024) "P1" 0
  = [(1%nat, 0, 4 * 1024 * 1024);
     (2%nat, 4 * 1024 * 1024, 4 * 1024 * 1024);
     (3%nat, 8 * 1024 * 1024, 2 * 1024 * 1024)].
Proof. vm_compute. reflexivity. Qed.

(** ** The chunk reader *)

Lemma bursts_concat (fuel hwm : nat) (l : list Byte.byte) :
  (0 < hwm)%nat → (length l ≤ fuel)%nat → concat (bursts fuel hwm l) = l.
Proof.
  intros Hh. revert l.
  induction fuel as [|fuel IH]; intros l Hl.
  - destruct l; [done|simpl in Hl; lia].
  - destruct l as [|b l]; [done|].
    cbn [bursts concat]. rewrite IH.
    + apply take_drop.
    + rewrite length_drop. simpl in *. lia.
Qed.

Lemma readChunk_listen_data (bs cs : list (list Byte.byte)) (tl : Z) :
  readChunk_listen ((SData <$> bs) ++ [SEnd]) cs tl =
    Some (inr (buffer_concat (cs ++ bs)
                 (tl + Z.of_nat (length (concat bs))))).
Proof.
  revert cs tl. induction bs as [|b bs IH]; intros cs tl; simpl.
  - by rewrite app_nil_r, Z.add_0_r.
  - rewrite IH. rewrite <- app_assoc. simpl.
    rewrite length_app. do 3 f_equal. lia.
Qed.

Lemma buffer_concat_exact (cs : list (list Byte.byte)) :
  buffer_concat cs (Z.of_nat (length (concat cs))) = concat cs.
Proof.
  unfold buffer_concat. rewrite Nat2Z.id.
  rewrite firstn_all, Nat.sub_diag. simpl. apply app_nil_r.
Qed.

(** The stream delivers the part of the requested range that the file
    has. *)
Lemma readChunk_bytes (content : list Byte.byte) (start len : Z) :
  0 ≤ start → 0 < len →
  readChunk (Bytes content) start len =
    Some (inr (take (Z.to_nat len) (drop (Z.to_nat start) content))).
Proof.
  intros Hs Hl. unfold readChunk, createReadStream.
  rewrite decide_False by lia. cbv zeta.
  rewrite readChunk_listen_data.
  replace (start + len - 1 - start + 1) with len by lia.
  rewrite app_nil_l, Z.add_0_l, buffer_concat_exact.
  rewrite bursts_concat; [done|lia|done].
Qed.

(** C8, counterexample: on a file of three bytes a read of five bytes from
    offset 0 returns the three bytes instead of failing. *)
Lemma readChunk_short_file_returns_fewer :
  readChunk (Bytes [Byte.x01; Byte.x02; Byte.x03]) 0 5 =
    Some (inr [Byte.x01; Byte.x02; Byte.x03])
  ∧ ¬ exact_or_error (Bytes [Byte.x01; Byte.x02; Byte.x03]) 0 5.
Proof.
  split; [reflexivity|].
  unfold exact_or_error.
  replace (readChunk (Bytes [Byte.x01; Byte.x02; Byte.x03]) 0 5)
    with (Some (inr [Byte.x01; Byte.x02; Byte.x03])
            : option (Exn + list Byte.byte)) by reflexivity.
  simpl. lia.
Qed.

(** C8, amended. For an offset [>= 0] and a length [> 0], the read fails
    with a read error when the file is missing or access is denied, and
    otherwise returns, as one contiguous buffer, the bytes of the file
    from [start] up to [start + len] or to the end of the file, whichever
    comes first: exactly [len] bytes when the file has [start + len] bytes,
    and fewer (without failing) when it is shorter. *)
Theorem readChunk_returns_available_range (f : FileEntry) (start len : Z) :
  0 ≤ start → 0 < len →
  match f with
  | Bytes content =>
      let data := take (Z.to_nat len) (drop (Z.to_nat start) content) in
      readChunk f start len = Some (inr data)
      ∧ Z.of_nat (length data) =
          Z.min len (Z.max 0 (Z.of_nat (length content) - start))
      ∧ (start + len ≤ Z.of_nat (length content) →
         Z.of_nat (length data) = len)
  | NoEntry | NoAccess =>
      ∃ m, readChunk f start len = Some (inl (Err ("读取文件失败: " +:+ m)))
  end.
Proof.
  intros Hs Hl. destruct f as [| |content].
  - eexists. unfold readChunk, createReadStream.
    rewrite decide_False by lia. reflexivity.
  - eexists. unfold readChunk, createReadStream.
    rewrite decide_False by lia. reflexivity.
  - intros data. split_and!.
    + by apply readChunk_bytes.
    + unfold data. rewrite length_take, length_drop. lia.
    + intros Hlen. unfold data. rewrite length_take, length_drop. lia.
Qed.

Lemma readChunk_returns_available_range_witness :
  Z.of_nat (length (take (Z.to_nat 2) (drop (Z.to_nat 1)
     [Byte.x01; Byte.x02; Byte.x03]))) = 2.
Proof.
  pose proof (readChunk_returns_available_range
    (Bytes [Byte.x01; Byte.x02; Byte.x03]) 1 2 ltac:(lia) ltac:(lia)) as H.
  simpl in H. destruct H as (_ & _ & H). apply H. lia.
Defined.

(** ** Terminal statuses and the control calls *)

Lemma pause_not_running (s : Session) : status s ≠ StRunning → pause s = s.
Proof. intros H. unfold pause. by rewrite decide_True. Qed.

Lemma resume_not_paused (s : Session) : status s ≠ StPaused → resume s = s.
Proof. intros H. unfold resume. by rewrite decide_True. Qed.

Lemma cancel_twice (s : Session) : cancel (cancel s) = emit ECancel (cancel s).
Proof.
  unfold cancel, taskClear. session_cbv. f_equal.
  by rewrite <- (assoc_L (∪)), (idemp_L (∪)).
Qed.

(** C2, counterexample: a session that has completed is moved to [cancel]
    by [cancel()], and a second [cancel()] emits a second [cancel] event. *)
Lemma cancel_leaves_completed_and_repeats_event :
  status <$> run (newUploader exampleConfig 10) (created true) =
    Some StCompleted
  ∧ status <$> run (newUploader exampleConfig 10)
                 (created true ++ [CallCancel]) = Some StCancel
  ∧ cancelEvents ∘ log <$> run (newUploader exampleConfig 10)
      (created true ++ [CallCancel; CallCancel]) = Some 2%nat.
Proof. split_and!; vm_compute; reflexivity. Qed.

(** C2, amended. [pause()] and [resume()] leave a session with a terminal
    status as it is.  [cancel()] is not guarded: from every status, the
    terminal ones included, it sets the status to [cancel] and emits one
    [cancel] event, so that a second [cancel()] changes nothing but the
    log, to which it adds a second [cancel] event.  [upload()] sets the
    status to [running] when it is entered. *)
Theorem terminal_status_under_control_calls (s : Session) :
  (terminal (status s) → pause s = s ∧ resume s = s)
  ∧ status (cancel s) = StCancel
  ∧ log (cancel s) = log s ++ [Emit ECancel]
  ∧ cancel (cancel s) = emit ECancel (cancel s)
  ∧ ∀ tgt, status (upload_start tgt s).1 = StRunning.
Proof.
  split_and!.
  - intros [H|[H|H]]; split;
      (apply pause_not_running || apply resume_not_paused); congruence.
  - done.
  - done.
  - apply cancel_twice.
  - done.
Qed.

Lemma terminal_status_under_control_calls_witness :
  let s := set_status StCompleted (newUploader exampleConfig 10) in
  pause s = s ∧ resume s = s.
Proof.
  intros s.
  apply (terminal_status_under_control_calls s).
  left. reflexivity.
Defined.

(** ** Exceptions inside [upload] *)

Lemma handle_upload_resume (s : Session) (i : Input) r :
  upload_resume s i = Some r → handle s i = Some (upload_settle r).
Proof.
  intros H. destruct i; simpl in *; try (by rewrite H);
    destruct (pc s); discriminate.
Qed.

Lemma upload_catch_not_cancel (e : Exn) (s : Session) :
  status s ≠ StCancel → errorListener (cfg s) = true →
  status (upload_catch e s) = StError
  ∧ log (upload_catch e s) = log s ++ [Emit (EError e)]
  ∧ pc (upload_catch e s) = PcDone (Rejected e).
Proof.
  intros H Hl. unfold upload_catch. by rewrite decide_False, Hl.
Qed.

(** Nobody listens for [error]: [emit] throws, and the status is left as
    it is. *)
Lemma upload_catch_unheard (e : Exn) (s : Session) :
  status s ≠ StCancel → errorListener (cfg s) = false →
  status (upload_catch e s) = status s
  ∧ log (upload_catch e s) = log s
  ∧ pc (upload_catch e s) = PcDone (Rejected e).
Proof.
  intros H Hl. unfold upload_catch. by rewrite decide_False, Hl.
Qed.

Lemma upload_catch_cancel (e : Exn) (s : Session) :
  status s = StCancel →
  status (upload_catch e s) = StCancel
  ∧ log (upload_catch e s) = log s
  ∧ pc (upload_catch e s) = PcDone (Resolved None).
Proof. intros H. unfold upload_catch. by rewrite decide_True. Qed.

Lemma flush_done (s : Session) r : pc s = PcDone r → flush s = s.
Proof. intros H. unfold flush. by rewrite H. Qed.

Lemma upload_catch_pc (e : Exn) (s : Session) :
  ∃ r, pc (upload_catch e s) = PcDone r.
Proof. unfold upload_catch. case_decide; [|case_match]; eauto. Qed.

(** C5. Whenever a stretch of the body of [upload] ends in an exception
    [e] -- after the await that an input settled, or after the promise of
    the chunk pass settled -- with the session then being [s1]:
    - if the status of [s1] is not [cancel] and a listener for [error] is
      registered, the session emits the [error] event for [e], its status
      becomes [error] and the promise of [upload] is rejected with [e];
    - if the status of [s1] is not [cancel] and nobody listens for
      [error], the promise of [upload] is rejected with [e] all the same,
      but no event goes out and the status stays what it was: [emit]
      throws before the assignment of the status;
    - if the status of [s1] is [cancel], nothing is emitted, the status
      stays [cancel] and the promise resolves to [undefined]. *)
Theorem upload_exception_handling :
  (∀ s i s1 e, upload_resume s i = Some (s1, Throw e) →
     ∃ s', step s i = Some s'
       ∧ (status s1 ≠ StCancel → errorListener (cfg s1) = true →
            status s' = StError ∧ log s' = log s1 ++ [Emit (EError e)]
            ∧ pc s' = PcDone (Rejected e))
       ∧ (status s1 ≠ StCancel → errorListener (cfg s1) = false →
            status s' = status s1 ∧ log s' = log s1
            ∧ pc s' = PcDone (Rejected e))
       ∧ (status s1 = StCancel →
            status s' = StCancel ∧ log s' = log s1
            ∧ pc s' = PcDone (Resolved None)))
  ∧ (∀ s ctx r s1 e, pc s = PcChunks ctx (Some r) →
       upload_after_chunks ctx r s = (s1, Throw e) →
       (status s1 ≠ StCancel → errorListener (cfg s1) = true →
          status (flush s) = StError
          ∧ log (flush s) = log s1 ++ [Emit (EError e)]
          ∧ pc (flush s) = PcDone (Rejected e))
       ∧ (status s1 ≠ StCancel → errorListener (cfg s1) = false →
            status (flush s) = status s1 ∧ log (flush s) = log s1
            ∧ pc (flush s) = PcDone (Rejected e))
       ∧ (status s1 = StCancel →
            status (flush s) = StCancel ∧ log (flush s) = log s1
            ∧ pc (flush s) = PcDone (Resolved None))).
Proof.
  split.
  - intros s i s1 e H.
    exists (upload_catch e s1). split.
    + unfold step. rewrite (handle_upload_resume _ _ _ H). simpl.
      destruct (upload_catch_pc e s1) as [r Hr].
      by rewrite (flush_done _ _ Hr).
    + split_and!; [apply upload_catch_not_cancel|apply upload_catch_unheard
                  |apply upload_catch_cancel].
  - intros s ctx r s1 e Hpc H.
    unfold flush. rewrite Hpc, H. simpl.
    split_and!; [apply upload_catch_not_cancel|apply upload_catch_unheard
                |apply upload_catch_cancel].
Qed.

(** The create-task request fails on an uploader on which nobody listens
    for [error], and on one with a listener. *)
Lemma upload_exception_handling_witness :
  (∃ s s', run (newUploader silentConfig 10)
             [CallUpload None; Md5Done (inr "etag")] = Some s
     ∧ step s (CreateReply (NetErr "ECONNREFUSED")) = Some s'
     ∧ status s' = StRunning
     ∧ pc s' = PcDone (Rejected (Err "创建上传任务失败: ECONNREFUSED")))
  ∧ (∃ s s', run (newUploader exampleConfig 10)
               [CallUpload None; Md5Done (inr "etag")] = Some s
       ∧ step s (CreateReply (NetErr "ECONNREFUSED")) = Some s'
       ∧ status s' = StError
       ∧ pc s' = PcDone (Rejected (Err "创建上传任务失败: ECONNREFUSED"))).
Proof.
  split.
  - set (s := default (newUploader silentConfig 10)
                (run (newUploader silentConfig 10)
                   [CallUpload None; Md5Done (inr "etag")])).
    destruct (proj1 upload_exception_handling s
      (CreateReply (NetErr "ECONNREFUSED"))
      (createUploadTask_catch (Err "ECONNREFUSED") s).1
      (Err "创建上传任务失败: ECONNREFUSED")
      ltac:(vm_compute; reflexivity))
      as (s' & Hs & _ & Hnl & _).
    exists s, s'. split; [vm_compute; reflexivity|]. split; [exact Hs|].
    destruct Hnl as (H1 & _ & H3);
      [vm_compute; discriminate|vm_compute; reflexivity|].
    split; [|exact H3]. rewrite H1. vm_compute. reflexivity.
  - set (s := default (newUploader exampleConfig 10)
                (run (newUploader exampleConfig 10)
                   [CallUpload None; Md5Done (inr "etag")])).
    destruct (proj1 upload_exception_handling s
      (CreateReply (NetErr "ECONNREFUSED"))
      (createUploadTask_catch (Err "ECONNREFUSED") s).1
      (Err "创建上传任务失败: ECONNREFUSED")
      ltac:(vm_compute; reflexivity))
      as (s' & Hs & Hl & _).
    exists s, s'. split; [vm_compute; reflexivity|]. split; [exact Hs|].
    destruct Hl as (H1 & _ & H3);
      [vm_compute; discriminate|vm_compute; reflexivity|].
    split; [exact H1|exact H3].
Defined.

(** ** A file of size zero *)

(** C9. For a file of size 0 the plan is empty, nothing is added to the
    queue and no request is outstanding, so the queue never fires [idle]:
    [upload] stays suspended at the await of the chunk pass, and no input
    other than a call of [pause], [resume] or [cancel] can reach the
    session.  (The [idle] listener would report success for an empty plan:
    a [pause] followed by a [resume], which restarts the queue, lets
    [upload] go on to the completion request.) *)
Theorem zero_size_upload_stays_suspended :
  chunkPlan 0 4 "P1" 0 = []
  ∧ run (newUploader exampleConfig 0) (created false) = Some (afterCreate 0)
  ∧ pc (afterCreate 0) = PcChunks exampleCtx None
  ∧ status (afterCreate 0) = StRunning
  ∧ qJobs (afterCreate 0) = [] ∧ invs (afterCreate 0) = ∅
  ∧ (∀ i, match i with
          | CallPause | CallResume | CallCancel => True
          | _ => step (afterCreate 0) i = None
          end)
  ∧ pc <$> run (afterCreate 0) [CallCancel] = Some (PcChunks exampleCtx None)
  ∧ pc <$> run (afterCreate 0) [CallPause; CallResume] =
      Some (PcFinish exampleCtx).
Proof.
  assert (Hinv : invs (afterCreate 0) = ∅) by (vm_compute; reflexivity).
  assert (Hpc : pc (afterCreate 0) = PcChunks exampleCtx None)
    by (vm_compute; reflexivity).
  split_and!; try (vm_compute; reflexivity); try done.
  intros i. unfold step, handle.
  destruct i; try done;
    try (rewrite Hinv, lookup_empty; done);
    unfold upload_resume; by rewrite Hpc.
Qed.

(** ** Pause and resume *)

(** C4, on a file of one chunk.  Uninterrupted, [upload] resolves with
    file id "F1".  With [pause()] and [resume()] called one right after the
    other while the chunk is in transfer, the transfer is aborted but the
    task is not yet marked as aborted when [resume] looks for aborted
    tasks, so it is never re-submitted, and [upload] fails.  With the
    abort delivered between the two calls, the queue falls idle while
    paused and [upload] resolves to [undefined]; [resume] then re-submits
    the task with a fresh controller and the chunk is transferred, but the
    completion request is never issued. *)
Theorem pause_resume_loses_the_upload :
  let start := created false ++ [ReadDone 1 exampleFile; UrlReply 1 urlReply] in
  pc <$> run (newUploader exampleConfig 3)
      (start ++ [PutDone 1 None; FinishReply (finishReply false true)])
    = Some (PcDone (Resolved (Some
        {| fileId := "F1"; filename := "video.mp4" |})))
  ∧ (λ s, (status s, pc s, Task.status <$> chunkTasks s, qJobs s)) <$>
      run (newUploader exampleConfig 3)
        (start ++ [CallPause; CallResume; PutDone 1 (Some Canceled)])
    = Some (StError, PcDone (Rejected (Err "上传失败")), [TAbort], [])
  ∧ (λ s, (status s, pc s, Task.status <$> chunkTasks s)) <$>
      run (newUploader exampleConfig 3)
        (start ++ [CallPause; PutDone 1 (Some Canceled)])
    = Some (StPaused, PcDone (Resolved None), [TAbort])
  ∧ (λ s, (status s, pc s, Task.controller <$> chunkTasks s,
           bool_decide (1%nat ∈ abortedCtl s),
           List.filter is_finish_call (log s))) <$>
      run (newUploader exampleConfig 3)
        (start ++ [CallPause; PutDone 1 (Some Canceled); CallResume]
           ++ transfers 1)
    = Some (StRunning, PcDone (Resolved None), [1%nat], false, []).
Proof. split_and!; vm_compute; reflexivity. Qed.

Lemma resolve_chunks_status b s : status (resolve_chunks b s) = status s.
Proof. unfold resolve_chunks. by repeat case_match. Qed.

Lemma idle_listener_status s : status (idle_listener s) = status s.
Proof.
  unfold idle_listener. repeat case_match; by rewrite ?resolve_chunks_status.
Qed.

Lemma uploadChunk_enter_status p r s :
  status (uploadChunk_enter p r s) = status s.
Proof. unfold uploadChunk_enter. by case_match. Qed.

Lemma tryToStartAnother_status s : status (tryToStartAnother s).1 = status s.
Proof.
  unfold tryToStartAnother. repeat case_match; simpl;
    by rewrite ?idle_listener_status, ?uploadChunk_enter_status.
Qed.

Lemma processQueue_status fuel s : status (processQueue fuel s) = status s.
Proof.
  revert s. induction fuel as [|fuel IH]; intros s; simpl; [done|].
  pose proof (tryToStartAnother_status s) as H.
  destruct (tryToStartAnother s) as [s' [|]]; simpl in H; [|done].
  by rewrite IH.
Qed.

Lemma foldl_resume_task_status l s :
  status (foldl resume_task s l) = status s.
Proof.
  revert s. induction l as [|p l IH]; intros s; simpl; [done|].
  rewrite IH. unfold resume_task, queue_add.
  by rewrite tryToStartAnother_status.
Qed.

(** [resume()] acts only on a paused session, and returns its status to
    [running]. *)
Lemma resume_sets_running s :
  status s = StPaused → status (resume s) = StRunning.
Proof.
  intros H. unfold resume. rewrite decide_False by (rewrite H; auto).
  unfold queue_start. case_match.
  - rewrite processQueue_status.
    exact (foldl_resume_task_status _ (set_status StRunning s)).
  - exact (foldl_resume_task_status _ (set_status StRunning s)).
Qed.

Lemma uploadChunk_enter_qJobs p r s :
  qJobs (uploadChunk_enter p r s) = qJobs s.
Proof. unfold uploadChunk_enter. by case_match. Qed.

(** A job that starts leaves the queue. *)
Lemma tryToStartAnother_started s s' :
  tryToStartAnother s = (s', true) →
  S (length (qJobs s')) = length (qJobs s).
Proof.
  unfold tryToStartAnother. destruct (qJobs s) as [|p rest] eqn:E; [done|].
  case_match; [|done]. intros [= <-].
  by rewrite uploadChunk_enter_qJobs.
Qed.

(** The loop of [queue.start()] ends by itself: with one round more than
    there are queued jobs, further rounds change nothing. *)
Lemma processQueue_fuel (fuel : nat) (s : Session) :
  (length (qJobs s) < fuel)%nat →
  processQueue (S fuel) s = processQueue fuel s.
Proof.
  revert s. induction fuel as [|fuel IH]; intros s Hlt; [lia|].
  cbn [processQueue].
  destruct (tryToStartAnother s) as [s' [|]] eqn:E; [|done].
  apply tryToStartAnother_started in E.
  change (processQueue (S fuel) s' = processQueue fuel s').
  apply IH. lia.
Qed.

Lemma task_at_update_ne (p q : nat) (f : Task.t → Task.t) ts :
  p ≠ q → task_at q (task_update p f ts) = task_at q ts.
Proof.
  intros Hne. destruct p as [|i], q as [|j]; try done. simpl.
  apply list_lookup_alter_ne. congruence.
Qed.

Lemma task_at_update_eq (p : nat) (f : Task.t → Task.t) ts :
  task_at p (task_update p f ts) = f <$> task_at p ts.
Proof.
  destruct p as [|i]; [done|]. simpl. by rewrite list_lookup_alter_eq.
Qed.

(** On a paused queue [add] only enqueues. *)
Lemma queue_add_paused p s :
  qPaused s = true → queue_add p s = set_qJobs (qJobs s ++ [p]) s.
Proof.
  intros Hp. unfold queue_add, tryToStartAnother.
  change (qJobs (set_qJobs (qJobs s ++ [p]) s)) with (qJobs s ++ [p]).
  change (qPaused (set_qJobs (qJobs s ++ [p]) s)) with (qPaused s).
  rewrite Hp. by destruct (qJobs s).
Qed.

Lemma resume_task_paused s p :
  qPaused s = true →
  resume_task s p =
    set_qJobs (qJobs s ++ [p])
      (set_nextCtl (S (nextCtl s))
         (set_chunkTasks
            (task_update p (fresh_controller (nextCtl s)) (chunkTasks s)) s)).
Proof. intros Hp. unfold resume_task. by rewrite queue_add_paused. Qed.

(** The loop of [resume] over the aborted tasks, on a paused queue: every
    task of the list gets the next unused controller and the status
    [pending] and is enqueued; no other task is touched. *)
Lemma foldl_resume_task_paused (l : list nat) (s : Session) :
  qPaused s = true → NoDup l →
  let s1 := foldl resume_task s l in
  qPaused s1 = true
  ∧ qJobs s1 = qJobs s ++ l
  ∧ nextCtl s1 = (nextCtl s + length l)%nat
  ∧ (∀ q, q ∉ l → task_at q (chunkTasks s1) = task_at q (chunkTasks s))
  ∧ (∀ k p, l !! k = Some p →
       task_at p (chunkTasks s1) =
         fresh_controller (nextCtl s + k) <$> task_at p (chunkTasks s)).
Proof.
  revert s. induction l as [|p l IH]; intros s Hp Hnd; simpl.
  { split_and!; try done. by rewrite app_nil_r. }
  apply NoDup_cons in Hnd as [Hpl Hnd].
  rewrite resume_task_paused by done.
  set (s' := set_qJobs _ _).
  destruct (IH s' Hp Hnd) as (H1 & H2 & H3 & H4 & H5).
  split_and!.
  - done.
  - rewrite H2. unfold s'. session_cbv. by rewrite <- app_assoc.
  - rewrite H3. unfold s'. session_cbv. lia.
  - intros q Hq. apply not_elem_of_cons in Hq as [Hqp Hql].
    rewrite H4 by done. unfold s'. session_cbv.
    by apply task_at_update_ne.
  - intros [|k] q Hk; simpl in Hk.
    + injection Hk as <-. rewrite H4 by done.
      unfold s'. session_cbv. rewrite Nat.add_0_r.
      apply task_at_update_eq.
    + rewrite (H5 k q Hk).
      assert (p ≠ q) by (intros ->; apply Hpl; by eapply list_elem_of_lookup_2).
      unfold s'. session_cbv. rewrite task_at_update_ne by done.
      do 2 f_equal. lia.
Qed.

Lemma well_numbered_chunks ts :
  well_numbered ts → Task.chunk <$> ts = seq 0 (length ts).
Proof.
  intros Hw. apply list_eq. intros i. rewrite list_lookup_fmap.
  destruct (ts !! i) as [t|] eqn:E; simpl.
  - rewrite (Hw _ _ E). symmetry. apply lookup_seq.
    split; [done|]. by eapply lookup_lt_Some.
  - symmetry. apply lookup_seq_ge. by apply lookup_ge_None.
Qed.

Lemma abortedTasks_NoDup s :
  well_numbered (chunkTasks s) → NoDup (abortedTasks s).
Proof.
  intros Hw. unfold abortedTasks.
  change partNumber with (S ∘ Task.chunk). rewrite list_fmap_compose.
  apply (NoDup_fmap_2 S).
  eapply sublist_NoDup;
    [|apply fmap_sublist, (sublist_filter _ (chunkTasks s))].
  rewrite well_numbered_chunks by done. apply NoDup_seq.
Qed.

Lemma abortedTasks_spec s p :
  well_numbered (chunkTasks s) →
  p ∈ abortedTasks s ↔
  ∃ t, task_at p (chunkTasks s) = Some t ∧ Task.status t = TAbort.
Proof.
  intros Hw. unfold abortedTasks. rewrite list_elem_of_fmap. split.
  - intros (t & -> & Ht). apply list_elem_of_filter in Ht as [Hst Hin].
    apply list_elem_of_lookup in Hin as [i Hi].
    exists t. split; [|done]. unfold partNumber. rewrite (Hw _ _ Hi).
    done.
  - intros (t & Ht & Hst). destruct p as [|i]; [done|]. simpl in Ht.
    exists t. split.
    + unfold partNumber. by rewrite (Hw _ _ Ht).
    + apply list_elem_of_filter. split; [done|].
      by eapply list_elem_of_lookup_2.
Qed.

(** [resume()] on a paused session whose queue is paused: every task with
    status [abort], and no other, is given a controller that was never
    handed out before and the status [pending], and is appended to the
    queue; then the queue is restarted. *)
Lemma resume_resubmits_aborted (s : Session) :
  status s = StPaused → qPaused s = true → well_numbered (chunkTasks s) →
  let s1 := foldl resume_task (set_status StRunning s) (abortedTasks s) in
  resume s = processQueue (S (length (qJobs s1))) (set_qPaused false s1)
  ∧ qJobs s1 = qJobs s ++ abortedTasks s
  ∧ (∀ p t, task_at p (chunkTasks s) = Some t → Task.status t = TAbort →
       ∃ k, abortedTasks s !! k = Some p
         ∧ task_at p (chunkTasks s1) =
             Some (fresh_controller (nextCtl s + k) t))
  ∧ (∀ p t, task_at p (chunkTasks s) = Some t → Task.status t ≠ TAbort →
       task_at p (chunkTasks s1) = Some t).
Proof.
  intros Hst Hp Hw s1.
  destruct (foldl_resume_task_paused (abortedTasks s)
              (set_status StRunning s) Hp (abortedTasks_NoDup s Hw))
    as (H1 & H2 & H3 & H4 & H5).
  fold s1 in H1, H2, H3, H4, H5. split_and!.
  - unfold resume. rewrite decide_False by (rewrite Hst; auto).
    unfold queue_start.
    change (foldl resume_task (set_status StRunning s)
              (abortedTasks (set_status StRunning s))) with s1.
    by rewrite H1.
  - done.
  - intros p t Ht Ha.
    assert (Hin : p ∈ abortedTasks s) by (apply abortedTasks_spec; eauto).
    apply list_elem_of_lookup in Hin as [k Hk]. exists k. split; [done|].
    rewrite (H5 k p Hk).
    change (chunkTasks (set_status StRunning s)) with (chunkTasks s).
    by rewrite Ht.
  - intros p t Ht Ha. rewrite H4; [done|].
    intros Hin. apply abortedTasks_spec in Hin as (t' & Ht' & Hs'); [|done].
    congruence.
Qed.

(** The tasks that [uploadChunks] plans are numbered by their position. *)
Lemma planTasks_well_numbered sz sl uid n c :
  well_numbered (planTasks sz sl uid n c).
Proof.
  intros i t Ht. unfold planTasks in Ht.
  apply list_lookup_fmap_Some in Ht as (j & -> & Hj).
  by apply lookup_seq in Hj as [-> _].
Qed.

(** ** Retries of a chunk *)

Lemma task_at_update (p : nat) (f : Task.t → Task.t) (ts : list Task.t) :
  task_at p (task_update p f ts) = f <$> task_at p ts.
Proof.
  destruct p as [|i]; [done|]. simpl. by rewrite list_lookup_alter_eq.
Qed.

Lemma task_update_id (p : nat) (f : Task.t → Task.t) (ts : list Task.t) t :
  task_at p ts = Some t → f t = t → task_update p f ts = ts.
Proof.
  destruct p as [|i]; [done|]. simpl. intros Ht Hf.
  apply list_eq. intros j. destruct (decide (i = j)) as [->|Hne].
  - by rewrite list_lookup_alter_eq, Ht; simpl; rewrite Hf.
  - by rewrite list_lookup_alter_ne.
Qed.

Lemma set_status_same (t : Task.t) v :
  Task.status t = v → Task.set_status v t = t.
Proof. destruct t. simpl. by intros ->. Qed.

Lemma flush_flushed (s : Session) : flushed s → flush s = s.
Proof.
  intros H. unfold flush. destruct (pc s) as [| | |ctx [r|]| | | |] eqn:E; try done.
  by destruct (H ctx r).
Qed.

(** One input of the chunk pass, when the activation waits for it. *)
Lemma step_ReadDone (s : Session) p t inv f r :
  invs s !! p = Some inv → task_at p (chunkTasks s) = Some t →
  stage inv = SRead → read_result t f = Some r →
  step s (ReadDone p f) = Some (flush (on_read p t inv r s)).
Proof.
  intros Hi Ht Hs Hr. unfold step, handle. rewrite Hi. simpl.
  rewrite Ht, Hs. simpl. unfold read_result in Hr. by rewrite Hr.
Qed.

Lemma step_UrlReply (s : Session) p t inv data r :
  invs s !! p = Some inv → task_at p (chunkTasks s) = Some t →
  stage inv = SUrl data →
  step s (UrlReply p r) = Some (flush (on_url p t inv data r s)).
Proof.
  intros Hi Ht Hs. unfold step, handle. rewrite Hi. simpl.
  by rewrite Ht, Hs.
Qed.

Lemma step_PutDone (s : Session) p inv sig r :
  invs s !! p = Some inv → stage inv = SPut sig →
  put_settles sig r s = true →
  step s (PutDone p r) = Some (flush (on_put p inv r s)).
Proof.
  intros Hi Hs Hp. unfold step, handle. rewrite Hi. simpl.
  by rewrite Hs, Hp.
Qed.

Lemma step_RetryTimer (s : Session) p inv :
  invs s !! p = Some inv → stage inv = SRetry →
  step s (RetryTimer p) = Some (flush (on_retry_timer p inv s)).
Proof.
  intros Hi Hs. unfold step, handle. rewrite Hi. simpl. by rewrite Hs.
Qed.

Lemma run_app (s : Session) (l1 l2 : list Input) :
  run s (l1 ++ l2) = s' ← run s l1; run s' l2.
Proof.
  revert s. induction l1 as [|i l1 IH]; intros s; simpl; [done|].
  destruct (step s i); simpl; [apply IH|done].
Qed.

Lemma advanced_flushed p inv l s : flushed s → flushed (advanced p inv l s).
Proof. intros H. exact H. Qed.

(** The [catch] clause while retries are left: the pause is scheduled and
    the activation waits for its timer. *)
Lemma uploadChunk_catch_retry (s : Session) p inv e :
  isCancel e = false → retryCount inv < retryTimes (options (cfg s)) →
  uploadChunk_catch p inv e s =
    advanced p {| stage := SRetry; retryCount := retryCount inv |}
      [Sleep (retryDelay (options (cfg s)))] s.
Proof.
  intros Hc Hr. unfold uploadChunk_catch. rewrite Hc.
  rewrite decide_True by done. reflexivity.
Qed.

Lemma readChunk_listen_error evs cs tl e :
  readChunk_listen evs cs tl = Some (inl e) → isCancel e = false.
Proof.
  revert cs tl. induction evs as [|[c| |m] evs IH]; intros cs tl H;
    simpl in H; try (by inversion H); eauto.
Qed.

(** A read is never rejected with the cancellation error. *)
Lemma readChunk_error_not_cancel f a b e :
  readChunk f a b = Some (inl e) → isCancel e = false.
Proof.
  unfold readChunk, createReadStream.
  case_decide; [by intros [= <-]|].
  destruct f; eauto using readChunk_listen_error.
Qed.

Lemma advanced_advanced p inv inv' l l' s :
  advanced p inv' l' (advanced p inv l s) = advanced p inv' (l ++ l') s.
Proof.
  unfold advanced. session_cbv. f_equal.
  - apply insert_insert_eq.
  - by rewrite app_assoc.
Qed.

Lemma standing_advanced s p t inv inv' l :
  standing s p t inv → standing (advanced p inv' l s) p t inv'.
Proof.
  intros (Hf & Ht & Hs & Hi & Hc). split_and!; try done.
  unfold advanced. session_cbv. apply lookup_insert_eq.
Qed.

Section attempt.
Context (s : Session) (p : nat) (t : Task.t) (r : Z).

Lemma read_succeeds f data :
  reading s p t r → read_result t f = Some (inr data) →
  step s (ReadDone p f) =
    Some (advanced p {| stage := SUrl data; retryCount := r |}
            [Call (ReqGetUrl (Task.uploadId t) p)] s).
Proof.
  intros (Hf & Ht & Hs & Hi & Hc) Hr.
  erewrite step_ReadDone by done.
  by rewrite flush_flushed.
Qed.

Lemma read_fails_retry f e :
  reading s p t r → read_result t f = Some (inl e) →
  r < retryTimes (options (cfg s)) →
  step s (ReadDone p f) =
    Some (advanced p {| stage := SRetry; retryCount := r |}
            [Sleep (retryDelay (options (cfg s)))] s).
Proof.
  intros (Hf & Ht & Hs & Hi & Hc) Hr Hlt.
  erewrite step_ReadDone by done. unfold on_read.
  rewrite uploadChunk_catch_retry;
    [|by eapply readChunk_error_not_cancel|done].
  by rewrite flush_flushed.
Qed.

Lemma url_succeeds data msg d :
  standing s p t {| stage := SUrl data; retryCount := r |} →
  step s (UrlReply p (Resp 0 msg d)) =
    Some (advanced p {| stage := SPut (Task.controller t); retryCount := r |}
            [Call (ReqPut (presignedURL d) data (Task.controller t))] s).
Proof.
  intros (Hf & Ht & Hs & Hi & Hc).
  erewrite step_UrlReply by done.
  by rewrite flush_flushed.
Qed.

Lemma url_fails_retry data rep :
  standing s p t {| stage := SUrl data; retryCount := r |} →
  match rep with Resp 0 _ _ => False | _ => True end →
  r < retryTimes (options (cfg s)) →
  step s (UrlReply p rep) =
    Some (advanced p {| stage := SRetry; retryCount := r |}
            [Emit (EDebug (DbgError
                     match rep with
                     | Resp _ msg _ => Err ("获取上传URL失败: " +:+ msg)
                     | NetErr msg => Err msg
                     end "获取上传URL失败"));
             Sleep (retryDelay (options (cfg s)))] s).
Proof.
  intros (Hf & Ht & Hs & Hi & Hc) Hrep Hlt.
  erewrite step_UrlReply by done. unfold on_url.
  destruct rep as [code msg d|msg].
  - rewrite decide_True by (by destruct code).
    unfold getChunkUploadUrl_catch.
    rewrite uploadChunk_catch_retry by done.
    rewrite flush_flushed by done.
    f_equal. unfold advanced. session_cbv. f_equal.
    by rewrite <- app_assoc.
  - unfold getChunkUploadUrl_catch.
    rewrite uploadChunk_catch_retry by done.
    rewrite flush_flushed by done.
    f_equal. unfold advanced. session_cbv. f_equal.
    by rewrite <- app_assoc.
Qed.

Lemma put_fails_retry e :
  standing s p t {| stage := SPut (Task.controller t); retryCount := r |} →
  r < retryTimes (options (cfg s)) →
  step s (PutDone p (Some (Err e))) =
    Some (advanced p {| stage := SRetry; retryCount := r |}
            [Sleep (retryDelay (options (cfg s)))] s).
Proof.
  intros (Hf & Ht & Hs & Hi & Hc) Hlt.
  erewrite step_PutDone; [|done|done|].
  - unfold on_put. rewrite uploadChunk_catch_retry by done.
    by rewrite flush_flushed.
  - unfold put_settles. by apply bool_decide_eq_true.
Qed.

Lemma retry_timer_fires :
  standing s p t {| stage := SRetry; retryCount := r |} →
  step s (RetryTimer p) =
    Some (advanced p {| stage := SRead; retryCount := r + 1 |}
            [Call (ReqRead (filePath (cfg s)) (Task.start t)
                     (Task.chunkSize t))] s).
Proof.
  intros (Hf & Ht & Hs & Hi & Hc).
  erewrite step_RetryTimer by done.
  unfold on_retry_timer, uploadChunk_enter. rewrite Ht.
  rewrite flush_flushed by done.
  f_equal. unfold advanced, set_task_status. session_cbv. f_equal.
  apply (task_update_id _ _ _ t); [done|by apply set_status_same].
Qed.
End attempt.

Lemma reading_advanced s p t inv l r :
  standing s p t inv →
  reading (advanced p {| stage := SRead; retryCount := r |} l s) p t r.
Proof. apply standing_advanced. Qed.

(** One failing attempt and its retry. *)
Lemma retry_round (s : Session) p t r a :
  reading s p t r → fails t a → r < retryTimes (options (cfg s)) →
  run s (retry_inputs p a) =
    Some (advanced p {| stage := SRead; retryCount := r + 1 |}
            (retry_log (cfg s) t p a) s).
Proof.
  intros Hrd Hfail Hlt. unfold retry_inputs, retry_log.
  destruct a as [f|f rep|f msg d e]; simpl in Hfail |- *.
  - destruct Hfail as [e He].
    erewrite read_fails_retry by done. simpl.
    erewrite retry_timer_fires by (by eapply standing_advanced).
    simpl. by rewrite advanced_advanced.
  - destruct Hfail as [[data Hd] Hrep].
    erewrite read_succeeds by done. simpl.
    erewrite url_fails_retry; [|by eapply standing_advanced|done|done].
    simpl. rewrite advanced_advanced.
    erewrite retry_timer_fires by (by eapply standing_advanced).
    simpl. rewrite advanced_advanced. do 2 f_equal.
  - destruct Hfail as [data Hd].
    erewrite read_succeeds by done. simpl.
    erewrite url_succeeds by (by eapply standing_advanced).
    simpl. rewrite advanced_advanced.
    erewrite put_fails_retry; [|by eapply standing_advanced|done].
    simpl. rewrite advanced_advanced.
    erewrite retry_timer_fires by (by eapply standing_advanced).
    simpl. rewrite advanced_advanced. do 2 f_equal.
    unfold read_data. by rewrite Hd.
Qed.

Lemma advanced_nil (s : Session) p inv :
  invs s !! p = Some inv → advanced p inv [] s = s.
Proof.
  intros H. destruct s. unfold advanced. session_cbv. simpl in H.
  f_equal; [by apply insert_id|apply app_nil_r].
Qed.

(** Failing attempts, each followed by its retry, as long as retries are
    left. *)
Lemma retry_rounds (fs : list Failure) (s : Session) p t r :
  reading s p t r → Forall (fails t) fs →
  r + Z.of_nat (length fs) ≤ retryTimes (options (cfg s)) →
  run s (fs ≫= retry_inputs p) =
    Some (advanced p {| stage := SRead;
                        retryCount := r + Z.of_nat (length fs) |}
            (fs ≫= retry_log (cfg s) t p) s).
Proof.
  revert s r. induction fs as [|a fs IH]; intros s r Hrd Hfs Hlen.
  { simpl. rewrite Z.add_0_r, advanced_nil; [done|]. apply Hrd. }
  apply Forall_cons in Hfs as [Ha Hfs].
  change ((a :: fs) ≫= retry_inputs p)
    with (retry_inputs p a ++ (fs ≫= retry_inputs p)).
  change ((a :: fs) ≫= retry_log (cfg s) t p)
    with (retry_log (cfg s) t p a ++ (fs ≫= retry_log (cfg s) t p)).
  rewrite run_app. simpl length in *.
  erewrite retry_round; [|done|done|lia]. simpl.
  rewrite (IH _ (r + 1)); [|by eapply reading_advanced|done|].
  - rewrite advanced_advanced. do 3 f_equal. lia.
  - change (cfg (advanced p {| stage := SRead; retryCount := r + 1 |}
              (retry_log (cfg s) t p a) s)) with (cfg s). lia.
Qed.

(** What the queue and the continuation of [upload] leave alone. *)
Lemma resolve_chunks_parts b s : parts (resolve_chunks b s) = parts s.
Proof. unfold resolve_chunks. by repeat case_match. Qed.

Lemma idle_listener_parts s : parts (idle_listener s) = parts s.
Proof.
  unfold idle_listener. repeat case_match; by rewrite ?resolve_chunks_parts.
Qed.

Lemma uploadChunk_enter_parts p r s :
  parts (uploadChunk_enter p r s) = parts s.
Proof. unfold uploadChunk_enter. by case_match. Qed.

Lemma tryToStartAnother_parts s : parts (tryToStartAnother s).1 = parts s.
Proof.
  unfold tryToStartAnother. repeat case_match; simpl;
    by rewrite ?idle_listener_parts, ?uploadChunk_enter_parts.
Qed.

Lemma upload_catch_parts e s : parts (upload_catch e s) = parts s.
Proof. unfold upload_catch. by repeat case_match. Qed.

Lemma flush_parts s : parts (flush s) = parts s.
Proof.
  unfold flush, upload_after_chunks. repeat case_match; simpl;
    by rewrite ?upload_catch_parts.
Qed.

(** A part that [uploadChunk] returns is recorded by the [completed]
    listener. *)
Lemma job_return_records (p : nat) (s : Session) :
  listening s = true →
  parts (flush (job_return p (Some p) s)) = parts s ++ [p].
Proof.
  intros Hl. unfold job_return, next.
  rewrite flush_parts, tryToStartAnother_parts.
  unfold completed_listener. by rewrite Hl.
Qed.

Lemma resolve_chunks_settled b s ctx r :
  pc s = PcChunks ctx (Some r) → resolve_chunks b s = s.
Proof. intros H. unfold resolve_chunks. by rewrite H. Qed.

Lemma idle_listener_settled s ctx r :
  pc s = PcChunks ctx (Some r) →
  idle_listener s = s ∨ ∃ d, idle_listener s = emit d s.
Proof.
  intros H. unfold idle_listener. repeat case_match;
    rewrite ?(resolve_chunks_settled _ _ ctx r) by done; eauto.
Qed.

(** When retries are exhausted the error reaches the queue, the promise
    of the chunk pass is rejected with it, and the session fails. *)
Lemma job_throw_fails_session (s : Session) p e ctx :
  pc s = PcChunks ctx None → listening s = true → status s ≠ StCancel →
  pc (job_throw p e s) = PcDone (Rejected e)
  ∧ (errorListener (cfg s) = true →
       status (job_throw p e s) = StError
       ∧ Emit (EError e) ∈ log (job_throw p e s))
  ∧ (errorListener (cfg s) = false →
       status (job_throw p e s) = status s).
Proof.
  intros Hpc Hl Hst. unfold job_throw, error_listener. rewrite Hl.
  unfold reject_chunks.
  change (pc (taskClear s)) with (pc s). rewrite Hpc.
  set (Y := set_pc (PcChunks ctx (Some (inl e))) (taskClear s)).
  assert (HZ : pc (next p Y) = PcChunks ctx (Some (inl e))
               ∧ status (next p Y) = status s
               ∧ cfg (next p Y) = cfg s).
  { unfold next, tryToStartAnother.
    change (qJobs (set_invs (delete p (invs Y)) Y)) with (@nil nat).
    cbv iota. case_decide; [|done].
    destruct (idle_listener_settled (set_invs (delete p (invs Y)) Y) ctx
                (inl e) eq_refl) as [->|[d ->]]; done. }
  destruct HZ as (HZ1 & HZ2 & HZ3).
  unfold flush. rewrite HZ1. cbv iota.
  unfold upload_after_chunks, upload_settle, upload_catch.
  rewrite decide_False by (by rewrite HZ2). rewrite HZ3.
  destruct (errorListener (cfg s)).
  - split_and!; [done| |done]. intros _. split; [done|].
    session_cbv. set_solver.
  - split_and!; [done|done|]. intros _. exact HZ2.
Qed.

(** The [catch] clause when no retry is left. *)
Lemma uploadChunk_catch_exhausted (s : Session) p inv e :
  isCancel e = false → ¬ retryCount inv < retryTimes (options (cfg s)) →
  uploadChunk_catch p inv e s = job_throw p e (set_task_status p TError s).
Proof.
  intros Hc Hr. unfold uploadChunk_catch. rewrite Hc.
  by rewrite decide_False.
Qed.

Lemma flush_rejected s e : pc s = PcDone (Rejected e) → flush s = s.
Proof. apply flush_done. Qed.

Lemma flush_is_flushed s : flushed (flush s).
Proof.
  intros ctx r. unfold flush, upload_after_chunks, upload_settle, upload_catch.
  destruct (pc s) as [| | |ctx' [r'|]| | | |] eqn:E;
    repeat case_match; simplify_eq; try done; congruence.
Qed.

Lemma job_throw_flushed p e s : flush (job_throw p e s) = job_throw p e s.
Proof. apply flush_flushed. unfold job_throw. apply flush_is_flushed. Qed.

Lemma failing_reply_code (code : Z) (msg : string) (d : UrlData) :
  match Resp code msg d with Resp 0 _ _ => False | _ => True end → code ≠ 0.
Proof. by destruct code. Qed.

(** The attempt that fails when no retry is left. *)
Lemma last_failure (s : Session) p t r a ctx :
  reading s p t r → fails t a → ¬ r < retryTimes (options (cfg s)) →
  pc s = PcChunks ctx None → listening s = true → status s ≠ StCancel →
  ∃ s', run s (failure_inputs p a) = Some s'
    ∧ pc s' = PcDone (Rejected (failure_error t a))
    ∧ (errorListener (cfg s) = true →
         status s' = StError
         ∧ Emit (EError (failure_error t a)) ∈ log s')
    ∧ (errorListener (cfg s) = false → status s' = status s).
Proof.
  intros Hrd Hfail Hex Hpc Hl Hst.
  destruct a as [f|f rep|f msg d e]; simpl in Hfail |- *.
  - destruct Hfail as [e He].
    destruct Hrd as (Hf & Ht & Hs & Hi & Hc).
    erewrite step_ReadDone by done. unfold on_read. simpl.
    rewrite uploadChunk_catch_exhausted;
      [|by eapply readChunk_error_not_cancel|done].
    rewrite job_throw_flushed. eexists. split; [done|].
    unfold read_result in *. rewrite He.
    match goal with
    | |- context [job_throw p ?e0 ?x] =>
        exact (job_throw_fails_session x p e0 ctx Hpc Hl Hst)
    end.
  - destruct Hfail as [[data Hd] Hrep].
    erewrite read_succeeds by done. simpl.
    pose proof (standing_advanced s p t _
      {| stage := SUrl data; retryCount := r |}
      [Call (ReqGetUrl (Task.uploadId t) p)] Hrd)
      as (Hf & Ht & Hs & Hi & Hc).
    erewrite step_UrlReply by done. unfold on_url. simpl.
    destruct rep as [code m d|m].
    + rewrite decide_True by (by eapply failing_reply_code).
      unfold getChunkUploadUrl_catch.
      rewrite uploadChunk_catch_exhausted by done.
      rewrite job_throw_flushed. eexists. split; [done|].
      match goal with
    | |- context [job_throw p ?e0 ?x] =>
        exact (job_throw_fails_session x p e0 ctx Hpc Hl Hst)
    end.
    + unfold getChunkUploadUrl_catch.
      rewrite uploadChunk_catch_exhausted by done.
      rewrite job_throw_flushed. eexists. split; [done|].
      match goal with
    | |- context [job_throw p ?e0 ?x] =>
        exact (job_throw_fails_session x p e0 ctx Hpc Hl Hst)
    end.
  - destruct Hfail as [data Hd].
    erewrite read_succeeds by done. simpl.
    erewrite url_succeeds by (by eapply standing_advanced).
    simpl. rewrite advanced_advanced.
    pose proof (standing_advanced s p t _
      {| stage := SPut (Task.controller t); retryCount := r |}
      ([Call (ReqGetUrl (Task.uploadId t) p)]
         ++ [Call (ReqPut (presignedURL d) data (Task.controller t))]) Hrd)
      as (Hf & Ht & Hs & Hi & Hc).
    erewrite step_PutDone; [|done|done|].
    2:{ unfold put_settles. by apply bool_decide_eq_true. }
    unfold on_put. simpl.
    rewrite uploadChunk_catch_exhausted by done.
    rewrite job_throw_flushed. eexists. split; [done|].
    match goal with
    | |- context [job_throw p ?e0 ?x] =>
        exact (job_throw_fails_session x p e0 ctx Hpc Hl Hst)
    end.
Qed.

(** The scenario of the specification: chunk 2 of 3 fails twice and
    succeeds at the third attempt, and the session completes. *)
Lemma retry_scenario_completes :
  (λ s, (status s, pc s, parts s)) <$>
    run (newUploader exampleConfig 10)
      (created false ++ transfers 1 ++ transfers 3
         ++ (twoFailures ≫= retry_inputs 2) ++ transfers 2
         ++ [FinishReply (finishReply false true)])
  = Some (StCompleted,
          PcDone (Resolved (Some
            {| fileId := "F1"; filename := "video.mp4" |})),
          [1%nat; 3%nat; 2%nat]).
Proof. vm_compute. reflexivity. Qed.

(** ** The completion poller *)

(** C3, counterexample: with a poll budget of zero, when the completion
    response reports an asynchronous merge that is not complete, the
    session completes without a single status check and without a
    time-out failure. *)
Lemma zero_poll_budget_reports_completed :
  ∃ s, run (newUploader noPollConfig 3)
         (created false ++ transfers 1
            ++ [FinishReply (finishReply true false)]) = Some s
    ∧ status s = StCompleted
    ∧ pc s = PcDone (Resolved (Some
        {| fileId := "F1"; filename := "video.mp4" |}))
    ∧ List.filter is_check_call (log s) = []
    ∧ List.filter is_finish_call (log s) = [Call (ReqFinish "P1")].
Proof.
  eexists. split; [vm_compute; reflexivity|].
  split_and!; vm_compute; reflexivity.
Qed.

Lemma moved_moved p p' l l' s :
  moved p' l' (moved p l s) = moved p' (l ++ l') s.
Proof. unfold moved. session_cbv. f_equal. by rewrite app_assoc. Qed.

Lemma step_upload (s : Session) (i : Input) r :
  upload_resume s i = Some r → step s i = Some (flush (upload_settle r)).
Proof. intros H. unfold step. by rewrite (handle_upload_resume _ _ _ H). Qed.

Lemma upload_resume_check s ctx n r :
  pc s = PcPollCheck ctx n →
  upload_resume s (CheckReply r) = Some (on_check ctx n r s).
Proof. intros H. unfold upload_resume. by rewrite H. Qed.

Lemma upload_resume_timer s ctx n :
  pc s = PcPollSleep ctx n →
  upload_resume s PollTimer = Some (poll_loop ctx n s).
Proof. intros H. unfold upload_resume. by rewrite H. Qed.

Lemma upload_resume_finish s ctx r :
  pc s = PcFinish ctx →
  upload_resume s (FinishReply r) = Some (on_finish ctx r s).
Proof. intros H. unfold upload_resume. by rewrite H. Qed.

(** A status check that finds the merge incomplete while rounds are left:
    the poller pauses and checks again. *)
Lemma poll_round (s : Session) ctx n d :
  pc s = PcPollCheck ctx n → mergeCompleted d = false →
  n < pollMaxTimes (options (cfg s)) →
  run s [CheckReply (Resp 0 "ok" d); PollTimer] =
    Some (moved (PcPollCheck ctx (n + 1)) (poll_log s ctx n 1) s).
Proof.
  intros Hpc Hd Hlt. cbn [run].
  rewrite (step_upload _ _ _ (upload_resume_check s ctx n _ Hpc)).
  unfold on_check. destruct (decide (0 ≠ 0)) as [?|_]; [congruence|].
  rewrite Hd.
  destruct (decide (n >= pollMaxTimes (options (cfg s)))); [lia|].
  cbn [mbind option_bind upload_settle].
  rewrite flush_flushed by (by intros ? ?).
  erewrite step_upload by (by apply upload_resume_timer).
  unfold poll_loop. rewrite decide_True by done.
  cbn [mbind option_bind upload_settle].
  rewrite flush_flushed by (by intros ? ?).
  f_equal. unfold moved. session_cbv. f_equal.
  by rewrite <- !app_assoc.
Qed.

(** A status check that finds the merge incomplete at the last round. *)
Lemma poll_last_round (s : Session) ctx n d :
  pc s = PcPollCheck ctx n → mergeCompleted d = false →
  ¬ n < pollMaxTimes (options (cfg s)) →
  step s (CheckReply (Resp 0 "ok" d)) = Some (upload_catch pollTimeout s).
Proof.
  intros Hpc Hd Hlt.
  rewrite (step_upload _ _ _ (upload_resume_check s ctx n _ Hpc)).
  unfold on_check. destruct (decide (0 ≠ 0)) as [?|_]; [congruence|].
  rewrite Hd.
  destruct (decide (n >= pollMaxTimes (options (cfg s)))); [|lia].
  cbn [upload_settle].
  f_equal. apply flush_flushed. intros ctx' r.
  unfold upload_catch. by repeat case_match.
Qed.

Lemma poll_log_moved p l s ctx n k :
  poll_log (moved p l s) ctx n k = poll_log s ctx n k.
Proof. revert n. induction k as [|k IH]; intros n; simpl; by rewrite ?IH. Qed.

Lemma poll_rounds (rs : list CheckData) (s : Session) ctx n :
  pc s = PcPollCheck ctx n →
  Forall (λ d, mergeCompleted d = false) rs → rs ≠ [] →
  n + Z.of_nat (length rs) - 1 = pollMaxTimes (options (cfg s)) →
  run s (poll_inputs rs) =
    Some (upload_catch pollTimeout
            (moved (PcPollCheck ctx (n + Z.of_nat (length rs) - 1))
               (poll_log s ctx n (length rs - 1)) s)).
Proof.
  revert s n. induction rs as [|d rs IH]; intros s n Hpc Hrs Hne Hlen;
    [done|].
  apply Forall_cons in Hrs as [Hd Hrs].
  destruct rs as [|d' rs].
  - simpl in *. rewrite (poll_last_round s ctx n) by (done || lia). simpl.
    do 2 f_equal. destruct s. unfold moved. session_cbv.
    simpl in Hpc. rewrite app_nil_r, Hpc. do 2 f_equal. lia.
  - change (poll_inputs (d :: d' :: rs))
      with ([CheckReply (Resp 0 "ok" d); PollTimer] ++ poll_inputs (d' :: rs)).
    rewrite run_app. simpl length in *.
    rewrite (poll_round s ctx n) by (done || lia). cbn [mbind option_bind].
    rewrite (IH _ (n + 1)); [|done|done|done|].
    + rewrite moved_moved, poll_log_moved.
      replace (n + 1 + Z.of_nat (S (length rs)) - 1)
        with (n + Z.of_nat (S (S (length rs))) - 1) by lia.
      replace (S (S (length rs)) - 1)%nat with (S (S (length rs) - 1))
        by lia.
      reflexivity.
    + change (cfg (moved _ _ s)) with (cfg s). simpl length. lia.
Qed.

Lemma poll_log_checks s ctx n k :
  List.filter is_check_call (poll_log s ctx n k) =
    replicate k (Call (ReqCheck (ctxPreuploadID ctx))).
Proof. revert n. induction k as [|k IH]; intros n; simpl; by rewrite ?IH. Qed.

Lemma poll_log_sleeps s ctx n k :
  List.filter is_sleep (poll_log s ctx n k) =
    replicate k (Sleep (pollInterval (options (cfg s)))).
Proof. revert n. induction k as [|k IH]; intros n; simpl; by rewrite ?IH. Qed.

(** C3, amended. With a poll budget [pollMaxTimes >= 1]: when the
    completion response reports an asynchronous merge that is not
    complete and every status check reports the merge incomplete, the
    poller issues exactly [pollMaxTimes] status checks, pauses
    [pollInterval] between consecutive checks ([pollMaxTimes - 1] pauses,
    so it waits [pollInterval * (pollMaxTimes - 1)] in all), and then
    throws the time-out error into the [catch] clause of [upload]: unless
    the session was cancelled meanwhile, the promise of [upload] is
    rejected with it, and where a listener for [error] is registered the
    session emits [error] with it and takes the status [error]. *)
Theorem poll_times_out (s : Session) ctx msg fd (rs : list CheckData) :
  pc s = PcFinish ctx →
  asyncUpload fd = true → completed fd = false →
  Forall (λ d, mergeCompleted d = false) rs →
  1 ≤ pollMaxTimes (options (cfg s)) →
  Z.of_nat (length rs) = pollMaxTimes (options (cfg s)) →
  let l := poll_trace s ctx (length rs - 1) in
  let s1 := moved (PcPollCheck ctx (pollMaxTimes (options (cfg s)))) l s in
  run s (FinishReply (Resp 0 msg fd) :: poll_inputs rs)
    = Some (upload_catch pollTimeout s1)
  ∧ List.filter is_check_call l =
      replicate (length rs) (Call (ReqCheck (ctxPreuploadID ctx)))
  ∧ List.filter is_sleep l =
      replicate (length rs - 1) (Sleep (pollInterval (options (cfg s))))
  ∧ (status s ≠ StCancel →
       pc (upload_catch pollTimeout s1) = PcDone (Rejected pollTimeout)
       ∧ (errorListener (cfg s) = true →
            status (upload_catch pollTimeout s1) = StError
            ∧ log (upload_catch pollTimeout s1) =
                log s ++ l ++ [Emit (EError pollTimeout)])).
Proof.
  intros Hpc Ha Hc Hrs Hm Hlen l s1.
  assert (Hne : rs ≠ []) by (intros ->; simpl in Hlen; lia).
  split_and!.
  - cbn [run].
    rewrite (step_upload _ _ _ (upload_resume_finish s ctx _ Hpc)).
    unfold on_finish. destruct (decide (0 ≠ 0)) as [?|_]; [congruence|].
    rewrite Ha, Hc. cbn [andb negb].
    unfold poll_loop. rewrite decide_True by (simpl; lia).
    cbn [mbind option_bind upload_settle].
    set (s0 := moved (PcPollCheck ctx (0 + 1))
      [Emit (progressEvent PhMerging (1, 1) (size s) (size s) XMessage);
       Call (ReqCheck (ctxPreuploadID ctx))] s).
    assert (Hs0 : flush (set_pc (PcPollCheck ctx (0 + 1))
       (call (ReqCheck (ctxPreuploadID ctx))
          (emit (progressEvent PhMerging (1, 1) (size s) (size s) XMessage)
             s))) = s0).
    { rewrite flush_flushed by (by intros ? ?). unfold s0, moved.
      session_cbv. f_equal. by rewrite <- app_assoc. }
    rewrite Hs0.
    rewrite (poll_rounds rs s0 ctx 1); [|done|done|done|].
    + unfold s0. rewrite poll_log_moved, moved_moved.
      unfold s1, l, poll_trace. do 3 f_equal; lia.
    + change (cfg s0) with (cfg s). lia.
  - unfold l, poll_trace. rewrite List.filter_app, poll_log_checks. simpl.
    destruct rs; [done|]. simpl. by rewrite Nat.sub_0_r.
  - unfold l, poll_trace. rewrite List.filter_app, poll_log_sleeps. done.
  - intros Hst. unfold upload_catch. rewrite decide_False by done.
    change (cfg s1) with (cfg s).
    destruct (errorListener (cfg s)); (split; [done|]); [|done].
    intros _. split; [done|].
    unfold s1, moved. cbv [log set_pc set_log emit set_status].
    by rewrite <- !app_assoc.
Qed.

Lemma poll_times_out_witness :
  ∃ s', run beforeFinish
          (FinishReply (finishReply true false)
             :: poll_inputs (replicate 3
                  {| mergeCompleted := false; mergeFileID := None |}))
        = Some s'
    ∧ status s' = StError ∧ pc s' = PcDone (Rejected pollTimeout).
Proof.
  destruct (poll_times_out beforeFinish exampleCtx "ok"
    {| asyncUpload := true; finishFileID := Some "F2"; completed := false |}
    (replicate 3 {| mergeCompleted := false; mergeFileID := None |}))
    as (Hrun & _ & _ & Hfail).
  - vm_compute. reflexivity.
  - reflexivity.
  - reflexivity.
  - repeat constructor.
  - vm_compute. discriminate.
  - vm_compute. reflexivity.
  - eexists. split; [exact Hrun|].
    destruct Hfail as (H1 & H2); [vm_compute; discriminate|].
    destruct H2 as (H2 & _); [vm_compute; reflexivity|].
    split; [exact H2|exact H1].
Defined.

(** ** The file id of a completed upload *)

Lemma chunk_pc_trans a b c : chunk_pc a b → chunk_pc b c → chunk_pc a c.
Proof.
  intros Hab Hbc. destruct Hab; inversion Hbc; subst; by constructor.
Qed.

Lemma resolve_chunks_pc b s : chunk_pc (pc s) (pc (resolve_chunks b s)).
Proof.
  unfold resolve_chunks. destruct (pc s) as [| | |ctx [r|]| | | |] eqn:E;
    rewrite ?E; by constructor.
Qed.

Lemma reject_chunks_pc e s : chunk_pc (pc s) (pc (reject_chunks e s)).
Proof.
  unfold reject_chunks. destruct (pc s) as [| | |ctx [r|]| | | |] eqn:E;
    rewrite ?E; by constructor.
Qed.

Lemma idle_listener_pc s : chunk_pc (pc s) (pc (idle_listener s)).
Proof.
  unfold idle_listener. repeat case_match;
    first [apply cp_refl | apply resolve_chunks_pc
          | apply (resolve_chunks_pc false (emit _ s))].
Qed.

Lemma completed_listener_pc r s : pc (completed_listener r s) = pc s.
Proof. unfold completed_listener. by repeat case_match. Qed.

Lemma error_listener_pc e s : chunk_pc (pc s) (pc (error_listener e s)).
Proof.
  unfold error_listener. case_match; [|apply cp_refl].
  apply (reject_chunks_pc e (taskClear s)).
Qed.

Lemma uploadChunk_enter_pc p r s : pc (uploadChunk_enter p r s) = pc s.
Proof. unfold uploadChunk_enter. by case_match. Qed.

Lemma tryToStartAnother_pc s : chunk_pc (pc s) (pc (tryToStartAnother s).1).
Proof.
  unfold tryToStartAnother. repeat case_match; simpl;
    rewrite ?uploadChunk_enter_pc;
    first [apply cp_refl | apply idle_listener_pc].
Qed.

Lemma queue_add_pc p s : chunk_pc (pc s) (pc (queue_add p s)).
Proof. apply (tryToStartAnother_pc (set_qJobs _ s)). Qed.

Lemma next_pc p s : chunk_pc (pc s) (pc (next p s)).
Proof. apply (tryToStartAnother_pc (set_invs _ s)). Qed.

Lemma processQueue_pc fuel s : chunk_pc (pc s) (pc (processQueue fuel s)).
Proof.
  revert s. induction fuel as [|fuel IH]; intros s; simpl; [apply cp_refl|].
  pose proof (tryToStartAnother_pc s) as H.
  destruct (tryToStartAnother s) as [s' [|]]; simpl in H; [|done].
  eapply chunk_pc_trans; [exact H|apply IH].
Qed.

Lemma queue_start_pc s : chunk_pc (pc s) (pc (queue_start s)).
Proof.
  unfold queue_start. case_match; [|apply cp_refl].
  apply (processQueue_pc _ (set_qPaused false s)).
Qed.

Lemma upload_catch_pc_chunk e s ctx o :
  pc s = PcChunks ctx o → chunk_pc (pc s) (pc (upload_catch e s)).
Proof.
  intros H. rewrite H. unfold upload_catch.
  case_decide; [|case_match]; constructor.
Qed.

Lemma flush_pc s : chunk_pc (pc s) (pc (flush s)).
Proof.
  unfold flush. destruct (pc s) as [| | |ctx [r|]| | | |] eqn:E;
    rewrite <- ?E; try apply cp_refl.
  unfold upload_after_chunks. destruct r as [e|[|]]; simpl.
  - by eapply upload_catch_pc_chunk.
  - rewrite E. constructor.
  - case_decide; simpl; [by eapply upload_catch_pc_chunk|].
    rewrite E. constructor.
Qed.

Lemma job_return_pc p r s : chunk_pc (pc s) (pc (job_return p r s)).
Proof.
  unfold job_return. rewrite <- (completed_listener_pc r s). apply next_pc.
Qed.

Lemma job_throw_pc p e s : chunk_pc (pc s) (pc (job_throw p e s)).
Proof.
  unfold job_throw.
  change (pc (emit ?d ?x)) with (pc x).
  eapply chunk_pc_trans; [apply error_listener_pc|].
  eapply chunk_pc_trans; [apply next_pc|apply flush_pc].
Qed.

Lemma uploadChunk_catch_pc p inv e s :
  chunk_pc (pc s) (pc (uploadChunk_catch p inv e s)).
Proof.
  unfold uploadChunk_catch. repeat case_match.
  - apply (job_return_pc p None (set_task_status p TAbort s)).
  - apply cp_refl.
  - apply (job_throw_pc p e (set_task_status p TError s)).
Qed.

Lemma foldl_pc {A} (f : Session → A → Session) (l : list A) s :
  (∀ s x, chunk_pc (pc s) (pc (f s x))) → chunk_pc (pc s) (pc (foldl f s l)).
Proof.
  intros Hf. revert s. induction l as [|x l IH]; intros s; simpl.
  - apply cp_refl.
  - eapply chunk_pc_trans; [apply Hf|apply IH].
Qed.

Lemma pause_pc s : chunk_pc (pc s) (pc (pause s)).
Proof.
  unfold pause. case_decide; [apply cp_refl|].
  apply (foldl_pc pause_task _ (set_qPaused true (set_status StPaused s))).
  intros s' t. unfold pause_task. case_decide; apply cp_refl.
Qed.

Lemma resume_pc s : chunk_pc (pc s) (pc (resume s)).
Proof.
  unfold resume. case_decide; [apply cp_refl|].
  eapply chunk_pc_trans; [|apply queue_start_pc].
  apply (foldl_pc resume_task _ (set_status StRunning s)).
  intros s' p. unfold resume_task.
  exact (queue_add_pc p
           (set_nextCtl (S (nextCtl s'))
              (set_chunkTasks
                 (task_update p (fresh_controller (nextCtl s'))
                    (chunkTasks s')) s'))).
Qed.

(** Inputs of the chunk pass and control calls move [upload] only along
    [chunk_pc]. *)
Lemma handle_chunk_pc s i s' :
  handle s i = Some s' → upload_resume s i = None →
  chunk_pc (pc s) (pc s').
Proof.
  intros Hh Hu.
  destruct i; try (unfold handle in Hh; rewrite Hu in Hh; discriminate);
    simpl in Hh.
  - injection Hh as <-. apply pause_pc.
  - injection Hh as <-. apply resume_pc.
  - injection Hh as <-. apply cp_refl.
  - destruct (invs s !! p) as [inv|]; [|done]. simpl in Hh.
    destruct (task_at p (chunkTasks s)) as [t|]; [|done]. simpl in Hh.
    destruct (stage inv); try done.
    destruct (readChunk _ _ _) as [r|]; [|done]. simpl in Hh.
    injection Hh as <-. unfold on_read. destruct r.
    + apply uploadChunk_catch_pc.
    + apply cp_refl.
  - destruct (invs s !! p) as [inv|]; [|done]. simpl in Hh.
    destruct (task_at p (chunkTasks s)) as [t|]; [|done]. simpl in Hh.
    destruct (stage inv); try done.
    injection Hh as <-. unfold on_url, getChunkUploadUrl_catch.
    repeat case_match; try apply cp_refl;
      apply (uploadChunk_catch_pc _ _ _ (emit _ s)).
  - destruct (invs s !! p) as [inv|]; [|done]. simpl in Hh.
    destruct (task_at p (chunkTasks s)) as [t|]; [|done]. simpl in Hh.
    destruct (stage inv); try done.
    case_match; [|done]. injection Hh as <-. apply cp_refl.
  - destruct (invs s !! p) as [inv|]; [|done]. simpl in Hh.
    destruct (stage inv); try done.
    case_match; [|done]. injection Hh as <-. unfold on_put.
    destruct r; [apply uploadChunk_catch_pc|apply job_return_pc].
  - destruct (invs s !! p) as [inv|]; [|done]. simpl in Hh.
    destruct (stage inv); try done.
    injection Hh as <-. unfold on_retry_timer.
    rewrite uploadChunk_enter_pc. apply cp_refl.
Qed.

Lemma from_create_mono ins ins' ctx :
  ins ⊆ ins' → from_create ins ctx → from_create ins' ctx.
Proof.
  intros Hsub (msg & d & Hin & H). exists msg, d. split; [by apply Hsub|done].
Qed.

Lemma id_inv_mono ins ins' p : ins ⊆ ins' → id_inv ins p → id_inv ins' p.
Proof.
  intros Hsub. destruct p as [| | | | | | |[[info|]|]]; simpl;
    eauto using from_create_mono.
  intros (ctx & H1 & H2). eauto using from_create_mono.
Qed.

Lemma id_inv_chunk_pc ins a b : chunk_pc a b → id_inv ins a → id_inv ins b.
Proof. by destruct 1. Qed.

Lemma upload_catch_inv ins e s : id_inv ins (pc (upload_catch e s)).
Proof. unfold upload_catch. by repeat case_match. Qed.

Lemma upload_complete_inv ins ctx s :
  from_create ins ctx → id_inv ins (pc (upload_settle (upload_complete ctx s))).
Proof. intros H. exists ctx. by split. Qed.

Lemma poll_loop_inv ins ctx n s :
  from_create ins ctx → id_inv ins (pc (upload_settle (poll_loop ctx n s))).
Proof.
  intros H. unfold poll_loop. case_decide; [done|].
  by apply upload_complete_inv.
Qed.

(** A stretch of the body of [upload] keeps the invariant. *)
Lemma upload_resume_inv pre s i r :
  upload_resume s i = Some r → id_inv pre (pc s) →
  id_inv (pre ++ [i]) (pc (upload_settle r)).
Proof.
  intros Hr Hinv.
  assert (Hsub : pre ⊆ pre ++ [i]) by set_solver.
  unfold upload_resume in Hr.
  destruct i; try done; destruct (pc s) as [| | |ctx o|ctx|ctx n|ctx n|]
    eqn:Hpc; try done; simpl in Hinv.
  - by injection Hr as <-.
  - injection Hr as <-. unfold on_md5, createUploadTask_catch.
    destruct r0; [apply upload_catch_inv|done].
  - assert (Hr' : r = on_create target0 r0 s).
    { destruct r0 as [[| |] msg d|msg]; repeat case_match; congruence. }
    subst r. clear Hr. unfold on_create, createUploadTask_catch.
    destruct r0 as [code msg d|msg]; [|apply upload_catch_inv].
    case_decide as Hc; [apply upload_catch_inv|].
    assert (code = 0) as -> by (by destruct (decide (code = 0))).
    assert (Hfc : from_create (pre ++ [CreateReply (Resp 0 msg d)])
              {| target := target0; ctxFileID := fileID d;
                 ctxPreuploadID := preuploadID d |}).
    { exists msg, d. split; [set_solver|done]. }
    unfold upload_created. destruct (reuse d).
    + by apply upload_complete_inv.
    + done.
  - injection Hr as <-. unfold on_finish.
    destruct r0 as [code msg d|msg]; [|apply upload_catch_inv].
    case_decide; [apply upload_catch_inv|].
    case_match.
    + apply poll_loop_inv. by eapply from_create_mono.
    + apply upload_complete_inv. by eapply from_create_mono.
  - injection Hr as <-. unfold on_check.
    destruct r0 as [code msg d|msg]; [|apply upload_catch_inv].
    case_decide; [apply upload_catch_inv|].
    case_match.
    + apply upload_complete_inv. by eapply from_create_mono.
    + case_decide; [apply upload_catch_inv|].
      by eapply from_create_mono.
  - injection Hr as <-. apply poll_loop_inv. by eapply from_create_mono.
Qed.

Lemma step_inv pre s i s' :
  step s i = Some s' → id_inv pre (pc s) → id_inv (pre ++ [i]) (pc s').
Proof.
  unfold step. intros Hs Hinv.
  destruct (handle s i) as [s1|] eqn:Hh; [|done].
  injection Hs as <-.
  eapply id_inv_chunk_pc; [apply flush_pc|].
  destruct (upload_resume s i) as [r|] eqn:Hu.
  - rewrite (handle_upload_resume _ _ _ Hu) in Hh. injection Hh as <-.
    by eapply upload_resume_inv.
  - eapply id_inv_mono; [|eapply id_inv_chunk_pc;
      [by eapply handle_chunk_pc|done]].
    set_solver.
Qed.

Lemma run_inv ins pre s s' :
  run s ins = Some s' → id_inv pre (pc s) → id_inv (pre ++ ins) (pc s').
Proof.
  revert pre s. induction ins as [|i ins IH]; intros pre s Hrun Hinv;
    simpl in Hrun.
  - injection Hrun as <-. by rewrite app_nil_r.
  - destruct (step s i) as [s1|] eqn:Hs; [|done]. simpl in Hrun.
    replace (pre ++ i :: ins) with ((pre ++ [i]) ++ ins)
      by (by rewrite <- app_assoc).
    eapply IH; [done|]. by eapply step_inv.
Qed.

(** The session never reads the file ids of the completion and
    merge-status responses. *)
Lemma step_scrub s i : step s (scrub i) = step s i.
Proof.
  destruct i; try reflexivity; destruct r; try reflexivity;
    unfold step, handle, upload_resume; simpl;
    destruct (pc s); reflexivity.
Qed.

Lemma run_scrub ins s : run s (scrub <$> ins) = run s ins.
Proof.
  revert s. induction ins as [|i ins IH]; intros s; [done|].
  simpl. rewrite step_scrub. destruct (step s i); simpl; [apply IH|done].
Qed.

(** A stretch of [upload] that returns a value has just emitted the
    [completed] event with that value. *)
Lemma returned_value_emitted s i s1 info :
  upload_resume s i = Some (s1, Return (Some info)) →
  ∃ l, log s1 = l ++ [Emit (ECompleted info)].
Proof.
  unfold upload_resume, on_md5, on_create, upload_created, on_finish,
    on_check, poll_loop, upload_start, createUploadTask_catch,
    upload_complete.
  intros H. repeat case_match; simplify_eq; eexists; reflexivity.
Qed.

(** C10. Whenever [upload] has resolved to a value, the [fileId] of that
    value is [fileID || preuploadID] of the create-task response that the
    session received -- the [fileID] of that response, or the preupload
    identifier when the field is absent or empty -- and the [completed]
    event was emitted with the same value; the file ids of the completion
    response and of the merge-status responses have no influence on the
    session at all. *)
Theorem completed_file_id_from_create_response :
  (∀ c sz ins s info,
     run (newUploader c sz) ins = Some s →
     pc s = PcDone (Resolved (Some info)) →
     ∃ msg d, CreateReply (Resp 0 msg d) ∈ ins
       ∧ fileId info = js_or (fileID d) (preuploadID d))
  ∧ (∀ s i s1 info, upload_resume s i = Some (s1, Return (Some info)) →
       ∃ l, log s1 = l ++ [Emit (ECompleted info)])
  ∧ (∀ s ins1 ins2, scrub <$> ins1 = scrub <$> ins2 →
       run s ins1 = run s ins2)
  ∧ (∀ pid, js_or None pid = pid ∧ js_or (Some "") pid = pid
       ∧ ∀ f, f ≠ "" → js_or (Some f) pid = f).
Proof.
  split_and!.
  - intros c sz ins s info Hrun Hpc.
    pose proof (run_inv ins [] _ _ Hrun I) as Hinv.
    rewrite Hpc in Hinv. simpl in Hinv.
    destruct Hinv as (ctx & (msg & d & Hin & H1 & H2) & H3).
    exists msg, d. split; [done|]. by rewrite H3, H1, H2.
  - apply returned_value_emitted.
  - intros s ins1 ins2 H.
    by rewrite <- (run_scrub ins1), <- (run_scrub ins2), H.
  - intros pid. split_and!; try done.
    intros f Hf. unfold js_or. by rewrite decide_False.
Qed.

Lemma completed_file_id_from_create_response_witness :
  ∃ msg d, CreateReply (Resp 0 msg d) ∈ fullUpload
    ∧ "F1" = js_or (fileID d) (preuploadID d).
Proof.
  apply (proj1 completed_file_id_from_create_response exampleConfig 3
           fullUpload
           (default (newUploader exampleConfig 3)
              (run (newUploader exampleConfig 3) fullUpload))
           {| fileId := "F1"; filename := "video.mp4" |}).
  - vm_compute. reflexivity.
  - vm_compute. reflexivity.
Defined.

(** An asynchronous merge that is confirmed at the second status check:
    the upload resolves with the file id "F1" of the create-task response,
    not with "F2" of the completion response nor "F3" of the merge-status
    responses. *)
Lemma async_merge_scenario :
  (λ s, (status s, pc s)) <$>
    run (newUploader exampleConfig 3)
      (created false ++ transfers 1
         ++ [FinishReply (finishReply true false);
             CheckReply (checkReply false); PollTimer;
             CheckReply (checkReply true)])
  = Some (StCompleted,
          PcDone (Resolved (Some
            {| fileId := "F1"; filename := "video.mp4" |}))).
Proof. vm_compute. reflexivity. Qed.

(** ** The reuse short-circuit *)

Lemma settled_idle_step (s s' : Session) (i : Input) :
  settled_idle s → step s i = Some s' → settled_idle s'.
Proof.
  intros (Hinv & [r Hpc] & Hrun & Hpau & Hlog) Hstep.
  unfold step in Hstep.
  destruct (handle s i) as [s1|] eqn:Hh; [|discriminate].
  simpl in Hstep. injection Hstep as <-.
  assert (Hs1 : settled_idle s1).
  { destruct i; simpl in Hh;
      try (rewrite Hinv, lookup_empty in Hh; discriminate);
      try (rewrite Hpc in Hh; discriminate).
    - injection Hh as <-. rewrite pause_not_running by done.
      repeat split; eauto.
    - injection Hh as <-. rewrite resume_not_paused by done.
      repeat split; eauto.
    - injection Hh as <-. unfold cancel, taskClear, emit. simpl.
      repeat split; eauto.
      apply Forall_app. split; [done|]. by constructor. }
  destruct Hs1 as (? & [r1 Hpc1] & ? & ? & ?).
  rewrite (flush_done _ _ Hpc1). repeat split; eauto.
Qed.

Lemma settled_idle_run (ins : list Input) (s s' : Session) :
  settled_idle s → run s ins = Some s' → settled_idle s'.
Proof.
  revert s. induction ins as [|i ins IH]; intros s Hs Hrun; simpl in Hrun.
  - by injection Hrun as <-.
  - destruct (step s i) as [s1|] eqn:Hst; [|discriminate].
    simpl in Hrun. eapply IH; [|done]. by eapply settled_idle_step.
Qed.

(** [pause], [resume] and [cancel] on a session that has planned no
    chunk, while [upload] has not reached the chunk pass: there is nothing
    for them to abort, to re-submit or to clear. *)
Lemma control_step c sz s i :
  is_control i = true → untouched c sz s → (∀ ctx o, pc s ≠ PcChunks ctx o) →
  ∃ s', step s i = Some s' ∧ untouched c sz s' ∧ pc s' = pc s
    ∧ requests (log s') = requests (log s).
Proof.
  intros Hi [Hc Hz Hin Ht Hq Hl Hlog] Hpc.
  assert (Hfl : ∀ x, pc x = pc s → flush x = x).
  { intros x Hx. unfold flush. rewrite Hx.
    destruct (pc s) as [| | |ctx o| | | |] eqn:E; try done.
    by destruct (Hpc ctx o). }
  destruct i; try done; unfold step; cbn [handle fmap option_fmap option_map].
  - exists (pause s). unfold pause. case_decide.
    + rewrite Hfl by done. by split_and!.
    + proj_cbn. rewrite Ht. cbn [foldl]. rewrite Hfl by done.
      split_and!; [done| |done..]. by constructor.
  - exists (resume s). unfold resume. case_decide.
    + rewrite Hfl by done. by split_and!.
    + unfold abortedTasks. proj_cbn. rewrite Ht.
      cbn [filter list_filter fmap list_fmap foldl].
      unfold queue_start. proj_cbn.
      destruct (qPaused s) eqn:Hp.
      * proj_cbn. rewrite Hq. cbn [length processQueue].
        unfold tryToStartAnother. proj_cbn. rewrite Hq.
        unfold pending. proj_cbn.
        rewrite Hin, map_size_empty. rewrite decide_True by done.
        unfold idle_listener. proj_cbn.
        rewrite Hl. rewrite Hfl by done.
        split_and!; [done| |done..]. by constructor.
      * rewrite Hfl by done. split_and!; [done| |done..]. by constructor.
  - exists (cancel s). rewrite Hfl by done.
    unfold cancel, taskClear. split_and!; [done| |done|].
    + constructor; proj_cbn; try done.
      apply Forall_app. split; [done|]. by constructor.
    + proj_cbn. unfold requests. rewrite omap_app. simpl.
      by rewrite app_nil_r.
Qed.

Lemma control_run c sz cs s :
  Forall (λ i, is_control i = true) cs → untouched c sz s →
  (∀ ctx o, pc s ≠ PcChunks ctx o) →
  ∃ s', run s cs = Some s' ∧ untouched c sz s' ∧ pc s' = pc s
    ∧ requests (log s') = requests (log s).
Proof.
  revert s. induction cs as [|i cs IH]; intros s Hcs Hu Hpc.
  { exists s. by split_and!. }
  apply Forall_cons in Hcs as [Hi Hcs].
  destruct (control_step c sz s i Hi Hu Hpc) as (s1 & Hs & Hu1 & Hp1 & Hr1).
  destruct (IH s1 Hcs Hu1) as (s' & Hrun & Hu' & Hp' & Hr').
  { intros ctx o. rewrite Hp1. apply Hpc. }
  exists s'. split_and!; [|done|congruence|congruence].
  simpl. by rewrite Hs.
Qed.

(** C6, counterexample: the create-task response has [reuse = true] and
    the file id "F1", and [upload] was called with a target: it resolves
    with the target for file name, not with the basename of the source
    path. *)
Lemma reuse_result_names_the_target :
  pc <$> run (newUploader exampleConfig 10)
           [CallUpload (Some "dir9"); Md5Done (inr "etag");
            CreateReply (createReply true)]
    = Some (PcDone (Resolved (Some {| fileId := "F1"; filename := "dir9" |})))
  ∧ basename (filePath exampleConfig) = "video.mp4"
  ∧ {| fileId := "F1"; filename := "dir9" |} ≠
      {| fileId := "F1"; filename := basename (filePath exampleConfig) |}.
Proof. split_and!; [vm_compute; reflexivity..|vm_compute; discriminate]. Qed.

(** C6, amended. When the create-task response has [reuse = true],
    whatever calls of [pause], [resume] and [cancel] come before it:
    [upload] resolves to the file id [fileID || preuploadID] (the file id
    [f] of the response when it is present and not empty) and to the file
    name [target || basename] (the basename of the source path for
    [upload()] without argument); the session emits [completed] and its
    status is [completed]; the fingerprint and the create-task request
    are the only requests issued; and whatever happens to the session
    afterwards, short of a further call of [upload], no chunk is ever
    read, no chunk destination requested, no chunk transferred and no
    [uploading] progress event emitted. *)
Theorem reuse_completes_without_chunk_work (c : Config) (sz : Z)
    (tgt : option string) (etag msg : string) (d : CreateData)
    (cs0 cs1 cs2 : list Input) :
  reuse d = true →
  Forall (λ i, is_control i = true) cs0 →
  Forall (λ i, is_control i = true) cs1 →
  Forall (λ i, is_control i = true) cs2 →
  let info := {| fileId := js_or (fileID d) (preuploadID d);
                 filename := js_or tgt (basename (filePath c)) |} in
  ∃ s0 s,
    run (newUploader c sz)
      (cs0 ++ CallUpload tgt :: cs1 ++ Md5Done (inr etag) :: cs2) = Some s0
    ∧ step s0 (CreateReply (Resp 0 msg d)) = Some s
    ∧ pc s = PcDone (Resolved (Some info))
    ∧ status s = StCompleted
    ∧ log s =
        log s0 ++ [Emit (progressEvent PhComplete (1, 1) sz sz XNone);
                   Emit (ECompleted info)]
    ∧ requests (log s) =
        [ReqMd5 (filePath c);
         ReqCreate (js_nullish tgt (parentFileID c))
           (basename (filePath c)) sz etag (duplicate (options c))]
    ∧ (∀ f, fileID d = Some f → f ≠ "" → fileId info = f)
    ∧ (tgt = None → filename info = basename (filePath c))
    ∧ ∀ ins s', uploads ins = 0%nat → run s ins = Some s' →
        Forall (λ a, chunk_action a = false) (log s').
Proof.
  intros Hreuse H0 H1 H2 info.
  assert (Hnew : untouched c sz (newUploader c sz)).
  { constructor; try done. by repeat constructor. }
  destruct (control_run c sz cs0 _ H0 Hnew) as (sa & Ra & Ua & Pa & Qa);
    [done|].
  change (pc (newUploader c sz)) with PcNew in Pa.
  change (requests (log (newUploader c sz))) with (@nil Request) in Qa.
  (* the call of [upload] *)
  set (sb := upload_settle (upload_start tgt sa)).
  assert (Sb : step sa (CallUpload tgt) = Some sb).
  { rewrite (step_upload sa _ (upload_start tgt sa)).
    - by rewrite flush_flushed by (by intros ctx r).
    - unfold upload_resume. by rewrite Pa. }
  assert (Ub : untouched c sz sb).
  { destruct Ua. constructor; try done. unfold sb, upload_start.
    cbv zeta. cbn [upload_settle]. proj_cbn. rewrite !Forall_app. split_and!; [done|..];
      by repeat constructor. }
  assert (Qb : requests (log sb) = [ReqMd5 (filePath c)]).
  { unfold sb, upload_start. cbv zeta. cbn [upload_settle]. proj_cbn.
    unfold requests in *.
    rewrite !omap_app, Qa. simpl. by rewrite (ut_cfg _ _ _ Ua). }
  destruct (control_run c sz cs1 sb H1 Ub) as (sc & Rc & Uc & Pc' & Qc);
    [done|].
  change (pc sb) with (PcMd5 tgt) in Pc'.
  (* the fingerprint *)
  set (sd := upload_settle (on_md5 tgt (inr etag) sc)).
  assert (Sd : step sc (Md5Done (inr etag)) = Some sd).
  { rewrite (step_upload sc _ (on_md5 tgt (inr etag) sc)).
    - by rewrite flush_flushed by (by intros ctx r).
    - unfold upload_resume. by rewrite Pc'. }
  assert (Ud : untouched c sz sd).
  { destruct Uc. constructor; try done. unfold sd, on_md5.
    cbn [upload_settle]. proj_cbn. rewrite Forall_app. split; [done|]. by repeat constructor. }
  assert (Qd : requests (log sd) =
            [ReqMd5 (filePath c);
             ReqCreate (js_nullish tgt (parentFileID c))
               (basename (filePath c)) sz etag (duplicate (options c))]).
  { unfold sd, on_md5. cbn [upload_settle]. proj_cbn. unfold requests in *.
    rewrite omap_app, Qc, Qb. simpl.
    by rewrite (ut_cfg _ _ _ Uc), (ut_size _ _ _ Uc). }
  destruct (control_run c sz cs2 sd H2 Ud) as (s0 & R0 & U0 & P0 & Q0);
    [done|].
  change (pc sd) with (PcCreate tgt) in P0.
  (* the create-task response *)
  set (s := upload_settle (upload_complete
                {| target := tgt; ctxFileID := fileID d;
                   ctxPreuploadID := preuploadID d |} s0)).
  assert (Ss : step s0 (CreateReply (Resp 0 msg d)) = Some s).
  { rewrite (step_upload s0 _ (on_create tgt (Resp 0 msg d) s0)).
    - unfold on_create. rewrite decide_False by (by intros ?).
      unfold upload_created. rewrite Hreuse.
      by rewrite flush_flushed by (by intros ctx r).
    - unfold upload_resume. by rewrite P0, Hreuse. }
  exists s0, s. split_and!.
  - rewrite run_app, Ra. simpl. rewrite Sb. simpl.
    rewrite run_app, Rc. simpl. rewrite Sd. simpl. exact R0.
  - exact Ss.
  - unfold s, upload_complete, completedInfo. cbv zeta. proj_cbn.
    cbn [upload_settle target ctxFileID ctxPreuploadID]. proj_cbn.
    by rewrite (ut_cfg _ _ _ U0).
  - done.
  - unfold s, upload_complete, completedInfo. cbv zeta.
    cbn [upload_settle]. proj_cbn.
    cbn [target ctxFileID ctxPreuploadID].
    rewrite (ut_cfg _ _ _ U0), (ut_size _ _ _ U0). by rewrite <- app_assoc.
  - unfold s, upload_complete. cbv zeta. cbn [upload_settle]. proj_cbn.
    unfold requests in *. rewrite !omap_app, Q0, Qd. simpl.
    by rewrite ?app_nil_r.
  - intros f Hf Hne. unfold info. cbn [fileId]. rewrite Hf. unfold js_or.
    by rewrite decide_False.
  - intros ->. done.
  - intros ins s' _ Hrun.
    eapply settled_idle_run in Hrun as (_ & _ & _ & _ & Hlog); [done|].
    destruct U0. split_and!.
    + done.
    + eexists. reflexivity.
    + discriminate.
    + discriminate.
    + unfold s, upload_complete. cbv zeta. cbn [upload_settle]. proj_cbn.
      rewrite !Forall_app. split_and!; [done|..]; by repeat constructor.
Qed.

(** [upload()] without target, with [pause()] and [cancel()] called
    before the create-task response arrives. *)
Lemma reuse_completes_without_chunk_work_witness :
  ∃ s, run (newUploader exampleConfig 10)
         [CallUpload None; CallPause; Md5Done (inr "etag"); CallCancel;
          CreateReply (createReply true)] = Some s
    ∧ pc s = PcDone (Resolved (Some
        {| fileId := "F1"; filename := "video.mp4" |}))
    ∧ status s = StCompleted.
Proof.
  destruct (reuse_completes_without_chunk_work exampleConfig 10 None "etag"
    "ok" {| fileID := Some "F1"; reuse := true; preuploadID := "P1";
            sliceSize := 4 |} [] [CallPause] [CallCancel] eq_refl)
    as (s0 & s & Hrun & Hstep & Hpc & Hst & _).
  - constructor.
  - by repeat constructor.
  - by repeat constructor.
  - exists s. split_and!; [|exact Hpc|exact Hst].
    change [CallUpload None; CallPause; Md5Done (inr "etag"); CallCancel;
            CreateReply (createReply true)]
      with (([] ++ CallUpload None :: [CallPause]
               ++ Md5Done (inr "etag") :: [CallCancel])
              ++ [CreateReply (createReply true)]).
    rewrite run_app, Hrun. unfold createReply.
    cbn [run mbind option_bind]. by rewrite Hstep.
Defined.

(** * Further properties

    ** The planned chunks, read back *)

Lemma concat_slices {A} (l : list A) (m k : nat) :
  concat ((λ i, take m (drop (i * m) l)) <$> seq 0 k) = take (k * m) l.
Proof.
  induction k as [|k IH]; [done|].
  rewrite seq_S, fmap_app, concat_app, IH. simpl.
  rewrite app_nil_r, take_take_drop. f_equal. lia.
Qed.

(** The chunk planned at position [i] of a file with content [content]
    is read as the [i]-th slice of the content. *)
Lemma planned_read (content : list Byte.byte) (sliceSize : Z) uid n c
    (i : nat) :
  0 < sliceSize →
  Z.of_nat i < ceil_div (Z.of_nat (length content)) sliceSize →
  let t := planTask (Z.of_nat (length content)) sliceSize uid n c i in
  readChunk (Bytes content) (Task.start t) (Task.chunkSize t) =
    Some (inr (take (Z.to_nat sliceSize)
                 (drop (i * Z.to_nat sliceSize) content))).
Proof.
  intros Hs Hi t.
  pose proof (ceil_div_bounds (Z.of_nat (length content)) sliceSize
                ltac:(lia)) as Hb.
  assert (Hc : Task.chunkSize t =
            if decide (Z.of_nat i + 1 =
                         ceil_div (Z.of_nat (length content)) sliceSize)
            then Z.of_nat (length content) - Z.of_nat i * sliceSize
            else sliceSize)
    by (apply planTask_chunkSize; lia).
  assert (Hst : Task.start t = Z.of_nat i * sliceSize) by done.
  rewrite readChunk_bytes by (case_decide; nia).
  rewrite Hst, Hc.
  replace (Z.to_nat (Z.of_nat i * sliceSize)) with (i * Z.to_nat sliceSize)%nat
    by nia.
  case_decide; [|done].
  assert (Hl : length (drop (i * Z.to_nat sliceSize) content) =
            Z.to_nat (Z.of_nat (length content) - Z.of_nat i * sliceSize)).
  { rewrite length_drop. nia. }
  rewrite !take_ge; [done|rewrite Hl; nia|rewrite Hl; lia].
Qed.

(** X1. For a slice size [> 0], every chunk that [uploadChunks] plans
    for a file is read by [readChunk] without error, and the buffers of
    the chunks, concatenated in the order of their part numbers, are the
    content of the file, byte for byte. *)
Theorem chunk_reads_compose (content : list Byte.byte) (sliceSize : Z)
    (uid : string) (ctl0 : nat) :
  0 < sliceSize →
  ∃ datas,
    Forall2
      (λ t data,
         readChunk (Bytes content) (Task.start t) (Task.chunkSize t) =
           Some (inr data))
      (chunkPlan (Z.of_nat (length content)) sliceSize uid ctl0) datas
    ∧ concat datas = content.
Proof.
  intros Hs.
  set (n := ceil_div (Z.of_nat (length content)) sliceSize).
  exists ((λ i, take (Z.to_nat sliceSize)
                  (drop (i * Z.to_nat sliceSize) content))
            <$> seq 0 (Z.to_nat n)).
  split.
  - unfold chunkPlan, planTasks. fold n.
    apply Forall2_fmap, Forall_Forall2_diag, Forall_forall.
    intros i Hi%elem_of_seq.
    apply planned_read; [done|]. fold n. lia.
  - rewrite concat_slices. apply take_ge.
    pose proof (ceil_div_bounds (Z.of_nat (length content)) sliceSize Hs)
      as Hb.
    fold n in Hb. nia.
Qed.

Lemma chunk_reads_compose_witness :
  ∃ datas,
    Forall2
      (λ t data,
         readChunk (Bytes [Byte.x01; Byte.x02; Byte.x03; Byte.x04; Byte.x05])
           (Task.start t) (Task.chunkSize t) = Some (inr data))
      (chunkPlan 5 2 "P1" 0) datas
    ∧ concat datas = [Byte.x01; Byte.x02; Byte.x03; Byte.x04; Byte.x05].
Proof.
  apply (chunk_reads_compose
           [Byte.x01; Byte.x02; Byte.x03; Byte.x04; Byte.x05] 2 "P1" 0%nat).
  lia.
Defined.

(** ** The queue and the tasks: what holds at every moment *)

Ltac qi_unfold :=
  unfold pending, task_status, task_ctl, all_completed, set_task_status in *;
  proj_cbn.

Lemma task_status_set_ne p q v s :
  p ≠ q → task_status (set_task_status p v s) q = task_status s q.
Proof.
  intros Hne. unfold task_status, set_task_status. proj_cbn.
  by rewrite task_at_update_ne.
Qed.

Lemma task_status_set_eq p v s :
  task_status (set_task_status p v s) p = (λ _, v) <$> task_status s p.
Proof.
  unfold task_status, set_task_status. proj_cbn.
  rewrite task_at_update_eq. by destruct (task_at p (chunkTasks s)).
Qed.

Lemma well_numbered_update p f ts :
  (∀ t, Task.chunk (f t) = Task.chunk t) →
  well_numbered ts → well_numbered (task_update p f ts).
Proof.
  intros Hf Hw i t. destruct p as [|j]; [apply Hw|]. simpl.
  destruct (decide (j = i)) as [->|Hne].
  - rewrite list_lookup_alter_eq. destruct (ts !! i) eqn:E; [|done].
    simpl. intros [= <-]. rewrite Hf. by eapply Hw.
  - rewrite list_lookup_alter_ne by done. apply Hw.
Qed.

Lemma length_task_update p f ts : length (task_update p f ts) = length ts.
Proof. destruct p; [done|]. apply length_alter. Qed.

Lemma task_at_lookup p ts t :
  task_at p ts = Some t → ∃ i, p = S i ∧ ts !! i = Some t.
Proof. destruct p as [|i]; [done|]. eauto. Qed.

Lemma all_completed_status s p st :
  all_completed s → task_status s p = Some st → st = TCompleted.
Proof.
  intros Ha Hs. unfold task_status in Hs.
  destruct (task_at p (chunkTasks s)) as [t|] eqn:E; [|done].
  apply task_at_lookup in E as (i & -> & Hi).
  injection Hs as <-. by eapply Ha.
Qed.

(** Distinct part numbers of existing tasks, as many as there are tasks,
    are all the part numbers. *)
Lemma parts_cover (ps : list nat) (ts : list Task.t) :
  NoDup ps → (∀ p, p ∈ ps → is_Some (task_at p ts)) →
  length ps = length ts →
  ps ≡ₚ seq 1 (length ts).
Proof.
  intros Hnd Hin Hlen.
  apply submseteq_length_Permutation; [|rewrite length_seq; lia].
  apply NoDup_submseteq; [done|].
  intros p Hp. apply Hin in Hp as [t Ht].
  apply task_at_lookup in Ht as (i & -> & Hi).
  apply elem_of_seq. apply lookup_lt_Some in Hi. lia.
Qed.

Lemma sum_sizes_update p f ts :
  (∀ t, Task.chunkSize (f t) = Task.chunkSize t) →
  sum_sizes (task_update p f ts) = sum_sizes ts.
Proof.
  intros Hf. destruct p as [|i]; [done|]. unfold sum_sizes. simpl.
  revert i. induction ts as [|t ts IH]; intros i; [done|].
  destruct i as [|i]; simpl; [by rewrite Hf|]. f_equal. apply IH.
Qed.

Lemma sizes_fit_update n p f ts :
  (∀ t, Task.chunkSize (f t) = Task.chunkSize t) →
  sizes_fit n ts → sizes_fit n (task_update p f ts).
Proof.
  intros Hf [H1 H2]. split; [|by rewrite sum_sizes_update].
  destruct p as [|i]; [done|]. simpl.
  apply Forall_alter; [done|]. intros t _ Ht. by rewrite Hf.
Qed.

Lemma progress_within_update m p f ts :
  (∀ t, Task.chunkSize (f t) = Task.chunkSize t) →
  progress_within m ts → progress_within m (task_update p f ts).
Proof.
  intros Hf H q v Hq. destruct (H q v Hq) as (t & Ht & Hb).
  destruct (decide (p = q)) as [->|Hne].
  - exists (f t). rewrite task_at_update_eq, Ht. by rewrite Hf.
  - exists t. by rewrite task_at_update_ne.
Qed.

Lemma sum_sizes_snoc ts t :
  sum_sizes (ts ++ [t]) = sum_sizes ts + Task.chunkSize t.
Proof.
  unfold sum_sizes. induction ts as [|u ts IH]; simpl; [lia|].
  rewrite IH. lia.
Qed.

(** The first [k] planned chunks, when the last of them starts inside the
    file, have lengths that add up to the offset where they end. *)
Lemma planTasks_prefix_sizes (size sl : Z) (uid : string) (n : Z) (c0 k : nat) :
  0 < sl → 0 ≤ size → (k = 0%nat ∨ (Z.of_nat k - 1) * sl < size) →
  let ts := (λ i, planTask size sl uid n (c0 + i)%nat i) <$> seq 0 k in
  Forall (λ t, 0 ≤ Task.chunkSize t) ts
  ∧ sum_sizes ts = Z.min (Z.of_nat k * sl) size.
Proof.
  intros Hsl Hsz. induction k as [|k IH]; intros Hk ts.
  { split; [constructor|]. unfold ts. simpl. lia. }
  destruct IH as [IH1 IH2]; [destruct k; [by left|right; nia]|].
  destruct Hk as [?|Hk]; [done|].
  unfold ts. rewrite seq_S, fmap_app. simpl. split.
  - apply Forall_app. split; [done|]. constructor; [|constructor].
    simpl. nia.
  - rewrite sum_sizes_snoc, IH2. simpl. nia.
Qed.

Lemma plan_sizes_fit (size sl : Z) (uid : string) (c0 : nat) :
  0 ≤ size → sizes_fit size (planTasks size sl uid (ceil_div size sl) c0).
Proof.
  intros Hsz. unfold planTasks.
  destruct (decide (0 < sl)) as [Hsl|Hsl].
  - pose proof (ceil_div_bounds size sl Hsl) as Hb.
    destruct (planTasks_prefix_sizes size sl uid (ceil_div size sl) c0
                (Z.to_nat (ceil_div size sl)) Hsl Hsz) as [H1 H2].
    { destruct (Z.to_nat (ceil_div size sl)) eqn:E; [by left|right].
      rewrite <- E. nia. }
    split; [done|]. rewrite H2. lia.
  - assert (Hn : ceil_div size sl ≤ 0).
    { unfold ceil_div. destruct (decide (sl = 0)) as [->|Hne].
      - by rewrite Z.div_0_r.
      - rewrite <- (Z.opp_involutive sl), Z.div_opp_opp by lia.
        pose proof (Z.div_pos size (- sl) Hsz ltac:(lia)). lia. }
    replace (Z.to_nat (ceil_div size sl)) with 0%nat by lia.
    split; [constructor|done].
Qed.

Lemma ctl_update_ne p q f ts :
  p ≠ q →
  Task.controller <$> task_at q (task_update p f ts) =
    Task.controller <$> task_at q ts.
Proof. intros Hne. by rewrite task_at_update_ne. Qed.

Lemma ctl_update p q v ts :
  Task.controller <$> task_at q (task_update p (Task.set_status v) ts) =
    Task.controller <$> task_at q ts.
Proof.
  destruct (decide (p = q)) as [->|Hne]; [|by apply ctl_update_ne].
  rewrite task_at_update_eq. by destruct (task_at q ts).
Qed.

Lemma ctls_update p v ts :
  Task.controller <$> task_update p (Task.set_status v) ts =
    Task.controller <$> ts.
Proof.
  destruct p as [|i]; [done|]. simpl. apply list_eq. intros j.
  rewrite !list_lookup_fmap. destruct (decide (i = j)) as [->|Hne].
  - rewrite list_lookup_alter_eq. by destruct (ts !! j).
  - by rewrite list_lookup_alter_ne.
Qed.

Lemma Forall_ctl_update (P : nat → Prop) p v ts :
  Forall (λ t, P (Task.controller t)) ts →
  Forall (λ t, P (Task.controller t)) (task_update p (Task.set_status v) ts).
Proof.
  intros H. destruct p as [|i]; [done|]. simpl.
  apply Forall_alter; [done|]. by intros [].
Qed.

Lemma NoDup_ctl_refresh p n ts :
  NoDup (Task.controller <$> ts) →
  Forall (λ t, (Task.controller t < n)%nat) ts →
  NoDup (Task.controller <$> task_update p (fresh_controller n) ts).
Proof.
  intros Hnd Hall. destruct p as [|i]; [done|]. simpl.
  rewrite Forall_lookup in Hall.
  assert (Hnew : ∀ a x, (Task.controller <$> alter (fresh_controller n) i ts)
                   !! a = Some x →
            (a = i ∧ x = n)
            ∨ (a ≠ i ∧ (Task.controller <$> ts) !! a = Some x ∧ (x < n)%nat)).
  { intros a x Ha. rewrite list_lookup_fmap in Ha.
    destruct (decide (i = a)) as [->|Hne].
    - left. rewrite list_lookup_alter_eq in Ha.
      destruct (ts !! a); [|done]. simpl in Ha. by injection Ha as <-.
    - right. rewrite list_lookup_alter_ne in Ha by done.
      rewrite list_lookup_fmap. split_and!; [done..|].
      destruct (ts !! a) as [u|] eqn:Eu; [|done].
      simpl in Ha. injection Ha as <-. by apply (Hall a). }
  apply NoDup_alt. intros a b x Ha Hb.
  apply Hnew in Ha as [[-> ->]|(Hai & Ha & Hax)];
    apply Hnew in Hb as [[-> Hx]|(Hbi & Hb & Hbx)]; try done; try lia.
  by eapply NoDup_lookup.
Qed.

Section queue_invariant.
Context (c : Config) (sz : Z) (R : Prop).

Lemma queue_inv_log l s : queue_inv c sz R s → queue_inv c sz R (set_log l s).
Proof. intros []. by constructor. Qed.

Lemma queue_inv_emit e s : queue_inv c sz R s → queue_inv c sz R (emit e s).
Proof. apply queue_inv_log. Qed.

Lemma queue_inv_call r s : queue_inv c sz R s → queue_inv c sz R (call r s).
Proof. apply queue_inv_log. Qed.

Lemma queue_inv_sleep ms s : queue_inv c sz R s → queue_inv c sz R (sleep ms s).
Proof. apply queue_inv_log. Qed.

Lemma queue_inv_status v s : queue_inv c sz R s → queue_inv c sz R (set_status v s).
Proof. intros []. by constructor. Qed.

Lemma queue_inv_qPaused v s : queue_inv c sz R s → queue_inv c sz R (set_qPaused v s).
Proof. intros []. by constructor. Qed.

Lemma queue_inv_resolve b s :
  queue_inv c sz R s → (b = true → all_completed s) →
  queue_inv c sz R (resolve_chunks b s).
Proof.
  intros H Hb. unfold resolve_chunks.
  destruct (pc s) as [| | |ctx [r|]| | | |] eqn:E; try done.
  destruct H. constructor; try done; proj_cbn; try done.
  destruct b; [auto|done].
Qed.

Lemma queue_inv_reject e s : queue_inv c sz R s → queue_inv c sz R (reject_chunks e s).
Proof.
  intros H. unfold reject_chunks.
  destruct (pc s) as [| | |ctx [r|]| | | |] eqn:E; try done.
  destruct H. constructor; try done; proj_cbn; done.
Qed.

Lemma queue_inv_idle s : queue_inv c sz R s → queue_inv c sz R (idle_listener s).
Proof.
  intros H. unfold idle_listener.
  destruct (listening s) eqn:Hl; [|done].
  case_decide; [by apply queue_inv_resolve|].
  case_decide as Ht.
  - apply queue_inv_resolve; [done|]. intros _ i t Hi.
    destruct H. specialize (qi_total0 Hl).
    assert (Hp : parts s ≡ₚ seq 1 (length (chunkTasks s))).
    { apply parts_cover; [done| |lia].
      intros p Hp. apply qi_parts0 in Hp. unfold task_status in Hp.
      by destruct (task_at p (chunkTasks s)). }
    assert (Hin : S i ∈ parts s).
    { rewrite Hp. apply elem_of_seq. apply lookup_lt_Some in Hi. lia. }
    apply qi_parts0 in Hin. unfold task_status in Hin. simpl in Hin.
    rewrite Hi in Hin. by injection Hin.
  - apply queue_inv_resolve; [|done]. by apply queue_inv_emit.
Qed.

Lemma status_update_ne p q f ts :
  p ≠ q →
  Task.status <$> task_at q (task_update p f ts) = Task.status <$> task_at q ts.
Proof. intros Hne. by rewrite task_at_update_ne. Qed.

Lemma status_update_eq p v ts :
  Task.status <$> task_at p (task_update p (Task.set_status v) ts) =
    (λ _, v) <$> task_at p ts.
Proof. rewrite task_at_update_eq. by destruct (task_at p ts). Qed.

Lemma size_delete_le {A} p (m : gmap nat A) :
  (base.size (delete p m) ≤ base.size m)%nat.
Proof.
  pose proof (map_size_delete p m) as Hd.
  destruct (m !! p); unfold id in Hd; lia.
Qed.

Lemma queue_inv_enter p r s :
  queue_inv c sz R s → p ∉ qJobs s →
  task_status s p = Some TPending ∨ task_status s p = Some TRunning →
  is_Some (invs s !! p) ∨ pending s < concurrency (options (cfg s)) →
  queue_inv c sz R (uploadChunk_enter p r s).
Proof.
  intros H Hq Hst Hb. unfold uploadChunk_enter.
  destruct (task_at p (chunkTasks s)) as [t|] eqn:E; [|done].
  cbv zeta. destruct H. constructor; qi_unfold.
  - done.
  - intros q Hin. rewrite status_update_ne; [auto|]. by intros ->.
  - intros q Hin. destruct (decide (q = p)) as [->|Hqp].
    + by rewrite status_update_eq, E.
    + rewrite lookup_insert_ne in Hin by done.
      rewrite status_update_ne by done. auto.
  - done.
  - intros q Hin. rewrite status_update_ne; [auto|]. intros ->.
    apply qi_parts0 in Hin. destruct Hst; congruence.
  - apply well_numbered_update; [|done]. by intros [].
  - by rewrite length_task_update.
  - destruct Hb as [[inv Hin]|Hlt].
    + by erewrite map_size_insert_Some.
    + destruct (invs s !! p) eqn:Ei.
      * by erewrite map_size_insert_Some.
      * rewrite map_size_insert_None by done. lia.
  - intros Hp. apply qi_before0 in Hp. rewrite Hp in E. by destruct p.
  - done.
  - intros Hc. specialize (qi_committed0 Hc). rewrite E in Hst.
    apply task_at_lookup in E as (i & -> & Hi).
    apply qi_committed0 in Hi. simpl in Hst. destruct Hst; congruence.
  - intros q Hc. destruct (decide (q = p)) as [->|Hne].
    + by rewrite status_update_eq, E in Hc.
    + rewrite status_update_ne in Hc by done. auto.
  - done.
  - done.
  - intros Hsz. apply sizes_fit_update; [by intros []|auto].
  - intros HR Hsz. apply progress_within_update; [by intros []|auto].
  - by apply (Forall_ctl_update (λ k, (k < nextCtl s)%nat)).
  - done.
  - by rewrite ctls_update.
  - intros q k Hq' Hk. rewrite ctl_update in Hk. eauto.
  - intros q inv sig Hq' Hsig. rewrite ctl_update.
    destruct (decide (q = p)) as [->|Hne].
    + rewrite lookup_insert_eq in Hq'. by injection Hq' as <-.
    + rewrite lookup_insert_ne in Hq' by done. eauto.
Qed.

Lemma queue_inv_tryToStartAnother s :
  queue_inv c sz R s → queue_inv c sz R (tryToStartAnother s).1.
Proof.
  intros H. unfold tryToStartAnother.
  destruct (qJobs s) as [|p rest] eqn:E; simpl.
  { case_decide; [by apply queue_inv_idle|done]. }
  destruct (negb (qPaused s) && _) eqn:Hg; [|done]. simpl.
  apply andb_prop in Hg as [_ Hlt]. apply bool_decide_eq_true in Hlt.
  assert (Hp : task_status s p = Some TPending).
  { apply (qi_queued _ _ _ _ H). rewrite E. left. }
  assert (Hnd : NoDup (p :: rest)) by (rewrite <- E; apply H).
  apply NoDup_cons in Hnd as [Hpr Hnd].
  apply queue_inv_enter; try done; [|by left|by right].
  destruct H. constructor; try done.
  - intros q Hq'. apply qi_queued0. rewrite E. by right.
  - intros q k Hq'. apply qi_live0. rewrite E. by right.
Qed.

Lemma queue_inv_enqueue p s :
  queue_inv c sz R s → task_status s p = Some TPending → p ∉ qJobs s →
  (∀ k, task_ctl s p = Some k → k ∉ abortedCtl s) →
  queue_inv c sz R (set_qJobs (qJobs s ++ [p]) s).
Proof.
  intros H Hp Hq Hlive. destruct H. constructor; try done; qi_unfold.
  - apply NoDup_app. split_and!; [done| |apply NoDup_singleton].
    intros q Hin ->%list_elem_of_singleton. done.
  - intros q [Hin| ->%list_elem_of_singleton]%elem_of_app;
      [by apply qi_queued0|done].
  - intros q k [Hin| ->%list_elem_of_singleton]%elem_of_app;
      [by apply qi_live0|by apply Hlive].
Qed.

Lemma queue_inv_queue_add p s :
  queue_inv c sz R s → task_status s p = Some TPending → p ∉ qJobs s →
  (∀ k, task_ctl s p = Some k → k ∉ abortedCtl s) →
  queue_inv c sz R (queue_add p s).
Proof.
  intros H Hp Hq Hlive. unfold queue_add.
  by apply queue_inv_tryToStartAnother, queue_inv_enqueue.
Qed.

(** An activation that has settled leaves the queue. *)
Lemma queue_inv_delete p s :
  queue_inv c sz R s → queue_inv c sz R (set_invs (delete p (invs s)) s).
Proof.
  intros []. constructor; try done; qi_unfold.
  - intros q [inv Hq]. apply qi_active0.
    apply lookup_delete_Some in Hq as [_ Hq]. by eexists.
  - pose proof (size_delete_le p (invs s)). lia.
  - intros q inv sig [_ Hq]%lookup_delete_Some. eauto.
Qed.

Lemma queue_inv_retire p v s :
  queue_inv c sz R s → is_Some (invs s !! p) → v = TAbort ∨ v = TError →
  queue_inv c sz R (set_invs (delete p (invs s)) (set_task_status p v s)).
Proof.
  intros H Hin Hv.
  assert (Hr : task_status s p = Some TRunning) by by apply H.
  destruct H. constructor; qi_unfold.
  - done.
  - intros q Hq. rewrite status_update_ne; [auto|]. intros ->.
    apply qi_queued0 in Hq. congruence.
  - intros q [inv Hq]. apply lookup_delete_Some in Hq as [Hqp Hq].
    rewrite status_update_ne by done. apply qi_active0. by eexists.
  - done.
  - intros q Hq. rewrite status_update_ne; [auto|]. intros ->.
    apply qi_parts0 in Hq. congruence.
  - apply well_numbered_update; [|done]. by intros [].
  - by rewrite length_task_update.
  - pose proof (size_delete_le p (invs s)). lia.
  - intros Hp. apply qi_before0 in Hp. rewrite Hp in Hr. by destruct p.
  - done.
  - intros Hc. specialize (qi_committed0 Hc).
    destruct (task_at p (chunkTasks s)) as [t|] eqn:E; [|done].
    apply task_at_lookup in E as (i & -> & Hi).
    apply qi_committed0 in Hi. simpl in Hr. congruence.
  - intros q Hq. destruct (decide (q = p)) as [->|Hne].
    + rewrite status_update_eq in Hq.
      destruct (task_at p (chunkTasks s)); [|done].
      simpl in Hq. destruct Hv; congruence.
    + rewrite status_update_ne in Hq by done. auto.
  - done.
  - done.
  - intros Hsz. apply sizes_fit_update; [by intros []|auto].
  - intros HR Hsz. apply progress_within_update; [by intros []|auto].
  - by apply (Forall_ctl_update (λ k, (k < nextCtl s)%nat)).
  - done.
  - by rewrite ctls_update.
  - intros q k Hq' Hk. rewrite ctl_update in Hk. eauto.
  - intros q inv sig Hq' Hsig. rewrite ctl_update.
    apply lookup_delete_Some in Hq' as [_ Hq']. eauto.
Qed.

Lemma queue_inv_complete p s :
  queue_inv c sz R s → is_Some (invs s !! p) →
  queue_inv c sz R
    (set_invs (delete p (invs s))
       (set_parts (parts s ++ [p]) (set_task_status p TCompleted s))).
Proof.
  intros H Hin.
  assert (Hr : task_status s p = Some TRunning) by by apply H.
  destruct H. constructor; qi_unfold.
  - done.
  - intros q Hq. rewrite status_update_ne; [auto|]. intros ->.
    apply qi_queued0 in Hq. congruence.
  - intros q [inv Hq]. apply lookup_delete_Some in Hq as [Hqp Hq].
    rewrite status_update_ne by done. apply qi_active0. by eexists.
  - apply NoDup_app. split_and!; [done| |apply NoDup_singleton].
    intros q Hq ->%list_elem_of_singleton. apply qi_parts0 in Hq.
    congruence.
  - intros q [Hq| ->%list_elem_of_singleton]%elem_of_app.
    + rewrite status_update_ne; [auto|]. intros ->.
      apply qi_parts0 in Hq. congruence.
    + rewrite status_update_eq.
      by destruct (task_at p (chunkTasks s)).
  - apply well_numbered_update; [|done]. by intros [].
  - by rewrite length_task_update.
  - pose proof (size_delete_le p (invs s)). lia.
  - intros Hp. apply qi_before0 in Hp. rewrite Hp in Hr. by destruct p.
  - done.
  - intros Hc. specialize (qi_committed0 Hc).
    destruct (task_at p (chunkTasks s)) as [t|] eqn:E; [|done].
    apply task_at_lookup in E as (i & -> & Hi).
    apply qi_committed0 in Hi. simpl in Hr. congruence.
  - intros q Hq. apply elem_of_app.
    destruct (decide (q = p)) as [->|Hne]; [right; left|left].
    rewrite status_update_ne in Hq by done. auto.
  - done.
  - done.
  - intros Hsz. apply sizes_fit_update; [by intros []|auto].
  - intros HR Hsz. apply progress_within_update; [by intros []|auto].
  - by apply (Forall_ctl_update (λ k, (k < nextCtl s)%nat)).
  - done.
  - by rewrite ctls_update.
  - intros q k Hq' Hk. rewrite ctl_update in Hk. eauto.
  - intros q inv sig Hq' Hsig. rewrite ctl_update.
    apply lookup_delete_Some in Hq' as [_ Hq']. eauto.
Qed.

Lemma queue_inv_restage p inv s :
  queue_inv c sz R s → is_Some (invs s !! p) →
  (∀ sig, stage inv = SPut sig → task_ctl s p = Some sig) →
  queue_inv c sz R (set_invs (<[p := inv]> (invs s)) s).
Proof.
  intros [] [inv0 Hin] Hsig. constructor; try done; qi_unfold.
  - intros q [inv1 Hq]. apply qi_active0.
    destruct (decide (q = p)) as [->|Hne]; [by eexists|].
    rewrite lookup_insert_ne in Hq by done. by eexists.
  - by erewrite map_size_insert_Some.
  - intros q inv1 sig Hq Hst.
    destruct (decide (q = p)) as [->|Hne].
    + rewrite lookup_insert_eq in Hq. injection Hq as <-. auto.
    + rewrite lookup_insert_ne in Hq by done. eauto.
Qed.

Lemma queue_inv_report p t l s :
  queue_inv c sz R s → task_at p (chunkTasks s) = Some t →
  (R → 0 ≤ sz → 0 ≤ l ≤ Task.chunkSize t) →
  queue_inv c sz R (set_progress (<[p := l]> (progress s)) s).
Proof.
  intros [] Ht Hl. constructor; try done; qi_unfold.
  intros HR Hsz q v Hq. destruct (decide (q = p)) as [->|Hne].
  - rewrite lookup_insert_eq in Hq. injection Hq as <-. eauto.
  - rewrite lookup_insert_ne in Hq by done. by apply qi_progress0.
Qed.

Lemma queue_inv_abortedCtl m s :
  queue_inv c sz R s → (∀ k, k ∈ m → (k < nextCtl s)%nat) →
  (∀ p k, p ∈ qJobs s → task_ctl s p = Some k → k ∉ m) →
  queue_inv c sz R (set_abortedCtl m s).
Proof. intros [] ? ?. by constructor. Qed.

Lemma queue_inv_chunkSize v s : queue_inv c sz R s → queue_inv c sz R (set_chunkSize v s).
Proof. intros []. by constructor. Qed.

Lemma queue_inv_set_pc P s :
  queue_inv c sz R s → (before_chunks P → before_chunks (pc s)) →
  (committed P → all_completed s) → queue_inv c sz R (set_pc P s).
Proof. intros [] ? ?. constructor; try done; proj_cbn; auto. Qed.

Lemma queue_inv_taskClear s : queue_inv c sz R s → queue_inv c sz R (taskClear s).
Proof.
  intros []. unfold taskClear. constructor; try done; qi_unfold.
  - apply NoDup_nil_2.
  - by intros q Hq%elem_of_nil.
  - intros k [Hk|Hk]%elem_of_union; [auto|].
    apply elem_of_list_to_set, list_elem_of_fmap in Hk as (t & -> & Ht).
    rewrite Forall_forall in qi_ctl0. auto.
  - by intros q k Hq%elem_of_nil.
Qed.

Lemma queue_inv_error_listener e s :
  queue_inv c sz R s → queue_inv c sz R (error_listener e s).
Proof.
  intros H. unfold error_listener. case_match; [|done].
  by apply queue_inv_reject, queue_inv_taskClear.
Qed.

Lemma queue_inv_upload_catch e s : queue_inv c sz R s → queue_inv c sz R (upload_catch e s).
Proof.
  intros H. unfold upload_catch. case_decide; [|case_match].
  - by apply queue_inv_set_pc.
  - apply queue_inv_set_pc; [|done..].
    by apply queue_inv_status, queue_inv_emit.
  - by apply queue_inv_set_pc.
Qed.

Lemma queue_inv_flush s : queue_inv c sz R s → queue_inv c sz R (flush s).
Proof.
  intros H. unfold flush.
  destruct (pc s) as [| | |ctx [[e|[|]]|]| | | |] eqn:E; try done; simpl.
  - by apply queue_inv_upload_catch.
  - apply queue_inv_set_pc; [by apply queue_inv_call|done|].
    intros _. apply (qi_committed _ _ _ _ H). by rewrite E.
  - case_decide; simpl; [by apply queue_inv_upload_catch|].
    by apply queue_inv_set_pc.
Qed.

Lemma queue_inv_processQueue fuel s :
  queue_inv c sz R s → queue_inv c sz R (processQueue fuel s).
Proof.
  revert s. induction fuel as [|fuel IH]; intros s H; simpl; [done|].
  pose proof (queue_inv_tryToStartAnother s H) as H'.
  destruct (tryToStartAnother s) as [s' [|]]; simpl in H'; auto.
Qed.

Lemma queue_inv_queue_start s : queue_inv c sz R s → queue_inv c sz R (queue_start s).
Proof.
  intros H. unfold queue_start. case_match; [|done].
  by apply queue_inv_processQueue, queue_inv_qPaused.
Qed.

Lemma queue_inv_job_return p r s :
  queue_inv c sz R s → is_Some (invs s !! p) → r = None ∨ r = Some p →
  queue_inv c sz R (job_return p r s).
Proof.
  intros H Hin Hr. unfold job_return, next, completed_listener.
  apply queue_inv_tryToStartAnother.
  destruct (listening s); [|by apply queue_inv_delete].
  destruct Hr as [-> | ->]; [by apply queue_inv_delete|].
  exact (queue_inv_complete p s H Hin).
Qed.

Lemma set_invs_error_listener m e s :
  set_invs m (error_listener e s) = error_listener e (set_invs m s).
Proof.
  unfold error_listener, reject_chunks, taskClear. proj_cbn.
  destruct (listening s); [|done].
  by destruct (pc s) as [| | |ctx [r|]| | | |].
Qed.

Lemma queue_inv_job_throw p e v s :
  queue_inv c sz R s → is_Some (invs s !! p) → v = TAbort ∨ v = TError →
  queue_inv c sz R (job_throw p e (set_task_status p v s)).
Proof.
  intros H Hin Hv. unfold job_throw, next.
  apply queue_inv_emit, queue_inv_flush.
  rewrite set_invs_error_listener.
  apply queue_inv_tryToStartAnother, queue_inv_error_listener.
  replace (invs (error_listener e (set_task_status p v s))) with (invs s).
  - by apply queue_inv_retire.
  - unfold error_listener, reject_chunks, taskClear, set_task_status.
    proj_cbn. destruct (listening s); [|done].
    by destruct (pc s) as [| | |ctx [r|]| | | |].
Qed.

Lemma completed_listener_None s : completed_listener None s = s.
Proof. unfold completed_listener. by case_match. Qed.

Lemma queue_inv_uploadChunk_catch p inv e s :
  queue_inv c sz R s → is_Some (invs s !! p) →
  queue_inv c sz R (uploadChunk_catch p inv e s).
Proof.
  intros H Hin. unfold uploadChunk_catch. case_match.
  - unfold job_return, next. rewrite completed_listener_None.
    apply queue_inv_tryToStartAnother.
    exact (queue_inv_retire p TAbort s H Hin (or_introl eq_refl)).
  - case_decide.
    + apply (queue_inv_restage p _ (sleep _ s)); [|done..].
      by apply queue_inv_sleep.
    + apply queue_inv_job_throw; auto.
Qed.

Lemma queue_inv_on_read p t inv r s :
  queue_inv c sz R s → is_Some (invs s !! p) → queue_inv c sz R (on_read p t inv r s).
Proof.
  intros H Hin. unfold on_read. destruct r.
  - by apply queue_inv_uploadChunk_catch.
  - apply (queue_inv_restage p _ (call _ s)); [|done..].
    by apply queue_inv_call.
Qed.

Lemma queue_inv_on_url p t inv data r s :
  queue_inv c sz R s → is_Some (invs s !! p) →
  task_at p (chunkTasks s) = Some t →
  queue_inv c sz R (on_url p t inv data r s).
Proof.
  intros H Hin Ht. unfold on_url, getChunkUploadUrl_catch.
  destruct r as [code msg d|msg].
  - case_decide.
    + apply queue_inv_uploadChunk_catch; [by apply queue_inv_emit|done].
    + apply (queue_inv_restage p _ (call _ s)); [by apply queue_inv_call|done|].
      intros sig [= <-]. unfold task_ctl. proj_cbn. by rewrite Ht.
  - apply queue_inv_uploadChunk_catch; [by apply queue_inv_emit|done].
Qed.

Lemma queue_inv_on_put p inv r s :
  queue_inv c sz R s → is_Some (invs s !! p) → queue_inv c sz R (on_put p inv r s).
Proof.
  intros H Hin. unfold on_put. destruct r.
  - by apply queue_inv_uploadChunk_catch.
  - apply queue_inv_job_return; auto.
Qed.

Lemma queue_inv_on_put_progress p t l s :
  queue_inv c sz R s → task_at p (chunkTasks s) = Some t →
  (R → 0 ≤ sz → 0 ≤ l ≤ Task.chunkSize t) →
  queue_inv c sz R (on_put_progress p t l s).
Proof.
  intros H Ht Hl. unfold on_put_progress.
  by apply queue_inv_emit, (queue_inv_report p t).
Qed.

Lemma queue_inv_on_retry_timer p inv s :
  queue_inv c sz R s → is_Some (invs s !! p) → queue_inv c sz R (on_retry_timer p inv s).
Proof.
  intros H Hin. unfold on_retry_timer.
  assert (Hr : task_status s p = Some TRunning) by by apply H.
  apply queue_inv_enter; auto.
  intros Hq. apply (qi_queued _ _ _ _ H) in Hq. congruence.
Qed.

Lemma queue_inv_pause s : queue_inv c sz R s → queue_inv c sz R (pause s).
Proof.
  intros H. unfold pause. case_decide; [done|].
  assert (Hf : ∀ l s, queue_inv c sz R s → l ⊆ chunkTasks s →
            queue_inv c sz R (foldl pause_task s l)).
  { clear. induction l as [|t l IH]; intros s H Hl; simpl; [done|].
    assert (Hs : chunkTasks (pause_task s t) = chunkTasks s)
      by (unfold pause_task; by case_decide).
    apply IH; [|rewrite Hs; intros u Hu; apply Hl; by right].
    unfold pause_task. case_decide; [|done].
    assert (Ht : t ∈ chunkTasks s) by (apply Hl; left).
    apply list_elem_of_lookup in Ht as [i Hi].
    assert (Hti : task_at (partNumber t) (chunkTasks s) = Some t).
    { unfold partNumber. by rewrite (qi_numbered _ _ _ _ H _ _ Hi). }
    apply queue_inv_abortedCtl; [apply (queue_inv_report _ t); [done..|]| |].
    - intros _ Hsz. destruct (qi_shape _ _ _ _ H Hsz) as [Hall _].
      rewrite Forall_lookup in Hall. specialize (Hall _ _ Hi). simpl in *.
      lia.
    - proj_cbn. intros k [Hk|Hk]%elem_of_union; [|by apply H].
      apply elem_of_singleton in Hk as ->.
      pose proof (qi_ctl _ _ _ _ H) as Hc. rewrite Forall_lookup in Hc.
      by apply (Hc i t).
    - intros p k Hp Hk Hin. unfold task_ctl in Hk. proj_cbn.
      apply elem_of_union in Hin as [Hin|Hin];
        [|by apply (qi_live _ _ _ _ H p k)].
      apply elem_of_singleton in Hin as ->.
      pose proof (qi_queued _ _ _ _ H p Hp) as Hst.
      unfold task_status in *.
      destruct (task_at p (chunkTasks s)) as [u|] eqn:Eu; [|done].
      apply task_at_lookup in Eu as (j & -> & Hj).
      assert (i = j).
      { apply (NoDup_lookup (Task.controller <$> chunkTasks s)
                 i j (Task.controller t)); [apply H|..].
        - by rewrite list_lookup_fmap, Hi.
        - by rewrite list_lookup_fmap, Hj. }
      subst j. rewrite Hi in Hj. injection Hj as <-.
      simpl in Hst. congruence. }
  apply Hf; [by apply queue_inv_qPaused, queue_inv_status|done].
Qed.

Lemma queue_inv_cancel s : queue_inv c sz R s → queue_inv c sz R (cancel s).
Proof.
  intros H. unfold cancel.
  by apply queue_inv_emit, queue_inv_taskClear, queue_inv_status.
Qed.

(** What the queue starts is a queued job: the task of any other part
    keeps its status. *)
Lemma resolve_chunks_chunkTasks b s :
  chunkTasks (resolve_chunks b s) = chunkTasks s.
Proof.
  unfold resolve_chunks. by destruct (pc s) as [| | |ctx [r|]| | | |].
Qed.

Lemma idle_listener_chunkTasks s : chunkTasks (idle_listener s) = chunkTasks s.
Proof.
  unfold idle_listener. repeat case_match;
    rewrite ?resolve_chunks_chunkTasks; done.
Qed.

Lemma resolve_chunks_qJobs b s : qJobs (resolve_chunks b s) = qJobs s.
Proof.
  unfold resolve_chunks. by destruct (pc s) as [| | |ctx [r|]| | | |].
Qed.

Lemma idle_listener_qJobs s : qJobs (idle_listener s) = qJobs s.
Proof.
  unfold idle_listener. repeat case_match;
    rewrite ?resolve_chunks_qJobs; done.
Qed.

Lemma tryToStartAnother_status_other s q :
  q ∉ qJobs s →
  task_status (tryToStartAnother s).1 q = task_status s q.
Proof.
  intros Hq. unfold tryToStartAnother, task_status.
  destruct (qJobs s) as [|p rest] eqn:E; simpl.
  { case_decide; [|done]. by rewrite idle_listener_chunkTasks. }
  case_match; [|done]. simpl. unfold uploadChunk_enter. proj_cbn.
  case_match; [|done]. unfold set_task_status. proj_cbn.
  apply status_update_ne. intros ->. apply Hq. left.
Qed.

Lemma tryToStartAnother_qJobs_sub s q :
  q ∈ qJobs (tryToStartAnother s).1 → q ∈ qJobs s.
Proof.
  unfold tryToStartAnother.
  destruct (qJobs s) as [|p rest] eqn:E; simpl.
  { case_decide; [|by rewrite E]. by rewrite idle_listener_qJobs, E. }
  case_match; simpl; [|by rewrite E].
  rewrite uploadChunk_enter_qJobs. proj_cbn. by right.
Qed.

Lemma tryToStartAnother_length s :
  length (chunkTasks (tryToStartAnother s).1) = length (chunkTasks s).
Proof.
  unfold tryToStartAnother.
  destruct (qJobs s) as [|p rest] eqn:E; simpl.
  { case_decide; [|done]. by rewrite idle_listener_chunkTasks. }
  case_match; [|done]. simpl. unfold uploadChunk_enter. proj_cbn.
  case_match; [|done]. unfold set_task_status. proj_cbn.
  apply length_task_update.
Qed.

Lemma status_update_fresh p ctl ts :
  Task.status <$> task_at p (task_update p (fresh_controller ctl) ts) =
    (λ _, TPending) <$> task_at p ts.
Proof. rewrite task_at_update_eq. by destruct (task_at p ts). Qed.

Lemma queue_inv_refresh p s :
  queue_inv c sz R s → task_status s p = Some TAbort →
  queue_inv c sz R
    (set_nextCtl (S (nextCtl s))
       (set_chunkTasks
          (task_update p (fresh_controller (nextCtl s)) (chunkTasks s)) s)).
Proof.
  intros H Hp. destruct H. constructor; qi_unfold.
  - done.
  - intros q Hq. rewrite status_update_ne; [auto|]. intros ->.
    apply qi_queued0 in Hq. congruence.
  - intros q Hq. rewrite status_update_ne; [auto|]. intros ->.
    apply qi_active0 in Hq. congruence.
  - done.
  - intros q Hq. rewrite status_update_ne; [auto|]. intros ->.
    apply qi_parts0 in Hq. congruence.
  - apply well_numbered_update; [|done]. by intros [].
  - by rewrite length_task_update.
  - done.
  - intros Hb. apply qi_before0 in Hb. rewrite Hb in Hp. by destruct p.
  - done.
  - intros Hc. specialize (qi_committed0 Hc).
    destruct (task_at p (chunkTasks s)) as [t|] eqn:E; [|done].
    apply task_at_lookup in E as (i & -> & Hi).
    apply qi_committed0 in Hi. simpl in Hp. congruence.
  - intros q Hq. destruct (decide (q = p)) as [->|Hne].
    + rewrite status_update_fresh in Hq.
      by destruct (task_at p (chunkTasks s)).
    + rewrite status_update_ne in Hq by done. auto.
  - done.
  - done.
  - intros Hsz. apply sizes_fit_update; [by intros []|auto].
  - intros HR Hsz. apply progress_within_update; [by intros []|auto].
  - assert (Hw : Forall (λ t, (Task.controller t < S (nextCtl s))%nat)
              (chunkTasks s)).
    { eapply Forall_impl; [exact qi_ctl0|]. intros t Ht. simpl in Ht. lia. }
    destruct p as [|i]; [done|]. simpl. apply Forall_alter; [done|].
    intros t _ _. simpl. lia.
  - intros k Hk. apply qi_aborted0 in Hk. lia.
  - by apply NoDup_ctl_refresh.
  - intros q k Hq Hk. rewrite ctl_update_ne in Hk; [eauto|].
    intros ->. apply qi_queued0 in Hq. congruence.
  - intros q inv sig Hq Hsig. rewrite ctl_update_ne; [eauto|].
    intros ->. assert (Hin : is_Some (invs s !! q)) by by eexists.
    apply qi_active0 in Hin. congruence.
Qed.

Lemma queue_inv_resume_task s p :
  queue_inv c sz R s → task_status s p = Some TAbort →
  queue_inv c sz R (resume_task s p)
  ∧ ∀ q, q ≠ p → task_status s q = Some TAbort →
      task_status (resume_task s p) q = Some TAbort.
Proof.
  intros H Hp.
  assert (Hq : p ∉ qJobs s).
  { intros Hq. apply (qi_queued _ _ _ _ H) in Hq. congruence. }
  pose proof (queue_inv_refresh p s H Hp) as H1.
  unfold resume_task. set (s1 := set_nextCtl _ _) in *.
  assert (Hp1 : task_status s1 p = Some TPending).
  { unfold task_status, s1 in *. proj_cbn. rewrite status_update_fresh.
    by destruct (task_at p (chunkTasks s)). }
  split.
  { apply queue_inv_queue_add; [done..|].
    intros k Hk Hin. unfold task_ctl, s1 in Hk. proj_cbn.
    rewrite task_at_update_eq in Hk.
    destruct (task_at p (chunkTasks s)); [|done].
    simpl in Hk. injection Hk as <-.
    apply (qi_aborted _ _ _ _ H) in Hin. lia. }
  intros q Hne Hq'. unfold queue_add.
  rewrite tryToStartAnother_status_other.
  - unfold task_status, s1 in *. proj_cbn.
    by rewrite status_update_ne.
  - proj_cbn. intros [Hin| ->%list_elem_of_singleton]%elem_of_app; [|done].
    apply (qi_queued _ _ _ _ H) in Hin. congruence.
Qed.

Lemma queue_inv_foldl_resume_task l s :
  NoDup l → queue_inv c sz R s → (∀ p, p ∈ l → task_status s p = Some TAbort) →
  queue_inv c sz R (foldl resume_task s l).
Proof.
  revert s. induction l as [|p l IH]; intros s Hnd H Hl; simpl; [done|].
  apply NoDup_cons in Hnd as [Hpl Hnd].
  destruct (queue_inv_resume_task s p H) as [H1 H2]; [apply Hl; left|].
  apply IH; [done..|].
  intros q Hq. apply H2; [by intros ->|]. apply Hl. by right.
Qed.

Lemma queue_inv_resume s : queue_inv c sz R s → queue_inv c sz R (resume s).
Proof.
  intros H. unfold resume. case_decide; [done|].
  apply queue_inv_queue_start.
  pose proof (qi_numbered _ _ _ _ H) as Hw.
  apply queue_inv_foldl_resume_task.
  - exact (abortedTasks_NoDup s Hw).
  - by apply queue_inv_status.
  - intros p Hp.
    apply (abortedTasks_spec s p Hw) in Hp as (t & Ht & Hst).
    unfold task_status. proj_cbn. by rewrite Ht; simpl; rewrite Hst.
Qed.

(** The planning loop never finds the queue empty, so it does not look
    at where [upload] stands. *)
Lemma queue_add_set_pc P p s :
  queue_add p (set_pc P s) = set_pc P (queue_add p s).
Proof.
  unfold queue_add, tryToStartAnother. proj_cbn.
  destruct (qJobs s ++ [p]) as [|q rest] eqn:E; [by destruct (qJobs s)|].
  unfold pending. proj_cbn. case_match; [|done]. simpl.
  unfold uploadChunk_enter, set_task_status. proj_cbn. by case_match.
Qed.

Lemma foldl_queue_add_set_pc P (ts : list Task.t) s :
  foldl (λ s t, queue_add (partNumber t) s) (set_pc P s) ts =
    set_pc P (foldl (λ s t, queue_add (partNumber t) s) s ts).
Proof.
  revert s. induction ts as [|t ts IH]; intros s; simpl; [done|].
  by rewrite queue_add_set_pc, IH.
Qed.

Lemma uploadChunks_set_pc P uid n s :
  uploadChunks uid n (set_pc P s) = set_pc P (uploadChunks uid n s).
Proof.
  unfold uploadChunks. proj_cbn.
  set (tasks := planTasks _ _ _ _ _). set (k := (_ + _)%nat).
  change (set_chunkTasks tasks (set_nextCtl k (set_pc P s)))
    with (set_pc P (set_chunkTasks tasks (set_nextCtl k s))).
  by rewrite foldl_queue_add_set_pc.
Qed.

Lemma queue_add_length p s :
  length (chunkTasks (queue_add p s)) = length (chunkTasks s).
Proof. unfold queue_add. by rewrite tryToStartAnother_length. Qed.

Lemma resolve_chunks_abortedCtl b s :
  abortedCtl (resolve_chunks b s) = abortedCtl s.
Proof.
  unfold resolve_chunks. by destruct (pc s) as [| | |ctx [r|]| | | |].
Qed.

Lemma idle_listener_abortedCtl s : abortedCtl (idle_listener s) = abortedCtl s.
Proof.
  unfold idle_listener. repeat case_match;
    rewrite ?resolve_chunks_abortedCtl; done.
Qed.

Lemma tryToStartAnother_abortedCtl s :
  abortedCtl (tryToStartAnother s).1 = abortedCtl s.
Proof.
  unfold tryToStartAnother.
  destruct (qJobs s) as [|p rest] eqn:E; simpl.
  { case_decide; [|done]. by rewrite idle_listener_abortedCtl. }
  case_match; [|done]. simpl. unfold uploadChunk_enter. proj_cbn.
  by case_match.
Qed.

Lemma tryToStartAnother_ctl s q :
  task_ctl (tryToStartAnother s).1 q = task_ctl s q.
Proof.
  unfold tryToStartAnother, task_ctl.
  destruct (qJobs s) as [|p rest] eqn:E; simpl.
  { case_decide; [|done]. by rewrite idle_listener_chunkTasks. }
  case_match; [|done]. simpl. unfold uploadChunk_enter. proj_cbn.
  case_match; [|done]. unfold set_task_status. proj_cbn.
  apply ctl_update.
Qed.

Lemma queue_inv_foldl_queue_add (ts : list Task.t) s :
  NoDup (partNumber <$> ts) → queue_inv c sz R s →
  (∀ t, t ∈ ts →
     task_status s (partNumber t) = Some TPending
     ∧ (partNumber t ∉ qJobs s)
     ∧ ∀ k, task_ctl s (partNumber t) = Some k → k ∉ abortedCtl s) →
  let s' := foldl (λ s t, queue_add (partNumber t) s) s ts in
  queue_inv c sz R s' ∧ length (chunkTasks s') = length (chunkTasks s).
Proof.
  revert s. induction ts as [|t ts IH]; intros s Hnd H Hts; simpl; [done|].
  rewrite fmap_cons in Hnd. apply NoDup_cons in Hnd as [Ht Hnd].
  destruct (Hts t) as (Hp & Hq & Hk); [left|].
  destruct (IH (queue_add (partNumber t) s)) as [H1 H2].
  - done.
  - by apply queue_inv_queue_add.
  - intros u Hu. destruct (Hts u) as (Hpu & Hqu & Hku); [by right|].
    assert (Hne : partNumber u ≠ partNumber t).
    { intros Heq. apply Ht. rewrite <- Heq.
      by apply list_elem_of_fmap_2. }
    assert (Hnq : partNumber u ∉ qJobs s ++ [partNumber t]).
    { intros [?| ?%list_elem_of_singleton]%elem_of_app; done. }
    unfold queue_add. split_and!.
    + by rewrite tryToStartAnother_status_other.
    + by intros Hin%tryToStartAnother_qJobs_sub.
    + intros k. rewrite tryToStartAnother_ctl, tryToStartAnother_abortedCtl.
      apply Hku.
  - split; [done|]. by rewrite H2, queue_add_length.
Qed.

Lemma chunk_pc_not_before a b :
  chunk_pc a b → before_chunks b → before_chunks a.
Proof. by destruct 1. Qed.

Lemma foldl_queue_add_pc (ts : list Task.t) s :
  chunk_pc (pc s) (pc (foldl (λ s t, queue_add (partNumber t) s) s ts)).
Proof.
  apply (foldl_pc (λ s t, queue_add (partNumber t) s)).
  intros s' t. apply queue_add_pc.
Qed.

Lemma foldl_queue_add_parts (ts : list Task.t) s :
  parts (foldl (λ s t, queue_add (partNumber t) s) s ts) = parts s.
Proof.
  revert s. induction ts as [|t ts IH]; intros s; simpl; [done|].
  rewrite IH. unfold queue_add. by rewrite tryToStartAnother_parts.
Qed.

Lemma queue_inv_uploadChunks uid n ctx s :
  queue_inv c sz R s → chunkTasks s = [] → listening s = false →
  pc s = PcChunks ctx None → n = ceil_div (size s) (chunkSize s) →
  queue_inv c sz R (uploadChunks uid n s).
Proof.
  intros H Hts Hl Hpc Hn. unfold uploadChunks.
  set (tasks := planTasks _ _ _ _ _).
  set (s1 := set_chunkTasks tasks _).
  assert (Hnone : ∀ p, task_status s p = None).
  { intros p. unfold task_status. rewrite Hts. by destruct p as [|[|]]. }
  assert (Hq : qJobs s = []).
  { destruct (qJobs s) as [|p l] eqn:E; [done|].
    assert (Hin : p ∈ qJobs s) by (rewrite E; left).
    apply (qi_queued _ _ _ _ H) in Hin. by rewrite Hnone in Hin. }
  assert (Hw : well_numbered tasks) by apply planTasks_well_numbered.
  assert (H1 : queue_inv c sz R s1).
  { destruct H. constructor; unfold s1; qi_unfold; rewrite ?Hpc; try done.
    - intros p Hp. apply qi_queued0 in Hp. by rewrite Hnone in Hp.
    - intros p Hp. apply qi_active0 in Hp. by rewrite Hnone in Hp.
    - intros p Hp. apply qi_parts0 in Hp. by rewrite Hnone in Hp.
    - by rewrite Hl.
    - intros p Hp. destruct (task_at p tasks) as [t|] eqn:Et; [|done].
      apply task_at_lookup in Et as (i & -> & Hi).
      unfold tasks, planTasks in Hi.
      by apply list_lookup_fmap_Some in Hi as (j & -> & _).
    - intros Hsz. unfold tasks. rewrite Hn, qi_size0.
      by apply plan_sizes_fit.
    - intros HR Hsz q v Hv.
      destruct (qi_progress0 HR Hsz q v Hv) as (t & Ht & _).
      rewrite Hts in Ht. by destruct q as [|[|]].
    - apply Forall_lookup. intros i t Hi. unfold tasks, planTasks in *.
      apply list_lookup_fmap_Some in Hi as (j & -> & Hj).
      apply lookup_seq in Hj as [-> Hj]. rewrite length_fmap, length_seq.
      simpl. lia.
    - intros k Hk. apply qi_aborted0 in Hk. lia.
    - unfold tasks, planTasks. rewrite <- list_fmap_compose.
      apply NoDup_fmap_2; [|apply NoDup_seq].
      intros i j Hij. simpl in Hij. lia.
    - intros p k Hp. rewrite Hq in Hp. by apply elem_of_nil in Hp.
    - intros p inv sig Hp _.
      assert (Hin : is_Some (invs s !! p)) by by eexists.
      apply qi_active0 in Hin. by rewrite Hnone in Hin. }
  destruct (queue_inv_foldl_queue_add tasks s1) as [H2 H3].
  - change partNumber with (S ∘ Task.chunk). rewrite list_fmap_compose.
    apply (NoDup_fmap_2 S). rewrite well_numbered_chunks by done.
    apply NoDup_seq.
  - done.
  - intros t [i Hi]%list_elem_of_lookup. split_and!.
    + unfold task_status, s1. proj_cbn. unfold partNumber.
      rewrite (Hw _ _ Hi). simpl. rewrite Hi. simpl.
      unfold tasks, planTasks in Hi.
      by apply list_lookup_fmap_Some in Hi as (j & -> & _).
    + unfold s1. proj_cbn. rewrite Hq. apply not_elem_of_nil.
    + intros k Hk Hin. unfold task_ctl, s1 in *. proj_cbn.
      unfold partNumber in Hk. rewrite (Hw _ _ Hi) in Hk. simpl in Hk.
      rewrite Hi in Hk. simpl in Hk. injection Hk as <-.
      apply (qi_aborted _ _ _ _ H) in Hin.
      unfold tasks, planTasks in Hi.
      apply list_lookup_fmap_Some in Hi as (j & -> & _). simpl in Hin. lia.
  - pose proof (foldl_queue_add_pc tasks s1) as Hcp.
    set (s2 := foldl _ s1 tasks) in *.
    assert (Hnb : ¬ before_chunks (pc s2)).
    { intros Hb. apply (chunk_pc_not_before _ _ Hcp) in Hb.
      unfold s1 in Hb. proj_cbn. by rewrite Hpc in Hb. }
    assert (Hps : parts s2 = []).
    { unfold s2. rewrite foldl_queue_add_parts. unfold s1. proj_cbn.
      destruct (parts s) as [|p l] eqn:E; [done|].
      assert (Hin : p ∈ parts s) by (rewrite E; left).
      apply (qi_parts _ _ _ _ H) in Hin. by rewrite Hnone in Hin. }
    destruct H2. constructor; qi_unfold; try done.
    + apply NoDup_nil_2.
    + by intros p Hp%elem_of_nil.
    + intros _. rewrite H3. unfold s1. proj_cbn. unfold tasks, planTasks.
      rewrite length_fmap, length_seq. lia.
    + intros p Hp. apply qi_recorded0 in Hp. by rewrite Hps in Hp.
Qed.

Lemma queue_inv_upload_complete ctx s :
  queue_inv c sz R s → all_completed s →
  queue_inv c sz R (upload_settle (upload_complete ctx s)).
Proof.
  intros H Ha. unfold upload_complete. cbv zeta. simpl.
  apply queue_inv_set_pc; [|done..].
  by apply queue_inv_status, queue_inv_emit, queue_inv_emit.
Qed.

Lemma queue_inv_poll_loop ctx n s :
  queue_inv c sz R s → all_completed s →
  queue_inv c sz R (upload_settle (poll_loop ctx n s)).
Proof.
  intros H Ha. unfold poll_loop. case_decide.
  - simpl. apply queue_inv_set_pc; [by apply queue_inv_call|done..].
  - by apply queue_inv_upload_complete.
Qed.

Lemma queue_inv_throw e s :
  queue_inv c sz R s → queue_inv c sz R (upload_settle (s, Throw e)).
Proof. apply queue_inv_upload_catch. Qed.

Lemma queue_inv_upload_created tgt d s :
  queue_inv c sz R s → pc s = PcCreate tgt →
  queue_inv c sz R (upload_settle (upload_created tgt d s)).
Proof.
  intros H Hpc.
  assert (Hb : before_chunks (pc s)) by by rewrite Hpc.
  pose proof (qi_before _ _ _ _ H Hb) as Hts.
  pose proof (qi_deaf _ _ _ _ H Hb) as Hl.
  unfold upload_created. destruct (reuse d).
  - apply queue_inv_upload_complete; [done|].
    intros i t Hi. by rewrite Hts in Hi.
  - cbv zeta. simpl. rewrite <- uploadChunks_set_pc.
    eapply queue_inv_uploadChunks; [|done..].
    apply queue_inv_set_pc; [by apply queue_inv_chunkSize|done..].
Qed.

(** A stretch of the body of [upload] keeps the invariant. *)
Lemma queue_inv_upload_resume s i r :
  queue_inv c sz R s → upload_resume s i = Some r →
  queue_inv c sz R (upload_settle r).
Proof.
  intros H Hr. unfold upload_resume in Hr.
  destruct i as [tgt0| | | |r0|r0|p f|p r0|p l|p r0|p|r0|r0|]; try done;
    destruct (pc s) as [|tgt|tgt|ctx o|ctx|ctx n|ctx n|]
    eqn:Hpc; try done.
  - injection Hr as <-. unfold upload_start. cbv zeta. simpl.
    apply queue_inv_set_pc; [|intros _; proj_cbn; by rewrite Hpc|done].
    by apply queue_inv_call, queue_inv_emit, queue_inv_emit,
      queue_inv_status.
  - injection Hr as <-. unfold on_md5, createUploadTask_catch.
    destruct r0.
    + by apply queue_inv_throw, queue_inv_emit.
    + simpl. apply queue_inv_set_pc; [|intros _; proj_cbn; by rewrite Hpc|done].
      by apply queue_inv_call.
  - assert (Hr' : r = on_create tgt r0 s).
    { destruct r0 as [[| |] msg d|msg]; repeat case_match; congruence. }
    subst r. clear Hr. unfold on_create, createUploadTask_catch.
    destruct r0 as [code msg d|msg].
    + case_decide.
      * by apply queue_inv_throw, queue_inv_emit.
      * by apply queue_inv_upload_created.
    + by apply queue_inv_throw, queue_inv_emit.
  - injection Hr as <-.
    assert (Ha : all_completed s) by (apply (qi_committed _ _ _ _ H); by rewrite Hpc).
    unfold on_finish. destruct r0 as [code msg d|msg].
    + case_decide; [by apply queue_inv_throw|].
      case_match.
      * apply queue_inv_poll_loop; [by apply queue_inv_emit|done].
      * by apply queue_inv_upload_complete.
    + by apply queue_inv_throw.
  - injection Hr as <-.
    assert (Ha : all_completed s) by (apply (qi_committed _ _ _ _ H); by rewrite Hpc).
    unfold on_check. destruct r0 as [code msg d|msg].
    + case_decide; [by apply queue_inv_throw|].
      case_match.
      * apply queue_inv_upload_complete; [by apply queue_inv_emit|done].
      * case_decide; [by apply queue_inv_throw|].
        simpl. apply queue_inv_set_pc; [|done..].
        by apply queue_inv_sleep, queue_inv_emit.
    + by apply queue_inv_throw.
  - injection Hr as <-.
    assert (Ha : all_completed s) by (apply (qi_committed _ _ _ _ H); by rewrite Hpc).
    by apply queue_inv_poll_loop.
Qed.

Lemma queue_inv_handle s i s' :
  queue_inv c sz R s → (R → reports_within s i = true) →
  handle s i = Some s' → queue_inv c sz R s'.
Proof.
  intros H Hi Hh.
  destruct (upload_resume s i) as [r|] eqn:Hu.
  { rewrite (handle_upload_resume s i r Hu) in Hh. injection Hh as <-.
    by eapply queue_inv_upload_resume. }
  destruct i as [tgt0| | | |r0|r0|p f|p r0|p l|p r0|p|r0|r0|];
    try (unfold handle in Hh; rewrite Hu in Hh; discriminate);
    simpl in Hh.
  - injection Hh as <-. by apply queue_inv_pause.
  - injection Hh as <-. by apply queue_inv_resume.
  - injection Hh as <-. by apply queue_inv_cancel.
  - destruct (invs s !! p) as [inv|] eqn:Hin; [|done]. simpl in Hh.
    destruct (task_at p (chunkTasks s)) as [t|]; [|done]. simpl in Hh.
    destruct (stage inv); try done.
    destruct (readChunk _ _ _) as [r|]; [|done]. simpl in Hh.
    injection Hh as <-. by apply queue_inv_on_read.
  - destruct (invs s !! p) as [inv|] eqn:Hin; [|done]. simpl in Hh.
    destruct (task_at p (chunkTasks s)) as [t|] eqn:Ht; [|done].
    simpl in Hh. destruct (stage inv); try done.
    injection Hh as <-. by apply queue_inv_on_url.
  - destruct (invs s !! p) as [inv|] eqn:Hin; [|done]. simpl in Hh.
    destruct (task_at p (chunkTasks s)) as [t|] eqn:Ht; [|done].
    simpl in Hh. destruct (stage inv); try done.
    case_match; [|done]. injection Hh as <-.
    apply queue_inv_on_put_progress; [done..|].
    intros HR _. specialize (Hi HR). simpl in Hi. rewrite Ht in Hi.
    by apply bool_decide_eq_true in Hi.
  - destruct (invs s !! p) as [inv|] eqn:Hin; [|done]. simpl in Hh.
    destruct (stage inv); try done.
    case_match; [|done]. injection Hh as <-. by apply queue_inv_on_put.
  - destruct (invs s !! p) as [inv|] eqn:Hin; [|done]. simpl in Hh.
    destruct (stage inv); try done.
    injection Hh as <-. by apply queue_inv_on_retry_timer.
Qed.

Lemma queue_inv_step s i s' :
  queue_inv c sz R s → (R → reports_within s i = true) →
  step s i = Some s' → queue_inv c sz R s'.
Proof.
  unfold step. intros H Hi Hs.
  destruct (handle s i) as [s1|] eqn:Hh; [|done].
  injection Hs as <-. by eapply queue_inv_flush, queue_inv_handle.
Qed.

Lemma queue_inv_run ins s s' :
  queue_inv c sz R s → (R → honest_run s ins = true) →
  run s ins = Some s' → queue_inv c sz R s'.
Proof.
  revert s. induction ins as [|i ins IH]; intros s H Hh Hr; simpl in Hr.
  - by injection Hr as <-.
  - destruct (step s i) as [s1|] eqn:Hs; [|done]. simpl in Hr.
    eapply IH; [| |done].
    + eapply queue_inv_step; [done| |done].
      intros HR. specialize (Hh HR). simpl in Hh.
      by apply andb_prop in Hh as [? _].
    + intros HR. specialize (Hh HR). simpl in Hh. rewrite Hs in Hh.
      by apply andb_prop in Hh as [_ ?].
Qed.

Lemma queue_inv_new : queue_inv c sz R (newUploader c sz).
Proof.
  constructor; try done; simpl.
  - apply NoDup_nil_2.
  - by intros p Hp%elem_of_nil.
  - by intros p [? Hp].
  - apply NoDup_nil_2.
  - by intros p Hp%elem_of_nil.
  - unfold pending. simpl. rewrite map_size_empty. lia.
  - by intros p Hp; destruct p as [|[|]].
  - apply NoDup_nil_2.
Qed.

End queue_invariant.










(** ** The progress aggregate *)







(** ** The lifecycle events, and what [cancel] rules out *)

Lemma lifecycle_snoc l a :
  lifecycle (l ++ [a]) = lifecycle l ++ option_list (outcome_event a).
Proof.
  unfold lifecycle. rewrite omap_app. simpl.
  by destruct (outcome_event a).
Qed.


Lemma settles_trans a b c : settles a b → settles b c → settles a c.
Proof. intros Hab Hbc. destruct Hab; inversion Hbc; subst; constructor. Qed.

Lemma quiet_refl s : quiet s s.
Proof. constructor; try done. apply st_refl. Qed.

Lemma quiet_trans s1 s2 s3 : quiet s1 s2 → quiet s2 s3 → quiet s1 s3.
Proof.
  intros [] []. constructor; try congruence.
  by eapply settles_trans.
Qed.

Lemma quiet_log a s :
  outcome_event a = None → quiet s (set_log (log s ++ [a]) s).
Proof.
  intros Ha. constructor; try done; proj_cbn; [apply st_refl|].
  rewrite lifecycle_snoc, Ha. apply app_nil_r.
Qed.

Lemma quiet_call r s : quiet s (call r s).
Proof. by apply quiet_log. Qed.

Lemma quiet_sleep ms s : quiet s (sleep ms s).
Proof. by apply quiet_log. Qed.

Lemma quiet_debug d s : quiet s (emit (EDebug d) s).
Proof. by apply quiet_log. Qed.

Lemma quiet_progress ph fr l t x s : quiet s (emit (progressEvent ph fr l t x) s).
Proof. by apply quiet_log. Qed.

Lemma quiet_cancel_event s : quiet s (emit ECancel s).
Proof. by apply quiet_log. Qed.

Ltac quiet_field := constructor; try done; apply st_refl.

Lemma quiet_set_progress v s : quiet s (set_progress v s).
Proof. quiet_field. Qed.
Lemma quiet_set_chunkTasks v s : quiet s (set_chunkTasks v s).
Proof. quiet_field. Qed.
Lemma quiet_set_qPaused v s : quiet s (set_qPaused v s).
Proof. quiet_field. Qed.
Lemma quiet_set_qJobs v s : quiet s (set_qJobs v s).
Proof. quiet_field. Qed.
Lemma quiet_set_invs v s : quiet s (set_invs v s).
Proof. quiet_field. Qed.
Lemma quiet_set_listening v s : quiet s (set_listening v s).
Proof. quiet_field. Qed.
Lemma quiet_set_parts v s : quiet s (set_parts v s).
Proof. quiet_field. Qed.
Lemma quiet_set_totalChunks v s : quiet s (set_totalChunks v s).
Proof. quiet_field. Qed.
Lemma quiet_set_abortedCtl v s : quiet s (set_abortedCtl v s).
Proof. quiet_field. Qed.
Lemma quiet_set_nextCtl v s : quiet s (set_nextCtl v s).
Proof. quiet_field. Qed.
Lemma quiet_set_chunkSize v s : quiet s (set_chunkSize v s).
Proof. quiet_field. Qed.

Lemma quiet_set_task_status p v s : quiet s (set_task_status p v s).
Proof. apply quiet_set_chunkTasks. Qed.

Lemma quiet_resolve b s : quiet s (resolve_chunks b s).
Proof.
  unfold resolve_chunks.
  destruct (pc s) as [| | |ctx [r|]| | | |] eqn:E; try apply quiet_refl.
  constructor; try done. proj_cbn. rewrite E. constructor.
Qed.

Lemma quiet_reject e s : quiet s (reject_chunks e s).
Proof.
  unfold reject_chunks.
  destruct (pc s) as [| | |ctx [r|]| | | |] eqn:E; try apply quiet_refl.
  constructor; try done. proj_cbn. rewrite E. constructor.
Qed.

Lemma quiet_idle s : quiet s (idle_listener s).
Proof.
  unfold idle_listener. repeat case_match;
    try apply quiet_refl; try apply quiet_resolve.
  eapply quiet_trans; [apply quiet_debug|apply quiet_resolve].
Qed.

Lemma quiet_completed r s : quiet s (completed_listener r s).
Proof.
  unfold completed_listener. repeat case_match; try apply quiet_refl.
  eapply quiet_trans; [apply quiet_set_task_status|apply quiet_set_parts].
Qed.

Lemma quiet_taskClear s : quiet s (taskClear s).
Proof.
  unfold taskClear.
  eapply quiet_trans; [apply quiet_set_qJobs|apply quiet_set_abortedCtl].
Qed.

Lemma quiet_error_listener e s : quiet s (error_listener e s).
Proof.
  unfold error_listener. case_match; [|apply quiet_refl].
  eapply quiet_trans; [apply quiet_taskClear|apply quiet_reject].
Qed.

Lemma quiet_enter p r s : quiet s (uploadChunk_enter p r s).
Proof.
  unfold uploadChunk_enter. case_match; [|apply quiet_refl]. cbv zeta.
  eapply quiet_trans; [apply quiet_set_task_status|].
  eapply quiet_trans; [apply quiet_call|apply quiet_set_invs].
Qed.

Lemma quiet_tryToStartAnother s : quiet s (tryToStartAnother s).1.
Proof.
  unfold tryToStartAnother. repeat case_match; simpl;
    try apply quiet_refl; try apply quiet_idle.
  eapply quiet_trans; [apply quiet_set_qJobs|apply quiet_enter].
Qed.

Lemma quiet_queue_add p s : quiet s (queue_add p s).
Proof.
  unfold queue_add.
  eapply quiet_trans; [apply quiet_set_qJobs|apply quiet_tryToStartAnother].
Qed.

Lemma quiet_next p s : quiet s (next p s).
Proof.
  unfold next.
  eapply quiet_trans; [apply quiet_set_invs|apply quiet_tryToStartAnother].
Qed.

Lemma quiet_processQueue fuel s : quiet s (processQueue fuel s).
Proof.
  revert s. induction fuel as [|fuel IH]; intros s; simpl; [apply quiet_refl|].
  pose proof (quiet_tryToStartAnother s) as H.
  destruct (tryToStartAnother s) as [s' [|]]; simpl in H; [|done].
  eapply quiet_trans; [exact H|apply IH].
Qed.

Lemma quiet_queue_start s : quiet s (queue_start s).
Proof.
  unfold queue_start. case_match; [|apply quiet_refl].
  eapply quiet_trans; [apply quiet_set_qPaused|apply quiet_processQueue].
Qed.

Lemma quiet_job_return p r s : quiet s (job_return p r s).
Proof.
  unfold job_return.
  eapply quiet_trans; [apply quiet_completed|apply quiet_next].
Qed.

Lemma quiet_foldl {A} (f : Session → A → Session) (l : list A) s :
  (∀ s x, quiet s (f s x)) → quiet s (foldl f s l).
Proof.
  intros Hf. revert s. induction l as [|x l IH]; intros s; simpl.
  - apply quiet_refl.
  - eapply quiet_trans; [apply Hf|apply IH].
Qed.

Lemma quiet_uploadChunks uid n s : quiet s (uploadChunks uid n s).
Proof.
  unfold uploadChunks. cbv zeta.
  eapply quiet_trans; [apply quiet_set_nextCtl|].
  eapply quiet_trans; [apply quiet_set_chunkTasks|].
  eapply quiet_trans;
    [apply (quiet_foldl (λ s t, queue_add (partNumber t) s));
     intros; apply quiet_queue_add|].
  eapply quiet_trans; [apply quiet_set_listening|].
  eapply quiet_trans; [apply quiet_set_parts|apply quiet_set_totalChunks].
Qed.

Lemma quiet_on_put_progress p t l s : quiet s (on_put_progress p t l s).
Proof.
  unfold on_put_progress. cbv zeta.
  eapply quiet_trans; [apply quiet_set_progress|apply quiet_progress].
Qed.

Lemma quiet_pause s :
  status s = StRunning → quiet (set_status StPaused s) (pause s).
Proof.
  intros H. unfold pause. rewrite decide_False by (rewrite H; auto).
  eapply quiet_trans; [apply quiet_set_qPaused|].
  apply quiet_foldl. intros s' t. unfold pause_task.
  case_decide; [|apply quiet_refl].
  eapply quiet_trans; [apply quiet_set_progress|apply quiet_set_abortedCtl].
Qed.

Lemma quiet_resume s :
  status s = StPaused → quiet (set_status StRunning s) (resume s).
Proof.
  intros H. unfold resume. rewrite decide_False by (rewrite H; auto).
  eapply quiet_trans; [|apply quiet_queue_start].
  apply quiet_foldl. intros s' p. unfold resume_task.
  eapply quiet_trans; [apply quiet_set_chunkTasks|].
  eapply quiet_trans; [apply quiet_set_nextCtl|apply quiet_queue_add].
Qed.

Lemma quiet_cancel s : quiet (set_status StCancel s) (cancel s).
Proof.
  unfold cancel.
  eapply quiet_trans; [apply quiet_taskClear|apply quiet_cancel_event].
Qed.

Lemma moves_quiet_then s1 s2 s3 : quiet s1 s2 → moves s2 s3 → moves s1 s3.
Proof. intros H. apply mv_trans. by apply mv_quiet. Qed.

Lemma moves_job_throw p e s : moves s (job_throw p e s).
Proof.
  unfold job_throw.
  eapply mv_trans; [|apply mv_quiet, quiet_debug].
  eapply mv_trans; [|apply mv_flush].
  apply mv_quiet.
  eapply quiet_trans; [apply quiet_error_listener|apply quiet_next].
Qed.

Lemma moves_uploadChunk_catch p inv e s : moves s (uploadChunk_catch p inv e s).
Proof.
  unfold uploadChunk_catch. repeat case_match.
  - apply mv_quiet.
    eapply quiet_trans; [apply quiet_set_task_status|apply quiet_job_return].
  - apply mv_quiet.
    eapply quiet_trans; [apply quiet_sleep|apply quiet_set_invs].
  - eapply moves_quiet_then; [apply quiet_set_task_status|].
    apply moves_job_throw.
Qed.

Lemma moves_on_read p t inv r s : moves s (on_read p t inv r s).
Proof.
  unfold on_read. destruct r; [apply moves_uploadChunk_catch|].
  apply mv_quiet.
  eapply quiet_trans; [apply quiet_call|apply quiet_set_invs].
Qed.

Lemma moves_on_url p t inv data r s : moves s (on_url p t inv data r s).
Proof.
  unfold on_url, getChunkUploadUrl_catch. repeat case_match.
  - eapply moves_quiet_then; [apply quiet_debug|].
    apply moves_uploadChunk_catch.
  - apply mv_quiet.
    eapply quiet_trans; [apply quiet_call|apply quiet_set_invs].
  - eapply moves_quiet_then; [apply quiet_debug|].
    apply moves_uploadChunk_catch.
Qed.

Lemma moves_on_put p inv r s : moves s (on_put p inv r s).
Proof.
  unfold on_put. destruct r; [apply moves_uploadChunk_catch|].
  apply mv_quiet, quiet_job_return.
Qed.

(** Inputs of the chunk pass. *)
Lemma handle_moves s i s' :
  handle s i = Some s' → upload_resume s i = None →
  i ≠ CallPause → i ≠ CallResume → i ≠ CallCancel →
  moves s s'.
Proof.
  intros Hh Hu H1 H2 H3.
  destruct i as [tgt0| | | |r0|r0|p f|p r0|p l|p r0|p|r0|r0|];
    try done;
    try (unfold handle in Hh; rewrite Hu in Hh; discriminate);
    simpl in Hh.
  - destruct (invs s !! p) as [inv|] eqn:Hi; [|done]. simpl in Hh.
    destruct (task_at p (chunkTasks s)) as [t|]; [|done]. simpl in Hh.
    destruct (stage inv); try done.
    destruct (readChunk _ _ _) as [r|]; [|done]. simpl in Hh.
    injection Hh as <-. apply moves_on_read.
  - destruct (invs s !! p) as [inv|] eqn:Hi; [|done]. simpl in Hh.
    destruct (task_at p (chunkTasks s)) as [t|]; [|done]. simpl in Hh.
    destruct (stage inv); try done.
    injection Hh as <-. apply moves_on_url.
  - destruct (invs s !! p) as [inv|] eqn:Hi; [|done]. simpl in Hh.
    destruct (task_at p (chunkTasks s)) as [t|]; [|done]. simpl in Hh.
    destruct (stage inv); try done.
    case_match; [|done]. injection Hh as <-.
    apply mv_quiet, quiet_on_put_progress.
  - destruct (invs s !! p) as [inv|] eqn:Hi; [|done]. simpl in Hh.
    destruct (stage inv); try done.
    case_match; [|done]. injection Hh as <-. apply moves_on_put.
  - destruct (invs s !! p) as [inv|] eqn:Hi; [|done]. simpl in Hh.
    destruct (stage inv); try done.
    injection Hh as <-. apply mv_quiet, quiet_enter.
Qed.

(** ** The lifecycle events *)

Lemma life_inv_quiet s s' : quiet s s' → life_inv s → life_inv s'.
Proof.
  intros [] H. unfold life_inv in *. rewrite q_life0, q_cfg0, H.
  by destruct q_pc0.
Qed.

Lemma life_inv_upload_catch e s :
  life_inv s → (∀ h, expected_lifecycle h (pc s) = [EStart]) →
  life_inv (upload_catch e s).
Proof.
  unfold life_inv, upload_catch. intros H Hs. rewrite Hs in H.
  case_decide; [|case_match eqn:Hl]; proj_cbn.
  - done.
  - by rewrite lifecycle_snoc, H, Hl.
  - by rewrite H, Hl.
Qed.

Lemma life_inv_flush s : life_inv s → life_inv (flush s).
Proof.
  intros H. unfold flush.
  destruct (pc s) as [| | |ctx [[e|[|]]|]| | | |] eqn:E; try done; simpl.
  - apply life_inv_upload_catch; [done|by rewrite E].
  - unfold life_inv in *. proj_cbn. by rewrite lifecycle_snoc, H, E, app_nil_r.
  - case_decide; simpl.
    + apply life_inv_upload_catch; [done|by rewrite E].
    + unfold life_inv in *. proj_cbn. by rewrite H, E.
Qed.

Lemma life_inv_moves s s' : moves s s' → life_inv s → life_inv s'.
Proof.
  induction 1; eauto using life_inv_quiet, life_inv_flush.
Qed.

Lemma life_inv_set_status v s : life_inv s → life_inv (set_status v s).
Proof. done. Qed.

Lemma stretch_effect_quiet s s0 r :
  quiet s s0 → pc s0 = pc s → stretch_effect s0 r → pc s ≠ PcNew →
  stretch_effect s r.
Proof.
  intros Hq Hpc Hr Hn. destruct r as [s1 [p'|v|e]]; simpl in *.
  - destruct Hr as [He [[_ Hq1]|[Hp _]]]; [|congruence].
    split; [done|]. left. split; [done|]. by eapply quiet_trans.
  - destruct Hr as [_ (info & -> & Hst & Hl)]. split; [done|].
    exists info. split_and!; [done..|]. by rewrite Hl, (q_life _ _ Hq).
  - destruct Hr as [_ Hq1]. split; [done|]. by eapply quiet_trans.
Qed.

Lemma upload_complete_effect ctx s :
  pc s ≠ PcNew → stretch_effect s (upload_complete ctx s).
Proof.
  intros Hn. unfold upload_complete. cbv zeta. simpl. split; [done|].
  eexists. split_and!; [done..|]. proj_cbn.
  rewrite !lifecycle_snoc. simpl. by rewrite app_nil_r.
Qed.

Lemma poll_loop_effect ctx n s :
  pc s ≠ PcNew → stretch_effect s (poll_loop ctx n s).
Proof.
  intros Hn. unfold poll_loop. case_decide.
  - simpl. split; [done|]. left. split; [done|]. apply quiet_call.
  - by apply upload_complete_effect.
Qed.

Lemma upload_resume_effect s i r :
  upload_resume s i = Some r →
  stretch_effect s r
  ∧ (pc s = PcNew ∨ ∀ h, expected_lifecycle h (pc s) = [EStart]).
Proof.
  intros Hr. unfold upload_resume in Hr.
  destruct i as [tgt0| | | |r0|r0|p f|p r0|p l|p r0|p|r0|r0|]; try done;
    destruct (pc s) as [|tgt|tgt|ctx o|ctx|ctx n|ctx n|]
    eqn:Hpc; try done.
  - injection Hr as <-. split; [|by left]. simpl. split; [done|]. right.
    split_and!; [done..|]. proj_cbn. rewrite !lifecycle_snoc. simpl.
    by rewrite !app_nil_r.
  - injection Hr as <-. split; [|by right].
    unfold on_md5, createUploadTask_catch. destruct r0; simpl.
    + split; [by rewrite Hpc|]. apply quiet_debug.
    + split; [done|]. left. split; [by rewrite Hpc|]. apply quiet_call.
  - assert (Hr' : r = on_create tgt r0 s).
    { destruct r0 as [[| |] msg d|msg]; repeat case_match; congruence. }
    subst r. clear Hr. split; [|by right].
    unfold on_create, createUploadTask_catch.
    destruct r0 as [code msg d|msg]; simpl.
    + case_decide; simpl.
      * split; [by rewrite Hpc|]. apply quiet_debug.
      * unfold upload_created. destruct (reuse d).
        -- apply upload_complete_effect. by rewrite Hpc.
        -- cbv zeta. simpl. split; [done|]. left.
           split; [by rewrite Hpc|].
           eapply quiet_trans;
             [apply quiet_set_chunkSize|apply quiet_uploadChunks].
    + split; [by rewrite Hpc|]. apply quiet_debug.
  - injection Hr as <-. split; [|by right].
    assert (Hn : pc s ≠ PcNew) by by rewrite Hpc.
    unfold on_finish. destruct r0 as [code msg d|msg]; simpl.
    + case_decide; simpl; [split; [done|apply quiet_refl]|].
      case_match.
      * eapply stretch_effect_quiet;
          [apply quiet_progress|done|apply poll_loop_effect|done].
        proj_cbn. done.
      * by apply upload_complete_effect.
    + split; [done|apply quiet_refl].
  - injection Hr as <-. split; [|by right].
    assert (Hn : pc s ≠ PcNew) by by rewrite Hpc.
    unfold on_check. destruct r0 as [code msg d|msg]; simpl.
    + case_decide; simpl; [split; [done|apply quiet_refl]|].
      case_match.
      * eapply stretch_effect_quiet;
          [apply quiet_debug|done|apply upload_complete_effect|done].
        proj_cbn. done.
      * case_decide; simpl; [split; [done|apply quiet_refl]|].
        split; [done|]. left. split; [done|].
        eapply quiet_trans; [apply quiet_progress|apply quiet_sleep].
    + split; [done|apply quiet_refl].
  - injection Hr as <-. split; [|by right].
    apply poll_loop_effect. by rewrite Hpc.
Qed.

Lemma quiet_pc_same s s1 h :
  quiet s s1 → expected_lifecycle h (pc s1) = expected_lifecycle h (pc s).
Proof. intros []. by destruct q_pc0. Qed.

Lemma life_inv_upload_resume s i r :
  life_inv s → upload_resume s i = Some r → life_inv (upload_settle r).
Proof.
  intros H Hr. apply upload_resume_effect in Hr as [He Hs].
  destruct r as [s1 [p'|v|e]]; simpl in *.
  - destruct He as [Hp [[Hn Hq]|(Hn & _ & Hl)]]; unfold life_inv in *;
      proj_cbn; rewrite Hp.
    + rewrite (q_life _ _ Hq), H. by destruct Hs.
    + by rewrite Hl, H, Hn.
  - destruct He as [Hn (info & -> & _ & Hl)]. unfold life_inv in *.
    proj_cbn. rewrite Hl, H. destruct Hs as [?|Hs]; [done|]. by rewrite Hs.
  - destruct He as [Hn Hq]. destruct Hs as [?|Hs]; [done|].
    apply life_inv_upload_catch.
    + by eapply life_inv_quiet.
    + intros h. by rewrite (quiet_pc_same _ _ h Hq).
Qed.

Lemma control_or_not (i : Input) :
  (i = CallPause ∨ i = CallResume ∨ i = CallCancel)
  ∨ (i ≠ CallPause ∧ i ≠ CallResume ∧ i ≠ CallCancel).
Proof. destruct i; first [left; by auto | right; by split_and!]. Qed.

Lemma life_inv_handle s i s' :
  life_inv s → handle s i = Some s' → life_inv s'.
Proof.
  intros H Hh.
  destruct (upload_resume s i) as [r|] eqn:Hu.
  { rewrite (handle_upload_resume s i r Hu) in Hh. injection Hh as <-.
    by eapply life_inv_upload_resume. }
  destruct (control_or_not i) as [[-> |[-> | ->]]|(H1 & H2 & H3)].
  - injection Hh as <-. destruct (decide (status s = StRunning)) as [Hs|Hs].
    + by apply (life_inv_quiet _ _ (quiet_pause s Hs)).
    + by rewrite pause_not_running.
  - injection Hh as <-. destruct (decide (status s = StPaused)) as [Hs|Hs].
    + by apply (life_inv_quiet _ _ (quiet_resume s Hs)).
    + by rewrite resume_not_paused.
  - injection Hh as <-. by apply (life_inv_quiet _ _ (quiet_cancel s)).
  - eapply life_inv_moves; [|done]. by eapply handle_moves.
Qed.

Lemma life_inv_run ins s s' : life_inv s → run s ins = Some s' → life_inv s'.
Proof.
  revert s. induction ins as [|i ins IH]; intros s H Hr; simpl in Hr.
  - by injection Hr as <-.
  - unfold step in Hr. destruct (handle s i) as [s1|] eqn:Hh; [|done].
    simpl in Hr. eapply IH; [|done].
    by eapply life_inv_flush, life_inv_handle.
Qed.

(** X8. In a session whose [upload] is called at most once, the events
    [start], [completed] and [error] emitted so far are determined by
    where that activation of [upload] stands: none before [upload] is
    called; [start] alone while it runs, and when it has resolved to
    [undefined]; [start] and then one [completed] carrying the value it
    resolved with; or, when it was rejected, [start] and then one [error]
    carrying the exception it was rejected with where somebody listens
    for [error], and [start] alone where nobody does.  So in such a
    session [start] comes first and once, [completed] and [error] never
    both and neither twice, and each goes with the matching settlement
    of the promise. *)
Theorem lifecycle_follows_upload (c : Config) (sz : Z) (ins : list Input)
    (s : Session) :
  (uploads ins ≤ 1)%nat → run (newUploader c sz) ins = Some s →
  lifecycle (log s) = expected_lifecycle (errorListener c) (pc s).
Proof.
  intros _ Hr.
  pose proof (queue_inv_run c sz False ins _ s (queue_inv_new c sz False)
                ltac:(done) Hr) as Hq.
  rewrite <- (qi_cfg _ _ _ _ Hq).
  by eapply (life_inv_run ins (newUploader c sz)).
Qed.

(** ** After [cancel] *)





Section after_cancel.
Context (E : list Exn).









End after_cancel.


Lemma lifecycle_follows_upload_witness :
  lifecycle (log beforeFinish) = expected_lifecycle true (pc beforeFinish).
Proof.
  apply (lifecycle_follows_upload threePollConfig 3
           (created false ++ transfers 1)).
  - vm_compute. lia.
  - vm_compute. reflexivity.
Defined.


(** ** [cancel] during the chunk pass *)

Section cancelled_chunk_pass.
Context (c : Config) (sz : Z) (ps : list nat).

Lemma stopped_log l s : stopped ps s → stopped ps (set_log l s).
Proof. intros []. by constructor. Qed.

Lemma stopped_emit e s : stopped ps s → stopped ps (emit e s).
Proof. apply stopped_log. Qed.

Lemma stopped_call r s : stopped ps s → stopped ps (call r s).
Proof. apply stopped_log. Qed.

Lemma stopped_sleep ms s : stopped ps s → stopped ps (sleep ms s).
Proof. apply stopped_log. Qed.

Lemma stopped_restage p i s :
  stopped ps s → (∀ sig, stage i = SPut sig → sig ∈ abortedCtl s) →
  stopped ps (set_invs (<[p := i]> (invs s)) s).
Proof.
  intros [] Hi. constructor; try done; proj_cbn.
  intros q i' sig Hq Hsig. destruct (decide (q = p)) as [->|Hne].
  - rewrite lookup_insert_eq in Hq. injection Hq as <-. auto.
  - rewrite lookup_insert_ne in Hq by done. eauto.
Qed.

Lemma stopped_delete p s :
  stopped ps s → stopped ps (set_invs (delete p (invs s)) s).
Proof.
  intros []. constructor; try done; proj_cbn.
  intros q i sig [_ Hq]%lookup_delete_Some. eauto.
Qed.

Lemma stopped_set_task_status p v s :
  stopped ps s → stopped ps (set_task_status p v s).
Proof.
  intros []. constructor; try done. unfold set_task_status. proj_cbn.
  by apply (Forall_ctl_update (λ k, k ∈ abortedCtl s)).
Qed.

Lemma stopped_set_pc P s :
  stopped ps s → unfinished P → stopped ps (set_pc P s).
Proof. intros [] HP. by constructor. Qed.

Lemma stopped_resolve_false s : stopped ps s → stopped ps (resolve_chunks false s).
Proof.
  intros H. unfold resolve_chunks.
  destruct (pc s) as [| | |ctx [r|]| | | |]; try done.
  by apply stopped_set_pc.
Qed.

Lemma stopped_reject e s : stopped ps s → stopped ps (reject_chunks e s).
Proof.
  intros H. unfold reject_chunks.
  destruct (pc s) as [| | |ctx [r|]| | | |]; try done.
  by apply stopped_set_pc.
Qed.

(** With a task that is not completed, the [idle] listener does not
    report success. *)
Lemma stopped_idle s q st :
  stopped ps s → queue_inv c sz False s → task_status s q = Some st → st ≠ TCompleted →
  stopped ps (idle_listener s).
Proof.
  intros H Hi Hq Hst. unfold idle_listener.
  destruct (listening s) eqn:Hl; [|done].
  case_decide; [by apply stopped_resolve_false|].
  case_decide as Ht.
  - exfalso. apply Hst.
    apply (all_completed_status s q); [|done].
    intros i t Hit.
    pose proof (qi_total _ _ _ _ Hi Hl) as Htot.
    assert (Hp : parts s ≡ₚ seq 1 (length (chunkTasks s))).
    { apply parts_cover; [apply Hi| |lia].
      intros p Hp. apply (qi_parts _ _ _ _ Hi) in Hp.
      unfold task_status in Hp. by destruct (task_at p (chunkTasks s)). }
    assert (Hin : S i ∈ parts s).
    { rewrite Hp. apply elem_of_seq. apply lookup_lt_Some in Hit. lia. }
    apply (qi_parts _ _ _ _ Hi) in Hin. unfold task_status in Hin.
    simpl in Hin. rewrite Hit in Hin. by injection Hin.
  - by apply stopped_resolve_false, stopped_emit.
Qed.

Lemma stopped_tryToStartAnother s q st :
  stopped ps s → queue_inv c sz False s → task_status s q = Some st → st ≠ TCompleted →
  stopped ps (tryToStartAnother s).1.
Proof.
  intros H Hi Hq Hst. unfold tryToStartAnother.
  rewrite (sp_queue _ _ H). simpl.
  case_decide; [by eapply stopped_idle|done].
Qed.

Lemma stopped_taskClear s : stopped ps s → stopped ps (taskClear s).
Proof.
  intros []. unfold taskClear. constructor; try done; proj_cbn.
  - eapply Forall_impl; [exact sp_ctl0|]. intros t Ht. simpl in *.
    apply elem_of_union. by left.
  - intros p i sig Hp Hsig. apply elem_of_union. left. eauto.
Qed.

Lemma stopped_upload_catch e s : stopped ps s → stopped ps (upload_catch e s).
Proof.
  intros H. unfold upload_catch.
  rewrite decide_True by apply H. by apply stopped_set_pc.
Qed.

Lemma stopped_flush s :
  stopped ps s → stopped ps (flush s) ∧ flushed (flush s).
Proof.
  intros H. split; [|apply flush_is_flushed]. unfold flush.
  pose proof (sp_pc _ _ H) as Hpc. pose proof (sp_status _ _ H) as Hs.
  destruct (pc s) as [| | |ctx [[e|[|]]|]| | | |]; try done; simpl.
  - by apply stopped_upload_catch.
  - rewrite decide_False by (rewrite Hs; done). simpl.
    by apply stopped_set_pc.
Qed.

Lemma stopped_enter p r s : stopped ps s → stopped ps (uploadChunk_enter p r s).
Proof.
  intros H. unfold uploadChunk_enter. case_match; [|done]. cbv zeta.
  apply (stopped_restage p _ (call _ (set_task_status p TRunning s)));
    [|done].
  by apply stopped_call, stopped_set_task_status.
Qed.

(** An activation that settles without a result leaves the session
    stopped. *)
Lemma stopped_retire p v s :
  stopped ps s → queue_inv c sz False s → is_Some (invs s !! p) → v = TAbort ∨ v = TError →
  let s1 := set_invs (delete p (invs s)) (set_task_status p v s) in
  stopped ps s1 ∧ queue_inv c sz False s1 ∧ task_status s1 p = Some v.
Proof.
  intros H Hi Hin Hv s1. split_and!.
  - by apply (stopped_delete p (set_task_status p v s)),
      stopped_set_task_status.
  - by apply queue_inv_retire.
  - pose proof (qi_active _ _ _ _ Hi p Hin) as Hr.
    unfold s1, task_status, set_task_status in *. proj_cbn.
    rewrite status_update_eq. by destruct (task_at p (chunkTasks s)).
Qed.

Lemma not_completed v : v = TAbort ∨ v = TError → v ≠ TCompleted.
Proof. by intros [-> | ->]. Qed.

Lemma error_listener_status_of e s q :
  task_status (error_listener e s) q = task_status s q.
Proof.
  unfold error_listener, reject_chunks, taskClear, task_status. proj_cbn.
  destruct (listening s); [|done].
  by destruct (pc s) as [| | |ctx [r|]| | | |].
Qed.

Lemma stopped_error_listener e s :
  stopped ps s → stopped ps (error_listener e s).
Proof.
  intros H. unfold error_listener. case_match; [|done].
  by apply stopped_reject, stopped_taskClear.
Qed.

Lemma stopped_uploadChunk_catch p i e s :
  stopped ps s → queue_inv c sz False s → is_Some (invs s !! p) →
  stopped ps (uploadChunk_catch p i e s).
Proof.
  intros H Hi Hin. unfold uploadChunk_catch. case_match.
  - unfold job_return, next. rewrite completed_listener_None.
    destruct (stopped_retire p TAbort s H Hi Hin (or_introl eq_refl))
      as (G1 & G2 & G3).
    by eapply stopped_tryToStartAnother.
  - case_decide.
    + apply (stopped_restage p _ (sleep _ s)); [|done].
      by apply stopped_sleep.
    + unfold job_throw, next. apply stopped_emit, stopped_flush.
      rewrite set_invs_error_listener.
      destruct (stopped_retire p TError s H Hi Hin (or_intror eq_refl))
        as (G1 & G2 & G3).
      replace (invs (error_listener e (set_task_status p TError s)))
        with (invs s).
      * eapply (stopped_tryToStartAnother _ p TError); [| | |done].
        -- by apply stopped_error_listener.
        -- by apply queue_inv_error_listener.
        -- by rewrite error_listener_status_of.
      * unfold error_listener, reject_chunks, taskClear, set_task_status.
        proj_cbn. destruct (listening s); [|done].
        by destruct (pc s) as [| | |ctx [r|]| | | |].
Qed.

Lemma stopped_handle s i s' :
  stopped ps s → queue_inv c sz False s → handle s i = Some s' → stopped ps s'.
Proof.
  intros H Hi Hh.
  pose proof (sp_pc _ _ H) as Hpc. pose proof (sp_status _ _ H) as Hs.
  assert (Hu : upload_resume s i = None).
  { unfold upload_resume.
    destruct i; try done;
      by destruct (pc s) as [| | |ctx [[e|[|]]|]| | | |[[v|]|]]. }
  destruct i as [tgt0| | | |r0|r0|p f|p r0|p l|p r0|p|r0|r0|];
    try (unfold handle in Hh; rewrite Hu in Hh; discriminate);
    simpl in Hh.
  - injection Hh as <-. rewrite pause_not_running; [done|]. by rewrite Hs.
  - injection Hh as <-. rewrite resume_not_paused; [done|]. by rewrite Hs.
  - injection Hh as <-. unfold cancel.
    apply stopped_emit, stopped_taskClear.
    destruct H. by constructor.
  - destruct (invs s !! p) as [i|] eqn:Hin; [|done]. simpl in Hh.
    destruct (task_at p (chunkTasks s)) as [t|]; [|done]. simpl in Hh.
    destruct (stage i); try done.
    destruct (readChunk _ _ _) as [r|]; [|done]. simpl in Hh.
    injection Hh as <-. unfold on_read. destruct r.
    + by apply stopped_uploadChunk_catch.
    + apply (stopped_restage p _ (call _ s)); [|done].
      by apply stopped_call.
  - destruct (invs s !! p) as [i|] eqn:Hin; [|done]. simpl in Hh.
    destruct (task_at p (chunkTasks s)) as [t|] eqn:Ht; [|done].
    simpl in Hh. destruct (stage i); try done.
    injection Hh as <-. unfold on_url, getChunkUploadUrl_catch.
    destruct r0 as [code msg d|msg].
    + case_decide.
      * apply stopped_uploadChunk_catch;
          [by apply stopped_emit|by apply queue_inv_emit|done].
      * apply (stopped_restage p _ (call _ s)); [by apply stopped_call|].
        intros sig [= <-]. proj_cbn.
        pose proof (sp_ctl _ _ H) as Hc. rewrite Forall_forall in Hc.
        apply Hc. apply task_at_lookup in Ht as (j & -> & Hj).
        by eapply list_elem_of_lookup_2.
    + apply stopped_uploadChunk_catch;
        [by apply stopped_emit|by apply queue_inv_emit|done].
  - destruct (invs s !! p) as [i|] eqn:Hin; [|done]. simpl in Hh.
    destruct (task_at p (chunkTasks s)) as [t|] eqn:Ht; [|done].
    simpl in Hh. destruct (stage i) eqn:Hst; try done.
    case_bool_decide as Hsig; [|done].
    destruct Hsig. by eapply (sp_signal _ _ H).
  - destruct (invs s !! p) as [i|] eqn:Hin; [|done]. simpl in Hh.
    destruct (stage i) eqn:Hst; try done.
    pose proof (sp_signal _ _ H p i _ Hin Hst) as Hsig.
    unfold put_settles in Hh.
    destruct r0 as [[m|]|]; try (by rewrite bool_decide_eq_false_2 in Hh
                                      by (intros Hn; by apply Hn)).
    rewrite bool_decide_eq_true_2 in Hh by done.
    injection Hh as <-. unfold on_put.
    by apply stopped_uploadChunk_catch.
  - destruct (invs s !! p) as [i|] eqn:Hin; [|done]. simpl in Hh.
    destruct (stage i); try done.
    injection Hh as <-. by apply stopped_enter.
Qed.

Lemma stopped_run ins s s' :
  stopped ps s → queue_inv c sz False s → flushed s → run s ins = Some s' →
  stopped ps s' ∧ flushed s'.
Proof.
  revert s. induction ins as [|i ins IH]; intros s H Hi Hf Hr; simpl in Hr.
  - by injection Hr as <-.
  - unfold step in Hr. destruct (handle s i) as [s1|] eqn:Hh; [|done].
    simpl in Hr.
    destruct (stopped_flush s1) as [H1 H2]; [by eapply stopped_handle|].
    eapply IH; [done| |done|done].
    by eapply queue_inv_flush, queue_inv_handle.
Qed.
End cancelled_chunk_pass.

(** X10. In a session whose [upload] has been called once: when
    [cancel()] is called while [upload] awaits the chunk pass, then
    whatever happens afterwards, as long as [upload] is not called again:
    the status stays [cancel]; no further chunk is recorded as completed;
    [upload] either still awaits the chunk pass or has resolved to
    [undefined], so the completion request is never issued; and neither
    [completed] nor [error] is emitted. *)
Theorem cancel_in_chunk_pass_ends_upload (c : Config) (sz : Z)
    (ins ins' : list Input) (s s' : Session) (ctx : Ctx) :
  (uploads ins ≤ 1)%nat → uploads ins' = 0%nat →
  run (newUploader c sz) ins = Some s → pc s = PcChunks ctx None →
  run (cancel s) ins' = Some s' →
  status s' = StCancel
  ∧ ((∃ ctx', pc s' = PcChunks ctx' None) ∨ pc s' = PcDone (Resolved None))
  ∧ parts s' = parts s
  ∧ lifecycle (log s') = [EStart].
Proof.
  intros _ _ Hr Hpc Hr'.
  pose proof (queue_inv_run c sz False ins _ s (queue_inv_new c sz False)
                ltac:(done) Hr) as Hi.
  assert (Hl : life_inv s) by by eapply (life_inv_run ins (newUploader c sz)).
  assert (Hs : stopped (parts s) (cancel s)).
  { constructor; try done.
    - simpl. by rewrite Hpc.
    - unfold cancel, taskClear. proj_cbn. apply Forall_forall.
      intros t Ht. apply elem_of_union. right.
      by apply elem_of_list_to_set, list_elem_of_fmap_2.
    - unfold cancel, taskClear. proj_cbn. intros p i sig Hp Hsig.
      pose proof (qi_signal _ _ _ _ Hi p i sig Hp Hsig) as Hc.
      unfold task_ctl in Hc.
      destruct (task_at p (chunkTasks s)) as [t|] eqn:Ht; [|done].
      injection Hc as <-. apply elem_of_union. right.
      apply elem_of_list_to_set, list_elem_of_fmap_2.
      apply task_at_lookup in Ht as (j & -> & Hj).
      by eapply list_elem_of_lookup_2. }
  destruct (stopped_run c sz (parts s) ins' (cancel s) s') as [H1 H2];
    [done|by apply queue_inv_cancel| |done|].
  { intros ctx' r. simpl. by rewrite Hpc. }
  assert (Hpc' : (∃ ctx', pc s' = PcChunks ctx' None)
                 ∨ pc s' = PcDone (Resolved None)).
  { pose proof (sp_pc _ _ H1) as Hu.
    destruct (pc s') as [| | |ctx' [r|]| | | |[[v|]|]] eqn:E; try done.
    - by destruct (H2 ctx' r).
    - eauto.
    - by right. }
  split_and!; [apply H1|done|apply H1|].
  assert (Hl' : life_inv s').
  { eapply (life_inv_run (CallCancel :: ins') s); [done|].
    simpl. unfold step. simpl.
    replace (flush (cancel s)) with (cancel s); [done|].
    symmetry. apply flush_flushed. intros ctx' r. simpl. by rewrite Hpc. }
  unfold life_inv in Hl'. rewrite Hl'.
  by destruct Hpc' as [[ctx' ->]| ->].
Qed.

Lemma cancel_in_chunk_pass_ends_upload_witness :
  let s' := default midTransfer
              (run (cancel midTransfer) [PutDone 1 (Some Canceled)]) in
  status s' = StCancel
  ∧ ((∃ ctx', pc s' = PcChunks ctx' None) ∨ pc s' = PcDone (Resolved None))
  ∧ parts s' = parts midTransfer
  ∧ lifecycle (log s') = [EStart].
Proof.
  intros s'.
  apply (cancel_in_chunk_pass_ends_upload exampleConfig 3
           (created false ++ [ReadDone 1 exampleFile; UrlReply 1 urlReply])
           [PutDone 1 (Some Canceled)] midTransfer s' exampleCtx).
  - vm_compute. lia.
  - reflexivity.
  - vm_compute. reflexivity.
  - vm_compute. reflexivity.
  - vm_compute. reflexivity.
Defined.

(** ** What [pause] does *)

(** The loop of [pause] over the tasks [l]: the controllers of the running
    ones are aborted, their progress entries are set to zero, and nothing
    else changes. *)
Lemma foldl_pause_task (l : list Task.t) (s : Session) :
  let s' := foldl pause_task s l in
  let running := filter (λ t, Task.status t = TRunning) l in
  s' = set_abortedCtl (abortedCtl s') (set_progress (progress s') s)
  ∧ abortedCtl s' = abortedCtl s ∪ list_to_set (Task.controller <$> running)
  ∧ (∀ t, t ∈ running → progress s' !! partNumber t = Some 0)
  ∧ (∀ p, p ∉ partNumber <$> running → progress s' !! p = progress s !! p).
Proof.
  revert s. induction l as [|t l IH]; intros s; simpl.
  { split_and!; [by destruct s| |by intros t Ht%elem_of_nil|done].
    by rewrite (right_id_L ∅ (∪)). }
  destruct (IH (pause_task s t)) as (H1 & H2 & H3 & H4).
  set (s' := foldl pause_task (pause_task s t) l) in *.
  unfold pause_task in H1, H2, H4.
  rewrite filter_cons. destruct (decide (Task.status t = TRunning)) as [Ht|Ht].
  - proj_cbn. split_and!.
    + rewrite H1 at 1. done.
    + rewrite H2, fmap_cons, list_to_set_cons.
      rewrite (comm_L (∪) {[Task.controller t]} (abortedCtl s)).
      by rewrite (assoc_L (∪)).
    + intros u [->|Hu]%elem_of_cons; [|by apply H3].
      destruct (decide (partNumber t ∈ partNumber <$>
                  filter (λ t, Task.status t = TRunning) l)) as [Hin|Hnin].
      * apply list_elem_of_fmap in Hin as (u & Hu & Hin).
        rewrite Hu. by apply H3.
      * rewrite H4 by done. apply lookup_insert_eq.
    + intros p Hp. rewrite fmap_cons in Hp.
      apply not_elem_of_cons in Hp as [Hne Hp].
      rewrite H4 by done. by apply lookup_insert_ne.
  - split_and!; done.
Qed.

(** X11. [pause()] on a running session sets the status to [paused] and
    pauses the queue; it aborts the controller of every task with status
    [running] and of no other task, sets the progress entry of each of
    them to zero and leaves every other entry as it is; and it changes
    nothing else: the tasks keep their status, the queue its jobs. *)
Theorem pause_aborts_running_chunks (s : Session) :
  status s = StRunning →
  pause s =
    set_abortedCtl (abortedCtl (pause s))
      (set_progress (progress (pause s))
         (set_qPaused true (set_status StPaused s)))
  ∧ abortedCtl (pause s) =
      abortedCtl s ∪ list_to_set (Task.controller <$> runningTasks s)
  ∧ (∀ t, t ∈ runningTasks s → progress (pause s) !! partNumber t = Some 0)
  ∧ (∀ p, p ∉ partNumber <$> runningTasks s →
       progress (pause s) !! p = progress s !! p).
Proof.
  intros Hs. unfold pause. rewrite decide_False by (rewrite Hs; auto).
  cbv zeta.
  apply (foldl_pause_task (chunkTasks s)
           (set_qPaused true (set_status StPaused s))).
Qed.

Lemma pause_aborts_running_chunks_witness :
  let s := default (newUploader exampleConfig 3)
             (run (newUploader exampleConfig 3)
                (created false ++ [ReadDone 1 exampleFile; UrlReply 1 urlReply])) in
  abortedCtl (pause s) =
    abortedCtl s ∪ list_to_set (Task.controller <$> runningTasks s).
Proof.
  intros s.
  apply (pause_aborts_running_chunks s).
  vm_compute. reflexivity.
Defined.

(** ** The poller finds the merge complete *)

Lemma poll_waits_run (rs : list CheckData) (s : Session) ctx n :
  pc s = PcPollCheck ctx n →
  Forall (λ d, mergeCompleted d = false) rs →
  n + Z.of_nat (length rs) ≤ pollMaxTimes (options (cfg s)) →
  run s (poll_waits rs) =
    Some (moved (PcPollCheck ctx (n + Z.of_nat (length rs)))
            (poll_log s ctx n (length rs)) s).
Proof.
  revert s n. induction rs as [|d rs IH]; intros s n Hpc Hrs Hlen.
  { simpl. f_equal. unfold moved. destruct s. session_cbv. simpl in Hpc.
    by rewrite app_nil_r, Z.add_0_r, Hpc. }
  apply Forall_cons in Hrs as [Hd Hrs]. simpl length in *.
  change (poll_waits (d :: rs))
    with ([CheckReply (Resp 0 "ok" d); PollTimer] ++ poll_waits rs).
  rewrite run_app, (poll_round s ctx n) by (done || lia).
  cbn [mbind option_bind].
  rewrite (IH _ (n + 1)); [|done|done|].
  - rewrite moved_moved, poll_log_moved. do 3 f_equal. lia.
  - change (cfg (moved _ _ s)) with (cfg s). lia.
Qed.

Lemma check_finds_merged (s : Session) ctx n msg d :
  pc s = PcPollCheck ctx n → mergeCompleted d = true →
  step s (CheckReply (Resp 0 msg d)) =
    Some (set_status StCompleted
            (moved (PcDone (Resolved (Some (completedInfo ctx s))))
               (merged_log s ctx n) s)).
Proof.
  intros Hpc Hd.
  rewrite (step_upload _ _ _ (upload_resume_check s ctx n _ Hpc)).
  unfold on_check. destruct (decide (0 ≠ 0)) as [?|_]; [congruence|].
  rewrite Hd. unfold upload_complete. cbn [upload_settle].
  rewrite flush_flushed by (by intros ? ?).
  f_equal. unfold moved, merged_log, completedInfo. session_cbv.
  f_equal. by rewrite <- !app_assoc.
Qed.

(** X12. When the completion response reports an asynchronous merge that
    is not complete, the first [k] status checks report the merge
    incomplete and the next one reports it complete, with
    [k < pollMaxTimes]: the poller issues exactly [k + 1] status checks
    with [k] pauses of [pollInterval] between them, and the session then
    completes -- it emits the [complete] progress event and [completed],
    its status is [completed] and [upload] resolves with the file
    information -- whatever file id the status responses carry. *)
Theorem poll_completes_when_merged (s : Session) ctx msg msg' fd
    (rs : list CheckData) (d : CheckData) :
  pc s = PcFinish ctx →
  asyncUpload fd = true → completed fd = false →
  Forall (λ d, mergeCompleted d = false) rs → mergeCompleted d = true →
  Z.of_nat (length rs) < pollMaxTimes (options (cfg s)) →
  let l := poll_trace s ctx (length rs)
             ++ merged_log s ctx (Z.of_nat (length rs) + 1) in
  run s (FinishReply (Resp 0 msg fd) :: poll_waits rs
           ++ [CheckReply (Resp 0 msg' d)])
    = Some (set_status StCompleted
              (moved (PcDone (Resolved (Some (completedInfo ctx s)))) l s))
  ∧ List.filter is_check_call l =
      replicate (S (length rs)) (Call (ReqCheck (ctxPreuploadID ctx)))
  ∧ List.filter is_sleep l =
      replicate (length rs) (Sleep (pollInterval (options (cfg s)))).
Proof.
  intros Hpc Ha Hc Hrs Hd Hlen l. split_and!.
  - cbn [run].
    rewrite (step_upload _ _ _ (upload_resume_finish s ctx _ Hpc)).
    unfold on_finish. destruct (decide (0 ≠ 0)) as [?|_]; [congruence|].
    rewrite Ha, Hc. cbn [andb negb].
    unfold poll_loop. rewrite decide_True by (simpl; lia).
    cbn [mbind option_bind upload_settle].
    set (s0 := moved (PcPollCheck ctx (0 + 1))
      [Emit (progressEvent PhMerging (1, 1) (size s) (size s) XMessage);
       Call (ReqCheck (ctxPreuploadID ctx))] s).
    assert (Hs0 : flush (set_pc (PcPollCheck ctx (0 + 1))
       (call (ReqCheck (ctxPreuploadID ctx))
          (emit (progressEvent PhMerging (1, 1) (size s) (size s) XMessage)
             s))) = s0).
    { rewrite flush_flushed by (by intros ? ?). unfold s0, moved.
      session_cbv. f_equal. by rewrite <- app_assoc. }
    rewrite Hs0, run_app.
    rewrite (poll_waits_run rs s0 ctx 1); [|done|done|].
    + cbn [mbind option_bind run].
      erewrite check_finds_merged; [|done|done].
      cbn [mbind option_bind]. f_equal.
      unfold s0. rewrite poll_log_moved.
      unfold merged_log, completedInfo.
      repeat (change (cfg (moved ?a ?b ?x)) with (cfg x));
        repeat (change (size (moved ?a ?b ?x)) with (size x)).
      rewrite !moved_moved. unfold l, poll_trace, merged_log.
      do 2 f_equal. rewrite <- !app_assoc. do 6 f_equal. lia.
    + change (cfg s0) with (cfg s). lia.
  - unfold l, poll_trace, merged_log.
    rewrite !List.filter_app, poll_log_checks. simpl.
    by rewrite app_nil_r.
  - unfold l, poll_trace, merged_log.
    rewrite !List.filter_app, poll_log_sleeps. simpl.
    by rewrite app_nil_r.
Qed.

Lemma poll_completes_when_merged_witness :
  ∃ s', run beforeFinish
          (FinishReply (finishReply true false)
             :: poll_waits [{| mergeCompleted := false; mergeFileID := None |}]
             ++ [CheckReply (checkReply true)])
        = Some s'
    ∧ status s' = StCompleted.
Proof.
  destruct (poll_completes_when_merged beforeFinish exampleCtx "ok" "ok"
    {| asyncUpload := true; finishFileID := Some "F2"; completed := false |}
    [{| mergeCompleted := false; mergeFileID := None |}]
    {| mergeCompleted := true; mergeFileID := Some "F3" |})
    as (Hrun & _ & _).
  - vm_compute. reflexivity.
  - reflexivity.
  - reflexivity.
  - repeat constructor.
  - reflexivity.
  - vm_compute. reflexivity.
  - eexists. split; [exact Hrun|]. reflexivity.
Defined.

(** ** An upload in which everything succeeds *)

Lemma task_at_is_Some p ts :
  (1 ≤ p ≤ length ts)%nat → is_Some (task_at p ts).
Proof.
  intros Hp. destruct p as [|i]; [lia|]. simpl.
  apply lookup_lt_is_Some. lia.
Qed.

Lemma ranges_update (P : Task.t → Prop) p v ts :
  (∀ t, P t → P (Task.set_status v t)) →
  Forall P ts → Forall P (task_update p (Task.set_status v) ts).
Proof.
  intros Hf H. destruct p as [|i]; [done|]. simpl.
  apply Forall_alter; [done|]. intros t _. apply Hf.
Qed.

Section flow.
Context (P : nat → Invocation → Prop) (c : Config) (n : nat).

Lemma flowing_log m j s l : flowing P c n m j s → flowing P c n m j (set_log l s).
Proof. intros H. destruct H. by constructor. Qed.

Lemma flowing_task_status m j s p v :
  flowing P c n m j s → flowing P c n m j (set_task_status p v s).
Proof.
  intros H. destruct H. constructor; qi_unfold; try done.
  - by rewrite length_task_update.
  - by apply ranges_update.
Qed.

(** An activation moves on to its next await. *)
Lemma flowing_restage m j s p inv st r :
  flowing P c n m j s → invs s !! p = Some inv →
  P p {| stage := st; retryCount := r |} →
  flowing P c n m j
    (set_invs (<[p := {| stage := st; retryCount := r |}]> (invs s)) s).
Proof.
  intros H Hp Hst. destruct H. constructor; qi_unfold; try done.
  - rewrite map_size_insert_Some by (by eexists). done.
  - rewrite map_size_insert_Some by (by eexists). done.
  - rewrite map_size_insert_Some by (by eexists). done.
  - intros q Hq. rewrite lookup_insert_ne; [by apply fl_apart0|].
    intros ->. rewrite fl_apart0 in Hp; done.
  - intros q [Hq|Hq]; [|by apply fl_keys0; right].
    apply fl_keys0. left. destruct (decide (p = q)) as [->|Hne].
    + by eexists.
    + by rewrite lookup_insert_ne in Hq.
  - intros q inv' Hq. destruct (decide (p = q)) as [->|Hne].
    + rewrite lookup_insert_eq in Hq. by injection Hq as <-.
    + rewrite lookup_insert_ne in Hq by done. by eapply fl_stage0.
Qed.

(** [queue.add] of the next part. *)
Lemma flowing_queue_add m j s :
  P (S m) {| stage := SRead; retryCount := 0 |} →
  (m < n)%nat → flowing P c n m j s →
  flowing P c n (S m) (S j) (queue_add (S m) s)
  ∧ listening (queue_add (S m) s) = listening s
  ∧ pc (queue_add (S m) s) = pc s.
Proof.
  intros HP Hm H. destruct H.
  assert (Hfresh : (S m ∉ qJobs s) ∧ invs s !! S m = None).
  { split.
    - intros Hin. specialize (fl_keys0 (S m) (or_intror Hin)). lia.
    - destruct (invs s !! S m) eqn:E; [|done].
      specialize (fl_keys0 (S m) (or_introl (mk_is_Some _ _ E))). lia. }
  destruct Hfresh as [Hq Hi].
  unfold queue_add, tryToStartAnother. proj_cbn. rewrite fl_open0, fl_cfg0.
  destruct (qJobs s) as [|q rest] eqn:E; simpl.
  - case_bool_decide as Hlt.
    + unfold uploadChunk_enter. proj_cbn.
      destruct (task_at_is_Some (S m) (chunkTasks s) ltac:(lia)) as [t Ht].
      rewrite Ht. cbn [fst]. proj_cbn. split_and!; try done.
      constructor; qi_unfold; try done.
      * by rewrite length_task_update.
      * by apply ranges_update.
      * rewrite map_size_insert_None by done. simpl in *. lia.
      * rewrite map_size_insert_None by done. unfold pending in Hlt. lia.
      * intros p Hp. by apply elem_of_nil in Hp.
      * intros p [Hp|Hp]; [|by apply elem_of_nil in Hp].
        destruct (decide (S m = p)) as [<-|Hne]; [lia|].
        rewrite lookup_insert_ne in Hp by done.
        specialize (fl_keys0 p (or_introl Hp)). lia.
      * intros p inv Hp. destruct (decide (S m = p)) as [<-|Hne].
        -- rewrite lookup_insert_eq in Hp. by injection Hp as <-.
        -- rewrite lookup_insert_ne in Hp by done. by eapply fl_stage0.
    + cbn [fst]. split_and!; try done.
      constructor; qi_unfold; try done.
      * simpl in *. lia.
      * intros _. unfold pending in Hlt. lia.
      * apply NoDup_singleton.
      * intros p Hp. apply list_elem_of_singleton in Hp as ->. done.
      * intros p [Hp|Hp].
        -- specialize (fl_keys0 p (or_introl Hp)). lia.
        -- apply list_elem_of_singleton in Hp as ->. lia.
  - assert (Hfull : pending s = concurrency (options c))
      by (by apply fl_full0).
    qi_unfold. rewrite bool_decide_eq_false_2 by lia.
    cbn [andb fst]. split_and!; try done.
    constructor; qi_unfold; try done.
    + change (q :: rest ++ [S m]) with ((q :: rest) ++ [S m]).
      rewrite length_app. simpl in *. lia.
    + change (q :: rest ++ [S m]) with ((q :: rest) ++ [S m]).
      apply NoDup_app. split_and!; [done| |apply NoDup_singleton].
      intros p Hp Hp'. apply list_elem_of_singleton in Hp' as ->. done.
    + intros p Hp.
      change (q :: rest ++ [S m]) with ((q :: rest) ++ [S m]) in Hp.
      apply elem_of_app in Hp as [Hp|Hp]; [by apply fl_apart0|].
      apply list_elem_of_singleton in Hp as ->. done.
    + intros p [Hp|Hp].
      * specialize (fl_keys0 p (or_introl Hp)). lia.
      * change (q :: rest ++ [S m]) with ((q :: rest) ++ [S m]) in Hp.
        apply elem_of_app in Hp as [Hp|Hp].
        -- specialize (fl_keys0 p (or_intror Hp)). lia.
        -- apply list_elem_of_singleton in Hp as ->. lia.
Qed.

(** The loop of [uploadChunks] that adds the planned tasks to the queue,
    from part [m + 1] on. *)
Lemma flowing_fan_out (ts : list Task.t) m j s :
  (∀ p, P p {| stage := SRead; retryCount := 0 |}) →
  partNumber <$> ts = seq (S m) (length ts) → (m + length ts ≤ n)%nat →
  flowing P c n m j s →
  let s' := foldl (λ s t, queue_add (partNumber t) s) s ts in
  flowing P c n (m + length ts) (j + length ts) s'
  ∧ listening s' = listening s ∧ pc s' = pc s.
Proof.
  intros HP. revert m j s.
  induction ts as [|t ts IH]; intros m j s Hp Hm H; simpl.
  { by rewrite !Nat.add_0_r. }
  simpl in Hp, Hm. injection Hp as Ht Hp.
  assert (Hpt : partNumber t = S m) by (unfold partNumber; by rewrite Ht).
  rewrite !Hpt. fold (fmap (M:=list) partNumber ts) in Hp.
  destruct (flowing_queue_add m j s (HP _) ltac:(lia) H) as (H1 & Hl & Hpc).
  destruct (IH (S m) (S j) (queue_add (S m) s) Hp ltac:(lia) H1)
    as (H2 & Hl2 & Hpc2).
  rewrite Hl2, Hpc2, Hl, Hpc.
  replace (m + S (length ts))%nat with (S m + length ts)%nat by lia.
  replace (j + S (length ts))%nat with (S j + length ts)%nat by lia.
  done.
Qed.

Lemma planTasks_parts (sz sl : Z) uid nz c0 (k : nat) :
  partNumber <$>
    ((λ i, planTask sz sl uid nz (c0 + i)%nat i) <$> seq 0 k) = seq 1 k.
Proof.
  rewrite <- list_fmap_compose. rewrite <- (fmap_S_seq 0 k).
  by apply list_fmap_ext.
Qed.

Lemma planTasks_ranges (sz sl : Z) uid c0 :
  0 < sz → 0 < sl →
  Forall (λ t, 0 ≤ Task.start t ∧ 0 < Task.chunkSize t)
    (planTasks sz sl uid (ceil_div sz sl) c0).
Proof.
  intros Hsz Hsl. unfold planTasks. apply Forall_fmap, Forall_forall.
  intros i Hi. apply elem_of_seq in Hi.
  pose proof (ceil_div_bounds sz sl Hsl) as Hb.
  assert (Hlt : Z.of_nat i < ceil_div sz sl) by lia.
  simpl. split; [lia|].
  pose proof (planTask_chunkSize sz sl uid Hsl i (ceil_div sz sl)
                (c0 + i)%nat Hlt) as Hc.
  simpl in Hc. rewrite Hc. case_decide; nia.
Qed.

(** [uploadChunks] on a session that nothing has disturbed, for a file
    that is not empty. *)
Lemma flowing_uploadChunks uid sz sl s :
  (∀ p, P p {| stage := SRead; retryCount := 0 |}) →
  0 ≤ concurrency (options c) →
  0 < sz → 0 < sl → n = Z.to_nat (ceil_div sz sl) →
  cfg s = c → status s = StRunning → qPaused s = false →
  abortedCtl s = ∅ → invs s = ∅ → qJobs s = [] →
  size s = sz → chunkSize s = sl →
  let s' := uploadChunks uid (ceil_div sz sl) s in
  flowing P c n n n s' ∧ listening s' = true
  ∧ totalChunks s' = Z.of_nat n ∧ parts s' = [] ∧ (1 ≤ n)%nat.
Proof.
  intros HP Hconc Hsz Hsl Hn Hc Hst Hq Ha Hi Hj Hs Hk.
  pose proof (ceil_div_bounds sz sl Hsl) as Hb.
  assert (Hpos : (1 ≤ n)%nat) by nia.
  unfold uploadChunks. cbv zeta. proj_cbn. rewrite Hs, Hk.
  set (tasks := planTasks sz sl uid (ceil_div sz sl) (nextCtl s)).
  assert (Hlen : length tasks = n).
  { unfold tasks, planTasks. by rewrite length_fmap, length_seq. }
  set (s0 := set_chunkTasks tasks
               (set_nextCtl (nextCtl s + length tasks) s)).
  assert (H0 : flowing P c n 0 0 s0).
  { constructor; unfold s0; qi_unfold; try done.
    - by apply planTasks_ranges.
    - by rewrite Hi, Hj.
    - rewrite Hi, map_size_empty. lia.
    - rewrite Hj. constructor.
    - rewrite Hj. intros p Hp. by apply elem_of_nil in Hp.
    - rewrite Hi, Hj. intros p [[x Hp]|Hp]; [by rewrite lookup_empty in Hp|].
      by apply elem_of_nil in Hp.
    - rewrite Hi. intros p inv Hp. by rewrite lookup_empty in Hp. }
  destruct (flowing_fan_out tasks 0 0 s0 HP) as (H1 & _ & _); [|lia|done|].
  { unfold tasks, planTasks. rewrite planTasks_parts.
    by rewrite length_fmap, length_seq. }
  rewrite Hlen in H1. simpl in H1.
  set (s1 := foldl (λ s t, queue_add (partNumber t) s) s0 tasks) in *.
  split_and!; [|done|lia|done|done].
  destruct H1. by constructor.
Qed.

Lemma flowing_parts m j s l :
  flowing P c n m j s → flowing P c n m j (set_parts l s).
Proof. intros H. destruct H. by constructor. Qed.

Lemma flowing_progress m j s l :
  flowing P c n m j s → flowing P c n m j (set_progress l s).
Proof. intros H. destruct H. by constructor. Qed.

Lemma flowing_pc m j s l : flowing P c n m j s → flowing P c n m j (set_pc l s).
Proof. intros H. destruct H. by constructor. Qed.

(** An activation settles and nothing is queued. *)
Lemma flowing_retire m j s p :
  flowing P c n m j s → is_Some (invs s !! p) → qJobs s = [] →
  flowing P c n m (pred j) (set_invs (delete p (invs s)) s).
Proof.
  intros H Hp Hq. destruct H.
  pose proof (map_size_delete_Some _ _ Hp) as Hd.
  assert (Hpos : base.size (invs s) ≠ 0%nat).
  { intros H0. apply map_size_empty_inv in H0. rewrite H0 in Hp.
    destruct Hp as [x Hp]. by rewrite lookup_empty in Hp. }
  constructor; qi_unfold; try done.
  - rewrite Hd, Hq in *. simpl in *. lia.
  - rewrite Hd. lia.
  - intros q Hin. by rewrite Hq in Hin; apply elem_of_nil in Hin.
  - intros q [[x Hx]|Hx]; [|by apply fl_keys0; right].
    apply lookup_delete_Some in Hx as [_ Hx]. apply fl_keys0. left.
    by eexists.
  - intros q inv Hx. apply lookup_delete_Some in Hx as [_ Hx].
    by eapply fl_stage0.
Qed.

(** An activation settles and the first job of the queue takes its
    place. *)
Lemma flowing_replace j s p q rest :
  flowing P c n n j s → is_Some (invs s !! p) → qJobs s = q :: rest →
  P q {| stage := SRead; retryCount := 0 |} →
  let s' :=
    uploadChunk_enter q 0
      (set_qJobs rest (set_invs (delete p (invs s)) s)) in
  flowing P c n n (pred j) s' ∧ (1 ≤ pred j)%nat
  ∧ listening s' = listening s ∧ totalChunks s' = totalChunks s
  ∧ parts s' = parts s ∧ pc s' = pc s.
Proof.
  intros H Hp Hq HP s'. destruct H.
  pose proof (map_size_delete_Some _ _ Hp) as Hd.
  assert (Hpos : base.size (invs s) ≠ 0%nat).
  { intros H0. apply map_size_empty_inv in H0. rewrite H0 in Hp.
    destruct Hp as [x Hp]. by rewrite lookup_empty in Hp. }
  assert (Hqin : q ∈ qJobs s) by (rewrite Hq; left).
  assert (Hqi : invs s !! q = None) by by apply fl_apart0.
  assert (Hnd : (q ∉ rest) ∧ NoDup rest)
    by (rewrite Hq in fl_nodup0; by apply NoDup_cons in fl_nodup0).
  destruct Hnd as [Hqr Hnd].
  destruct (task_at_is_Some q (chunkTasks s)) as [t Ht].
  { rewrite fl_tasks0. apply fl_keys0. by right. }
  assert (Hfresh : delete p (invs s) !! q = None).
  { apply lookup_delete_None. by right. }
  unfold s', uploadChunk_enter. proj_cbn. rewrite Ht. proj_cbn.
  split_and!; try done.
  - constructor; qi_unfold; try done.
    + by rewrite length_task_update.
    + by apply ranges_update.
    + rewrite map_size_insert_None, Hd by done. rewrite Hq in *.
      simpl in *. lia.
    + rewrite map_size_insert_None, Hd by done. lia.
    + intros _. rewrite map_size_insert_None, Hd by done.
      rewrite <- fl_full0 by (by rewrite Hq). lia.
    + intros r Hr. rewrite lookup_insert_ne by (by intros ->).
      apply lookup_delete_None. right. apply fl_apart0. rewrite Hq.
      by right.
    + intros r [[x Hx]|Hx].
      * destruct (decide (q = r)) as [<-|Hqne]; [by apply fl_keys0; right|].
        rewrite lookup_insert_ne in Hx by done.
        apply lookup_delete_Some in Hx as [_ Hx]. apply fl_keys0. left.
        by eexists.
      * apply fl_keys0. right. rewrite Hq. by right.
    + intros r inv Hx. destruct (decide (q = r)) as [<-|Hqne].
      * rewrite lookup_insert_eq in Hx. by injection Hx as <-.
      * rewrite lookup_insert_ne in Hx by done.
        apply lookup_delete_Some in Hx as [_ Hx]. by eapply fl_stage0.
  - rewrite <- fl_balance0, Hq. simpl. lia.
Qed.

End flow.

(** Good news to a chunk pass whose activations are as [P] says, where
    [P] is a property that a new activation has and that an activation
    keeps from one await to the next of the same attempt. *)
Section good_news.
Context (P : nat → Invocation → Prop) (c : Config) (n : nat).
Hypothesis Hconc : 1 ≤ concurrency (options c).
Hypothesis Hnew : ∀ p, P p {| stage := SRead; retryCount := 0 |}.
Hypothesis Hkeep :
  ∀ p inv st, P p inv → stage inv ≠ SRetry → st ≠ SRetry →
    P p {| stage := st; retryCount := retryCount inv |}.

(** [uploadChunks] of a session that nothing has disturbed. *)
Lemma passing_uploadChunks uid ctx sz sl s :
  0 < sz → 0 < sl → n = Z.to_nat (ceil_div sz sl) →
  cfg s = c → status s = StRunning → qPaused s = false →
  abortedCtl s = ∅ → invs s = ∅ → qJobs s = [] →
  size s = sz → chunkSize s = sl →
  passing P c ctx n 0
    (set_pc (PcChunks ctx None) (uploadChunks uid (ceil_div sz sl) s)).
Proof.
  intros Hsz Hsl Hn Hc Hst Hq Ha Hi Hj Hs Hk.
  destruct (flowing_uploadChunks P c n uid sz sl s)
    as (H1 & H2 & H3 & H4 & H5); try done; [lia|].
  constructor; proj_cbn; try done.
  - rewrite Nat.sub_0_r. by apply flowing_pc.
  - lia.
  - rewrite decide_False by lia. done.
  - lia.
Qed.

(** Good news to the chunk pass takes it one step on; a transfer that
    has got its response is one chunk more, and the last of them makes
    [upload] issue the completion request. *)
Lemma passing_step ctx k s i s' :
  passing P c ctx n k s → succeeds i = true → step s i = Some s' →
  passing P c ctx n (k + puts i) s'.
Proof.
  intros H Hs Hstep. unfold step in Hstep.
  destruct (handle s i) as [s1|] eqn:Hh; [|done]. injection Hstep as <-.
  destruct H as [Hf Hk Hl Ht Hp Hpc Ha].
  destruct (decide (k = n)) as [->|Hne].
  { destruct Hf. rewrite Nat.sub_diag in fl_balance0.
    assert (Hi : invs s = ∅) by (apply map_size_empty_inv; lia).
    destruct i as [tgt0| | | |r0|r0|p f|p r0|p l|p r0|p|r0|r0|];
      try done; simpl in Hh; by rewrite Hi, lookup_empty in Hh. }
  assert (Hflush : ∀ x, pc x = PcChunks ctx None → flush x = x).
  { intros x Hx. unfold flush. by rewrite Hx. }
  destruct i as [tgt0| | | |r0|r0|p f|p r0|p l|p r0|p|r0|r0|];
    try done; simpl in Hh.
  - destruct f as [| |content]; try done.
    destruct (invs s !! p) as [inv|] eqn:Hin; [|done]. simpl in Hh.
    destruct (task_at p (chunkTasks s)) as [t|] eqn:Et; [|done].
    simpl in Hh. destruct (stage inv) eqn:Est; try done.
    assert (Hr : 0 ≤ Task.start t ∧ 0 < Task.chunkSize t).
    { apply task_at_lookup in Et as (i & -> & Hi).
      eapply (Forall_lookup_1 _ _ _ _ (fl_ranges _ _ _ _ _ _ Hf) Hi). }
    rewrite readChunk_bytes in Hh by tauto. simpl in Hh.
    injection Hh as <-. unfold on_read.
    rewrite Hflush by done. simpl puts. rewrite Nat.add_0_r.
    constructor; proj_cbn; try done.
    + apply (flowing_restage P c n _ _ (call _ s) p inv); [|done|].
      * by apply flowing_log.
      * apply (Hkeep p inv); [|by rewrite Est|done].
        by apply (fl_stage _ _ _ _ _ _ Hf).
    + by rewrite decide_False.
  - destruct r0 as [code msg d|]; [|done]. destruct code; try done.
    destruct (invs s !! p) as [inv|] eqn:Hin; [|done]. simpl in Hh.
    destruct (task_at p (chunkTasks s)) as [t|] eqn:Et; [|done].
    simpl in Hh. destruct (stage inv) eqn:Est; try done.
    injection Hh as <-.
    rewrite Hflush by done. simpl puts. rewrite Nat.add_0_r.
    constructor; proj_cbn; try done.
    + apply (flowing_restage P c n _ _ (call _ s) p inv); [|done|].
      * by apply flowing_log.
      * apply (Hkeep p inv); [|by rewrite Est|done].
        by apply (fl_stage _ _ _ _ _ _ Hf).
    + by rewrite decide_False.
  - destruct (invs s !! p) as [inv|] eqn:Hin; [|done]. simpl in Hh.
    destruct (task_at p (chunkTasks s)) as [t|] eqn:Et; [|done].
    simpl in Hh. destruct (stage inv) eqn:Est; try done.
    case_match; [|done]. injection Hh as <-. unfold on_put_progress.
    cbv zeta. rewrite Hflush by done. simpl puts. rewrite Nat.add_0_r.
    constructor; proj_cbn; try done.
    + by apply flowing_log, flowing_progress.
    + by rewrite decide_False.
  - destruct r0 as [e|]; [done|].
    destruct (invs s !! p) as [inv|] eqn:Hin; [|done]. simpl in Hh.
    destruct (stage inv) eqn:Est; try done.
    case_match; [|done]. injection Hh as <-.
    assert (Hp' : is_Some (invs s !! p)) by by eexists.
    unfold on_put, job_return, completed_listener, next, tryToStartAnother.
    rewrite Hl. proj_cbn.
    set (s0 := set_parts (parts s ++ [p]) (set_task_status p TCompleted s)).
    assert (Hf0 : flowing P c n n (n - k) s0)
      by by apply flowing_parts, flowing_task_status.
    assert (Hp0 : is_Some (invs s0 !! p)) by done.
    assert (Hbal := fl_balance _ _ _ _ _ _ Hf).
    change (qJobs (set_task_status p TCompleted s)) with (qJobs s).
    change (invs (set_task_status p TCompleted s)) with (invs s).
    change (qPaused (set_task_status p TCompleted s)) with (qPaused s).
    change (cfg (set_task_status p TCompleted s)) with (cfg s).
    simpl puts.
    assert (Hsub : (n - (k + 1))%nat = pred (n - k)) by lia.
    assert (Hpos : base.size (invs s) ≠ 0%nat).
    { intros H0. apply map_size_empty_inv in H0. rewrite H0 in Hin.
      by rewrite lookup_empty in Hin. }
    destruct (qJobs s) as [|q rest] eqn:Eq.
    + pose proof (flowing_retire P c n _ _ s0 p Hf0 Hp0 Eq) as Hf1.
      pose proof (map_size_delete_Some _ _ Hp') as Hd.
      simpl in Hbal.
      destruct (decide (pending _ = 0)) as [Hz|Hz]; cbn [fst].
      * unfold pending in Hz. proj_cbn.
        unfold idle_listener. proj_cbn.
        change (listening s0) with (listening s).
        change (parts s0) with (parts s ++ [p]).
        change (totalChunks s0) with (totalChunks s).
        change (length (chunkTasks s0)) with
          (length (task_update p (Task.set_status TCompleted) (chunkTasks s))).
        rewrite Hl, Ht.
        rewrite decide_False by (rewrite length_app; simpl; lia).
        rewrite decide_True by (rewrite length_app; simpl; lia).
        unfold resolve_chunks. proj_cbn.
        change (pc s0) with (pc s). rewrite Hpc.
        unfold flush. proj_cbn. unfold upload_after_chunks, upload_settle.
        proj_cbn.
        constructor; proj_cbn; try done.
        -- rewrite Hsub. by apply flowing_pc, flowing_log, flowing_pc.
        -- lia.
        -- unfold s0. proj_cbn. rewrite length_app. simpl. lia.
        -- rewrite decide_True by lia. done.
        -- intros _. by rewrite last_snoc.
      * unfold pending in Hz. proj_cbn. rewrite Hflush by done.
        constructor; proj_cbn; try done.
        -- by rewrite Hsub.
        -- lia.
        -- unfold s0. proj_cbn. rewrite length_app. simpl. lia.
        -- rewrite decide_False by lia. done.
        -- lia.
    + rewrite (fl_open _ _ _ _ _ _ Hf), (fl_cfg _ _ _ _ _ _ Hf).
      pose proof (map_size_delete_Some _ _ Hp') as Hd.
      pose proof (fl_full _ _ _ _ _ _ Hf) as Hfull. rewrite Eq in Hfull.
      unfold pending in *. proj_cbn.
      specialize (Hfull ltac:(done)).
      rewrite bool_decide_eq_true_2 by lia.
      cbn [negb andb fst].
      destruct (flowing_replace P c n _ s0 p q rest Hf0 Hp0 Eq (Hnew q))
        as (Hf1 & Hj & G1 & G2 & G3 & G4).
      rewrite Hflush by exact (eq_trans G4 Hpc).
      constructor; try done.
      * by rewrite Hsub.
      * lia.
      * exact (eq_trans G1 Hl).
      * exact (eq_trans G2 Ht).
      * etrans; [exact (f_equal length G3)|].
        unfold s0. proj_cbn. rewrite length_app. simpl. lia.
      * rewrite decide_False by lia. exact (eq_trans G4 Hpc).
      * lia.
Qed.

Lemma passing_run ctx ins k s s' :
  passing P c ctx n k s → forallb succeeds ins = true →
  run s ins = Some s' → passing P c ctx n (k + transferred ins) s'.
Proof.
  revert k s. induction ins as [|i ins IH]; intros k s H Hs Hr; simpl in Hr.
  - injection Hr as <-. unfold transferred. simpl. by rewrite Nat.add_0_r.
  - destruct (step s i) as [s1|] eqn:Hst; [|done]. simpl in Hr.
    simpl in Hs. apply andb_prop in Hs as [Hi Hs].
    unfold transferred. simpl. rewrite Nat.add_assoc.
    eapply IH; [|done..]. by eapply passing_step.
Qed.

End good_news.

(** [upload] from its call to the await of [md5File], and from there to
    the await of the create-task request. *)
Lemma step_call_upload s tgt :
  pc s = PcNew →
  let s' := upload_settle (upload_start tgt s) in
  step s (CallUpload tgt) = Some s'
  ∧ pc s' = PcMd5 tgt ∧ status s' = StRunning
  ∧ cfg s' = cfg s ∧ qPaused s' = qPaused s ∧ abortedCtl s' = abortedCtl s
  ∧ invs s' = invs s ∧ qJobs s' = qJobs s ∧ size s' = size s.
Proof.
  intros Hpc s'. split; [|by split_and!].
  rewrite (step_upload s _ (upload_start tgt s)).
  - by rewrite flush_flushed by (by intros ctx r).
  - unfold upload_resume. by rewrite Hpc.
Qed.

Lemma step_hashed s tgt etag :
  pc s = PcMd5 tgt →
  let s' := upload_settle (on_md5 tgt (inr etag) s) in
  step s (Md5Done (inr etag)) = Some s'
  ∧ pc s' = PcCreate tgt ∧ status s' = status s
  ∧ cfg s' = cfg s ∧ qPaused s' = qPaused s ∧ abortedCtl s' = abortedCtl s
  ∧ invs s' = invs s ∧ qJobs s' = qJobs s ∧ size s' = size s.
Proof.
  intros Hpc s'. split; [|by split_and!].
  rewrite (step_upload s _ (on_md5 tgt (inr etag) s)).
  - by rewrite flush_flushed by (by intros ctx r).
  - unfold upload_resume. by rewrite Hpc.
Qed.

(** The create-task response opens a new upload: the chunk pass
    starts. *)
Lemma step_created s tgt msg d :
  pc s = PcCreate tgt → reuse d = false → sliceSize d ≠ 0 →
  step s (CreateReply (Resp 0 msg d)) =
    Some
      (set_pc
         (PcChunks {| target := tgt; ctxFileID := fileID d;
                      ctxPreuploadID := preuploadID d |} None)
         (uploadChunks (preuploadID d)
            (ceil_div (size s) (sliceSize d))
            (set_chunkSize (sliceSize d) s))).
Proof.
  intros Hpc Hre Hsl.
  rewrite (step_upload s _ (on_create tgt (Resp 0 msg d) s)).
  - unfold on_create. rewrite decide_False by (by intros ?).
    unfold upload_created. rewrite Hre. cbv zeta. unfold upload_settle.
    by rewrite flush_flushed by (by intros ctx r).
  - unfold upload_resume. rewrite Hpc, Hre.
    by rewrite bool_decide_eq_false_2 by done.
Qed.

(** An activation in flight takes the good news it waits for. *)
Lemma flowing_accepts c n j s p inv :
  flowing calm c n n j s → invs s !! p = Some inv →
  succeeds (good_news p (stage inv)) = true
  ∧ is_Some (step s (good_news p (stage inv))).
Proof.
  intros H Hp. destruct H.
  destruct (task_at_is_Some p (chunkTasks s)) as [t Ht].
  { rewrite fl_tasks0. apply fl_keys0. left. by eexists. }
  assert (Hr : 0 ≤ Task.start t ∧ 0 < Task.chunkSize t).
  { apply task_at_lookup in Ht as (i & -> & Hi).
    eapply (Forall_lookup_1 _ _ _ _ fl_ranges0 Hi). }
  unfold step, handle.
  destruct (stage inv) as [|fd|sig|] eqn:Est; cbn [good_news succeeds].
  - rewrite Hp. cbn [mbind option_bind]. rewrite Ht. cbn [mbind option_bind].
    rewrite Est, readChunk_bytes by tauto. cbn [mbind option_bind fmap option_fmap option_map].
    split; [done|by eexists].
  - unfold urlReply. rewrite Hp. cbn [mbind option_bind]. rewrite Ht.
    cbn [mbind option_bind]. rewrite Est.
    cbn [fmap option_fmap option_map]. split; [done|by eexists].
  - rewrite Hp. cbn [mbind option_bind]. rewrite Est.
    unfold put_settles. rewrite fl_clean0.
    rewrite bool_decide_eq_true_2 by (apply not_elem_of_empty).
    cbn [fmap option_fmap option_map]. split; [done|by eexists].
  - by destruct (fl_stage0 p inv Hp).
Qed.

Lemma run_step s i s' ins :
  step s i = Some s' → run s (i :: ins) = run s' ins.
Proof. intros H. simpl. by rewrite H. Qed.

(** X13. A file that is not empty, a slice size [> 0] and a
    [concurrency] of at least 1: when the file is hashed and the server
    opens a new upload, then along all good news to the chunk pass --
    reads, URL responses, progress reports and transfers that succeed, in
    whatever order the chunks are served -- with [k] of the [n] chunks
    transferred the status is [running], [k] parts are recorded,
    [min concurrency (n - k)] activations are in flight and the other
    chunks wait in the queue; every activation in flight takes the good
    news it waits for; while chunks are left [upload] awaits the chunk
    pass; and with the last chunk the completion request is issued, and a
    completion response that reports the file complete makes [upload]
    resolve with the file information and the status [completed]. *)
Theorem upload_completes_when_chunks_succeed (c : Config) (sz : Z)
    (tgt : option string) (etag msg : string) (d : CreateData)
    (ins : list Input) (s : Session) :
  1 ≤ concurrency (options c) → 0 < sz → 0 < sliceSize d →
  reuse d = false → forallb succeeds ins = true →
  run (newUploader c sz)
    (CallUpload tgt :: Md5Done (inr etag) :: CreateReply (Resp 0 msg d)
       :: ins) = Some s →
  let n := ceil_div sz (sliceSize d) in
  let k := Z.of_nat (transferred ins) in
  let ctx := {| target := tgt; ctxFileID := fileID d;
                ctxPreuploadID := preuploadID d |} in
  k ≤ n ∧ status s = StRunning ∧ Z.of_nat (length (parts s)) = k
  ∧ pending s = Z.min (concurrency (options c)) (n - k)
  ∧ Z.of_nat (length (qJobs s)) = n - k - pending s
  ∧ (∀ p inv, invs s !! p = Some inv →
       succeeds (good_news p (stage inv)) = true
       ∧ is_Some (step s (good_news p (stage inv))))
  ∧ (k < n → pc s = PcChunks ctx None)
  ∧ (k = n →
       pc s = PcFinish ctx
       ∧ last (log s) = Some (Call (ReqFinish (preuploadID d)))
       ∧ ∀ m fd, asyncUpload fd && negb (completed fd) = false →
           ∃ s', step s (FinishReply (Resp 0 m fd)) = Some s'
             ∧ status s' = StCompleted
             ∧ pc s' =
                 PcDone (Resolved (Some
                   {| fileId := js_or (fileID d) (preuploadID d);
                      filename := js_or tgt (basename (filePath c)) |}))).
Proof.
  intros Hconc Hsz Hsl Hre Hgood Hr n k ctx.
  pose proof (ceil_div_bounds sz (sliceSize d) Hsl) as Hb.
  destruct (step_call_upload (newUploader c sz) tgt eq_refl)
    as (E1 & Hpc1 & Hst1 & Hc1 & Hq1 & Ha1 & Hi1 & Hj1 & Hs1).
  rewrite (run_step _ _ _ _ E1) in Hr. clear E1.
  change (cfg (newUploader c sz)) with c in Hc1.
  change (qPaused (newUploader c sz)) with false in Hq1.
  change (abortedCtl (newUploader c sz)) with (∅ : gset nat) in Ha1.
  change (invs (newUploader c sz)) with (∅ : gmap nat Invocation) in Hi1.
  change (qJobs (newUploader c sz)) with (@nil nat) in Hj1.
  change (size (newUploader c sz)) with sz in Hs1.
  remember (upload_settle (upload_start tgt (newUploader c sz))) as s1
    eqn:Es1.
  clear Es1.
  destruct (step_hashed s1 tgt etag Hpc1)
    as (E2 & Hpc2 & Hst2 & Hc2 & Hq2 & Ha2 & Hi2 & Hj2 & Hs2).
  rewrite (run_step _ _ _ _ E2) in Hr. clear E2.
  remember (upload_settle (on_md5 tgt (inr etag) s1)) as s2 eqn:Es2.
  clear Es2.
  rewrite (run_step _ _ _ _ (step_created s2 tgt msg d Hpc2 Hre ltac:(lia)))
    in Hr.
  rewrite Hs2, Hs1 in Hr.
  assert (H0 : passing calm c ctx (Z.to_nat n) 0
                 (set_pc (PcChunks ctx None)
                    (uploadChunks (preuploadID d) n
                       (set_chunkSize (sliceSize d) s2)))).
  { apply passing_uploadChunks; proj_cbn; try done; congruence. }
  assert (Hkeep : ∀ p inv st, calm p inv → stage inv ≠ SRetry →
            st ≠ SRetry → calm p {| stage := st; retryCount := retryCount inv |})
    by (by intros p inv st _ _ H).
  pose proof (passing_run calm c (Z.to_nat n) ltac:(done) Hkeep ctx ins 0 _ s
                H0 Hgood Hr) as H.
  simpl in H. fold k in H.
  destruct H as [Hf Hk Hl Ht Hp Hpc Ha].
  pose proof Hf as Hf'. destruct Hf'.
  assert (Hn : 0 ≤ n) by (unfold n; nia).
  split_and!.
  - lia.
  - done.
  - unfold k. by rewrite Hp.
  - unfold pending in *. destruct (qJobs s) as [|q rest]; cbn [length] in *.
    + lia.
    + specialize (fl_full0 ltac:(done)). lia.
  - unfold pending. lia.
  - intros p inv Hin. by eapply flowing_accepts.
  - intros Hlt. rewrite decide_False in Hpc by lia. done.
  - intros Heq. rewrite decide_True in Hpc by lia.
    split_and!; [done|apply Ha; lia|].
    intros m fd Hfd. eexists. split.
    + rewrite (step_upload s _ (on_finish ctx (Resp 0 m fd) s)).
      * unfold on_finish. rewrite decide_False by (by intros ?).
        rewrite Hfd. unfold upload_complete, upload_settle. cbv zeta.
        by rewrite flush_flushed by (by intros ctx' r).
      * unfold upload_resume. by rewrite Hpc.
    + split; [done|]. proj_cbn. unfold completedInfo. by rewrite fl_cfg0.
Qed.

Lemma upload_completes_when_chunks_succeed_witness :
  pc (default (newUploader threePollConfig 10)
        (run (newUploader threePollConfig 10)
           (created false ++ interleaved))) = PcFinish exampleCtx.
Proof.
  apply (upload_completes_when_chunks_succeed threePollConfig 10 None
           "etag" "ok"
           {| fileID := Some "F1"; reuse := false; preuploadID := "P1";
              sliceSize := 4 |} interleaved).
  - vm_compute. discriminate.
  - lia.
  - simpl. lia.
  - reflexivity.
  - reflexivity.
  - vm_compute. reflexivity.
  - vm_compute. reflexivity.
Defined.

(** ** An upload whose chunks fail and are retried *)

Ltac flowing_fields H :=
  destruct H as [fl_cfg0 fl_status0 fl_open0 fl_clean0 fl_tasks0 fl_ranges0
                 fl_balance0 fl_bound0 fl_full0 fl_nodup0 fl_apart0 fl_keys0
                 fl_stage0].

Lemma flowing_mono (P Q : nat → Invocation → Prop) c n m j s :
  (∀ p inv, P p inv → Q p inv) → flowing P c n m j s → flowing Q c n m j s.
Proof.
  intros H Hf. flowing_fields Hf. constructor; try done.
  intros p inv Hp. apply H. by eapply fl_stage0.
Qed.

Lemma passing_mono (P Q : nat → Invocation → Prop) c ctx n k s :
  (∀ p inv, P p inv → Q p inv) → passing P c ctx n k s → passing Q c ctx n k s.
Proof.
  intros H Hp. destruct Hp. constructor; try done. by eapply flowing_mono.
Qed.

(** An activation moves on to its next await, and the others are as
    [Q] says too. *)
Lemma flowing_restage_to (P Q : nat → Invocation → Prop) c n m j s p inv
    inv' :
  flowing P c n m j s → invs s !! p = Some inv → Q p inv' →
  (∀ q i, q ≠ p → P q i → Q q i) →
  flowing Q c n m j (set_invs (<[p := inv']> (invs s)) s).
Proof.
  intros H Hp Hst HPQ. flowing_fields H. constructor; qi_unfold; try done.
  - rewrite map_size_insert_Some by (by eexists). done.
  - rewrite map_size_insert_Some by (by eexists). done.
  - rewrite map_size_insert_Some by (by eexists). done.
  - intros q Hq. rewrite lookup_insert_ne; [by apply fl_apart0|].
    intros ->. rewrite fl_apart0 in Hp; done.
  - intros q [Hq|Hq]; [|by apply fl_keys0; right].
    apply fl_keys0. left. destruct (decide (p = q)) as [->|Hne].
    + by eexists.
    + by rewrite lookup_insert_ne in Hq.
  - intros q i Hq. destruct (decide (p = q)) as [->|Hne].
    + rewrite lookup_insert_eq in Hq. by injection Hq as <-.
    + rewrite lookup_insert_ne in Hq by done.
      apply HPQ; [done|]. by eapply fl_stage0.
Qed.

(** While an activation is in progress chunks are left, and [upload]
    awaits the chunk pass. *)
Lemma passing_busy P c ctx n k s p inv :
  passing P c ctx n k s → invs s !! p = Some inv →
  (k < n)%nat ∧ pc s = PcChunks ctx None.
Proof.
  intros [Hf Hk Hl Ht Hp Hpc Ha] Hin.
  assert (Hpos : base.size (invs s) ≠ 0%nat).
  { intros H0. apply map_size_empty_inv in H0. rewrite H0 in Hin.
    by rewrite lookup_empty in Hin. }
  pose proof (fl_balance _ _ _ _ _ _ Hf) as Hb.
  assert (Hlt : (k < n)%nat) by lia.
  split; [done|]. rewrite decide_False in Hpc by lia. done.
Qed.

Lemma passing_log P c ctx n k s l :
  (k < n)%nat → passing P c ctx n k s → passing P c ctx n k (set_log l s).
Proof.
  intros Hlt [Hf Hk Hl Ht Hp Hpc Ha]. constructor; try done.
  - by apply flowing_log.
  - lia.
Qed.

Lemma within_start c b p :
  Z.of_nat (b p) ≤ Z.max 0 (retryTimes (options c)) →
  within c b p {| stage := SRead; retryCount := 0 |}.
Proof. intros H. split; [done|]. unfold failed_attempts. simpl. lia. Qed.

Lemma within_keep c b p inv st :
  within c b p inv → stage inv ≠ SRetry → st ≠ SRetry →
  within c b p {| stage := st; retryCount := retryCount inv |}.
Proof.
  intros [H0 H1] Hs Hst. split; [done|]. unfold failed_attempts in *.
  simpl. destruct (stage inv), st; done.
Qed.

(** The [catch] clause of [uploadChunk] in a session that nothing has
    disturbed, while the part has a failure left: the activation pauses
    before the retry, and nothing else changes. *)
Lemma passing_catch_retry c ctx n k s p inv e (b b' : nat → nat) :
  passing (within c b) c ctx n k s → invs s !! p = Some inv →
  stage inv ≠ SRetry → isCancel e = false →
  b p = S (b' p) → (∀ q, q ≠ p → b q = b' q) →
  passing (within c b') c ctx n k (flush (uploadChunk_catch p inv e s)).
Proof.
  intros H Hin Hst He Hbp Hb.
  destruct (passing_busy _ _ _ _ _ _ _ _ H Hin) as [Hlt Hpc0].
  destruct H as [Hf Hk Hl Ht Hp Hpc Ha].
  pose proof (fl_stage _ _ _ _ _ _ Hf p inv Hin) as [Hr0 Hr1].
  pose proof (fl_cfg _ _ _ _ _ _ Hf) as Hc.
  assert (Hfa : failed_attempts inv = retryCount inv)
    by (unfold failed_attempts; by destruct (stage inv)).
  rewrite uploadChunk_catch_retry by (done || (rewrite Hc; lia)).
  rewrite flush_flushed by (intros ctx' r; unfold advanced; proj_cbn;
                            by rewrite Hpc0).
  unfold advanced. constructor; proj_cbn; try done.
  eapply (flowing_restage_to (within c b) (within c b') c n n _
            (set_log _ s) p inv); [by apply flowing_log|done| |].
  - split; [done|]. unfold failed_attempts. simpl. lia.
  - intros q i Hq [H0 H1]. split; [done|]. rewrite <- Hb by done. done.
  - lia.
Qed.

(** The timer of a pause fires: the next attempt starts from the
    read. *)
Lemma passing_retry_timer c ctx n k s p inv (b : nat → nat) :
  passing (within c b) c ctx n k s → invs s !! p = Some inv →
  stage inv = SRetry →
  passing (within c b) c ctx n k (flush (on_retry_timer p inv s)).
Proof.
  intros H Hin Hst.
  destruct (passing_busy _ _ _ _ _ _ _ _ H Hin) as [Hlt Hpc0].
  destruct H as [Hf Hk Hl Ht Hp Hpc Ha].
  pose proof (fl_stage _ _ _ _ _ _ Hf p inv Hin) as [Hr0 Hr1].
  destruct (task_at_is_Some p (chunkTasks s)) as [t Et].
  { rewrite (fl_tasks _ _ _ _ _ _ Hf).
    apply (fl_keys _ _ _ _ _ _ Hf). left. by eexists. }
  unfold on_retry_timer, uploadChunk_enter. rewrite Et. cbv zeta.
  rewrite flush_flushed by (intros ctx' r; unfold set_task_status; proj_cbn;
                            by rewrite Hpc0).
  constructor; proj_cbn; try done.
  apply (flowing_restage (within c b) c n _ _
           (call _ (set_task_status p TRunning s)) p inv); [|done|].
  - by apply flowing_log, flowing_task_status.
  - unfold within, failed_attempts in *. rewrite Hst in Hr1.
    split; simpl; lia.
  - lia.
Qed.

Lemma readChunk_missing f a b :
  f = NoEntry ∨ f = NoAccess → ∃ e, readChunk f a b = Some (inl e).
Proof.
  intros Hf. unfold readChunk, createReadStream.
  case_decide; [by eexists|]. destruct Hf as [-> | ->]; by eexists.
Qed.

Lemma succeeds_delivers i : succeeds i = true → puts i = delivers i.
Proof. destruct i as [| | | | | | | | |p [e|]| | | |]; done. Qed.

Lemma succeeds_no_failure i q : succeeds i = true → fails_part q i = 0%nat.
Proof.
  intros H. unfold fails_part. rewrite decide_False; [done|].
  destruct i as [| | | | | |p [| |l]|p [[| |] m d|m]| |p [e|]| | | |];
    done.
Qed.

(** One piece of news to the chunk pass, of a session in which every
    part stays within [retryTimes] failures. *)
Lemma retrying_step c ctx n k s i s' (b b' : nat → nat) :
  passing (within c b) c ctx n k s → chunk_news i = true →
  (∀ q, b q = (fails_part q i + b' q)%nat) →
  (∀ q, Z.of_nat (b' q) ≤ Z.max 0 (retryTimes (options c))) →
  step s i = Some s' →
  passing (within c b') c ctx n (k + delivers i) s'.
Proof.
  intros H Hi Hb Hb' Hstep.
  destruct (succeeds i) eqn:Hs.
  { rewrite <- succeeds_delivers by done.
    eapply (passing_step (within c b') c n); [| | |done|done].
    - intros p. by apply within_start.
    - apply within_keep.
    - eapply passing_mono; [|done]. intros p inv [H0 H1]. split; [done|].
      rewrite Hb, succeeds_no_failure in H1 by done. done. }
  assert (Hflush : ∀ x, flush <$> Some x = Some s' → flush x = s')
    by (by intros x [= <-]).
  unfold step in Hstep.
  destruct i as [| | | | | |p f|p r|p l|p r|p| | |];
    try done; simpl in Hstep.
  - destruct (invs s !! p) as [inv|] eqn:Hin; [|done]. simpl in Hstep.
    destruct (task_at p (chunkTasks s)) as [t|] eqn:Et; [|done].
    simpl in Hstep. destruct (stage inv) eqn:Est; try done.
    assert (Hf : f = NoEntry ∨ f = NoAccess)
      by (destruct f; [by left|by right|done]).
    destruct (readChunk_missing f (Task.start t) (Task.chunkSize t) Hf)
      as [e He].
    rewrite He in Hstep. simpl in Hstep. apply Hflush in Hstep as <-.
    unfold on_read. replace (k + delivers _)%nat with k by (simpl; lia).
    eapply passing_catch_retry; [done|done|by rewrite Est| | |].
    + by eapply readChunk_error_not_cancel.
    + rewrite Hb. unfold fails_part. rewrite decide_True; [done|].
      by destruct Hf as [-> | ->].
    + intros q Hq. rewrite Hb. unfold fails_part.
      rewrite decide_False; [done|].
      destruct Hf as [-> | ->]; simpl; congruence.
  - destruct (invs s !! p) as [inv|] eqn:Hin; [|done]. simpl in Hstep.
    destruct (task_at p (chunkTasks s)) as [t|] eqn:Et; [|done].
    simpl in Hstep. destruct (stage inv) eqn:Est; try done.
    apply Hflush in Hstep as <-.
    destruct (passing_busy _ _ _ _ _ _ _ _ H Hin) as [Hlt _].
    replace (k + delivers _)%nat with k by (simpl; lia).
    assert (Hfp : failure_of (UrlReply p r) = Some p)
      by (by destruct r as [[| |] m d|m]).
    unfold on_url. destruct r as [code m d|m].
    + rewrite decide_True by (by destruct code).
      unfold getChunkUploadUrl_catch.
      eapply (passing_catch_retry c ctx n k (emit _ s));
        [by apply passing_log|done|by rewrite Est|done| |].
      * rewrite Hb. unfold fails_part. by rewrite decide_True.
      * intros q Hq. rewrite Hb. unfold fails_part.
        rewrite decide_False; [done|]. rewrite Hfp. congruence.
    + unfold getChunkUploadUrl_catch.
      eapply (passing_catch_retry c ctx n k (emit _ s));
        [by apply passing_log|done|by rewrite Est|done| |].
      * rewrite Hb. unfold fails_part. by rewrite decide_True.
      * intros q Hq. rewrite Hb. unfold fails_part.
        rewrite decide_False; [done|]. rewrite Hfp. congruence.
  - destruct r as [[m|]|]; try done.
    destruct (invs s !! p) as [inv|] eqn:Hin; [|done]. simpl in Hstep.
    destruct (stage inv) eqn:Est; try done.
    case_match; [|done]. apply Hflush in Hstep as <-.
    replace (k + delivers _)%nat with k by (simpl; lia).
    unfold on_put.
    eapply passing_catch_retry; [done|done|by rewrite Est|done| |].
    + rewrite Hb. unfold fails_part. by rewrite decide_True.
    + intros q Hq. rewrite Hb. unfold fails_part.
      rewrite decide_False; [done|]. simpl. congruence.
  - destruct (invs s !! p) as [inv|] eqn:Hin; [|done]. simpl in Hstep.
    destruct (stage inv) eqn:Est; try done.
    apply Hflush in Hstep as <-.
    replace (k + delivers _)%nat with k by (simpl; lia).
    eapply passing_mono; [|by eapply passing_retry_timer].
    intros q i [H0 H1]. split; [done|]. rewrite Hb in H1.
    unfold fails_part in H1. rewrite decide_False in H1 by done. done.
Qed.

Lemma failures_cons p i ins :
  failures p (i :: ins) = (fails_part p i + failures p ins)%nat.
Proof. done. Qed.

Lemma delivered_cons i ins :
  delivered (i :: ins) = (delivers i + delivered ins)%nat.
Proof. done. Qed.

(** News to the chunk pass along which every part stays within
    [retryTimes] failures. *)
Lemma retrying_run c ctx n ins k s s' :
  passing (within c (λ p, failures p ins)) c ctx n k s →
  forallb chunk_news ins = true →
  (∀ p, Z.of_nat (failures p ins) ≤ Z.max 0 (retryTimes (options c))) →
  run s ins = Some s' →
  passing (within c (λ _, 0%nat)) c ctx n (k + delivered ins) s'.
Proof.
  revert k s.
  induction ins as [|i ins IH]; intros k s H Hs Hb Hr; simpl in Hr.
  - injection Hr as <-. unfold delivered. simpl. by rewrite Nat.add_0_r.
  - destruct (step s i) as [s1|] eqn:Hst; [|done]. simpl in Hr.
    simpl in Hs. apply andb_prop in Hs as [Hi Hs].
    rewrite delivered_cons, Nat.add_assoc.
    assert (Hb' : ∀ p, Z.of_nat (failures p ins)
                       ≤ Z.max 0 (retryTimes (options c))).
    { intros p. specialize (Hb p). rewrite failures_cons in Hb. lia. }
    eapply IH; [|done|done|done].
    eapply (retrying_step c ctx n k s i s1 _ (λ p, failures p ins));
      try done.
Qed.

(** An activation in progress takes the news it waits for. *)
Lemma flowing_takes P c n j s p inv :
  flowing P c n n j s → invs s !! p = Some inv →
  is_Some (step s (good_news p (stage inv))).
Proof.
  intros H Hp. flowing_fields H.
  destruct (task_at_is_Some p (chunkTasks s)) as [t Ht].
  { rewrite fl_tasks0. apply fl_keys0. left. by eexists. }
  assert (Hr : 0 ≤ Task.start t ∧ 0 < Task.chunkSize t).
  { apply task_at_lookup in Ht as (i & -> & Hi).
    eapply (Forall_lookup_1 _ _ _ _ fl_ranges0 Hi). }
  unfold step, handle.
  destruct (stage inv) as [|fd|sig|] eqn:Est; cbn [good_news].
  - rewrite Hp. cbn [mbind option_bind]. rewrite Ht. cbn [mbind option_bind].
    rewrite Est, readChunk_bytes by tauto.
    cbn [mbind option_bind fmap option_fmap option_map]. by eexists.
  - unfold urlReply. rewrite Hp. cbn [mbind option_bind]. rewrite Ht.
    cbn [mbind option_bind]. rewrite Est.
    cbn [fmap option_fmap option_map]. by eexists.
  - rewrite Hp. cbn [mbind option_bind]. rewrite Est.
    unfold put_settles. rewrite fl_clean0.
    rewrite bool_decide_eq_true_2 by (apply not_elem_of_empty).
    cbn [fmap option_fmap option_map]. by eexists.
  - rewrite Hp. cbn [mbind option_bind]. rewrite Est.
    cbn [fmap option_fmap option_map]. by eexists.
Qed.

(** Three retries that fail and a fourth failure, of the one chunk of a
    file of three bytes: [upload] is rejected with the error of the last
    attempt; the session emits [error] and its status is [error] where
    somebody listens for [error], and where nobody does no [error] goes
    out and the status stays [running]. *)
Lemma exhausted_retries_reject_upload :
  let ins := created false
               ++ (replicate 3 (FRead NoEntry) ≫= retry_inputs 1)
               ++ [ReadDone 1 NoEntry] in
  let e := Err "读取文件失败: ENOENT: no such file or directory" in
  (λ s, (status s, pc s, error_events (log s))) <$>
    run (newUploader exampleConfig 3) ins
  = Some (StError, PcDone (Rejected e), [e])
  ∧ (λ s, (status s, pc s, error_events (log s))) <$>
      run (newUploader silentConfig 3) ins
    = Some (StRunning, PcDone (Rejected e), []).
Proof. split; vm_compute; reflexivity. Qed.

(** C7. Let the activation of [uploadChunk] for a chunk stand at the
    read of its first attempt.  Every attempt that fails otherwise than
    by cancellation -- at the read, at the request for the destination, or
    at the transfer -- is followed, while fewer than [retryTimes] retries
    have been made, by a pause of [retryDelay] and a new attempt of the
    whole operation, which reads the chunk and requests its destination
    again; nothing else in the session changes meanwhile.  After at most
    [retryTimes] such failures a successful attempt returns the part
    number, and the [completed] listener records it.  When [retryTimes]
    retries have failed, the next failure is thrown: the promise of the
    chunk pass is rejected with it and, unless the session was cancelled,
    the promise of [upload] is rejected with that error; where a listener
    for [error] is registered the session also emits [error] with it and
    takes the status [error], and where none is the status stays.

    And the session completes all the same: for a file that is not
    empty, a slice size [> 0] and a [concurrency] of at least 1, when
    the server has opened a new upload, then along all news to the chunk
    pass -- good news, failures of attempts and timers of pauses, of
    whatever chunks in whatever order -- in which every chunk fails at
    most [retryTimes] times, the status is [running] and [upload] is not
    rejected, a part is recorded for every transfer that got its response,
    every activation in progress takes the news it waits for, and with
    the last chunk the completion request is issued, and a completion
    response that reports the file complete makes [upload] resolve with
    the file information and the status [completed]. *)
Theorem chunk_retry_policy :
  (∀ (s : Session) (p : nat) (t : Task.t) (fs : list Failure),
     reading s p t 0 → listening s = true → Forall (fails t) fs →
     (Z.of_nat (length fs) ≤ retryTimes (options (cfg s)) →
      ∀ f msg d, (∃ data, read_result t f = Some (inr data)) →
        let s1 :=
          advanced p
            {| stage := SPut (Task.controller t);
               retryCount := Z.of_nat (length fs) |}
            ((fs ≫= retry_log (cfg s) t p)
               ++ [Call (ReqGetUrl (Task.uploadId t) p);
                   Call (ReqPut (presignedURL d) (read_data t f)
                           (Task.controller t))]) s in
        run s ((fs ≫= retry_inputs p)
                 ++ [ReadDone p f; UrlReply p (Resp 0 msg d)]) = Some s1
        ∧ ∃ s2, step s1 (PutDone p None) = Some s2
            ∧ parts s2 = parts s ++ [p])
     ∧ (Z.of_nat (length fs) = Z.max 0 (retryTimes (options (cfg s))) →
        ∀ a ctx, fails t a → pc s = PcChunks ctx None →
          status s ≠ StCancel →
          ∃ s', run s ((fs ≫= retry_inputs p) ++ failure_inputs p a)
                  = Some s'
            ∧ pc s' = PcDone (Rejected (failure_error t a))
            ∧ (errorListener (cfg s) = true →
                 status s' = StError
                 ∧ Emit (EError (failure_error t a)) ∈ log s')
            ∧ (errorListener (cfg s) = false → status s' = status s)))
  ∧ (∀ (c : Config) (sz : Z) (tgt : option string) (etag msg : string)
       (d : CreateData) (ins : list Input) (s : Session),
       1 ≤ concurrency (options c) → 0 < sz → 0 < sliceSize d →
       reuse d = false → forallb chunk_news ins = true →
       (∀ p, Z.of_nat (failures p ins)
             ≤ Z.max 0 (retryTimes (options c))) →
       run (newUploader c sz)
         (CallUpload tgt :: Md5Done (inr etag)
            :: CreateReply (Resp 0 msg d) :: ins) = Some s →
       let n := ceil_div sz (sliceSize d) in
       let k := Z.of_nat (delivered ins) in
       let ctx := {| target := tgt; ctxFileID := fileID d;
                     ctxPreuploadID := preuploadID d |} in
       k ≤ n ∧ status s = StRunning ∧ Z.of_nat (length (parts s)) = k
       ∧ (∀ p inv, invs s !! p = Some inv →
            is_Some (step s (good_news p (stage inv))))
       ∧ (k < n → pc s = PcChunks ctx None)
       ∧ (k = n →
            pc s = PcFinish ctx
            ∧ last (log s) = Some (Call (ReqFinish (preuploadID d)))
            ∧ ∀ m fd, asyncUpload fd && negb (completed fd) = false →
                ∃ s', step s (FinishReply (Resp 0 m fd)) = Some s'
                  ∧ status s' = StCompleted
                  ∧ pc s' =
                      PcDone (Resolved (Some
                        {| fileId := js_or (fileID d) (preuploadID d);
                           filename :=
                             js_or tgt (basename (filePath c)) |})))).
Proof.
  split.
  { intros s p t fs.
    intros Hrd Hl Hfs. split.
    - intros Hlen f msg d [data Hd] s1.
      rewrite run_app, (retry_rounds fs s p t 0) by (done || lia).
      rewrite Z.add_0_l. simpl.
      erewrite read_succeeds; [|by eapply reading_advanced|done].
      simpl. rewrite advanced_advanced.
      erewrite url_succeeds by (by eapply standing_advanced).
      simpl. rewrite advanced_advanced.
      assert (Hs1 : s1 = advanced p
        {| stage := SPut (Task.controller t);
           retryCount := Z.of_nat (length fs) |}
        (((fs ≫= retry_log (cfg s) t p)
            ++ [Call (ReqGetUrl (Task.uploadId t) p)])
           ++ [Call (ReqPut (presignedURL d) data (Task.controller t))]) s).
      { unfold s1, read_data. rewrite Hd. by rewrite <- app_assoc. }
      rewrite <- Hs1. split; [done|].
      pose proof (standing_advanced s p t _
        {| stage := SPut (Task.controller t);
           retryCount := Z.of_nat (length fs) |}
        ((fs ≫= retry_log (cfg s) t p)
           ++ [Call (ReqGetUrl (Task.uploadId t) p);
               Call (ReqPut (presignedURL d) (read_data t f)
                       (Task.controller t))]) Hrd)
        as (Hf & Ht & Hs & Hi & Hc).
      fold s1 in Hf, Ht, Hi, Hc.
      eexists. split.
      + erewrite step_PutDone; [done|done|done|].
        unfold put_settles. by apply bool_decide_eq_true.
      + unfold on_put. by rewrite job_return_records.
    - intros Hlen a ctx Ha Hpc Hst.
      rewrite run_app.
      destruct fs as [|b fs].
      + simpl in *. eapply last_failure; eauto. lia.
      + assert (0 + Z.of_nat (length (b :: fs))
                  ≤ retryTimes (options (cfg s))) by (simpl length in *; lia).
        rewrite (retry_rounds (b :: fs) s p t 0) by done.
        rewrite Z.add_0_l. cbn [mbind option_bind].
        match goal with
        | |- context [run ?x (failure_inputs p a)] =>
            refine (last_failure x p t _ a ctx _ Ha _ Hpc Hl Hst)
        end.
        * by eapply reading_advanced.
        * change (cfg (advanced p _ _ s)) with (cfg s). lia. }
  intros c sz tgt etag msg d ins s.
  intros Hconc Hsz Hsl Hre Hnews Hbud Hr n k ctx.
  pose proof (ceil_div_bounds sz (sliceSize d) Hsl) as Hb.
  destruct (step_call_upload (newUploader c sz) tgt eq_refl)
    as (E1 & Hpc1 & Hst1 & Hc1 & Hq1 & Ha1 & Hi1 & Hj1 & Hs1).
  rewrite (run_step _ _ _ _ E1) in Hr. clear E1.
  change (cfg (newUploader c sz)) with c in Hc1.
  change (qPaused (newUploader c sz)) with false in Hq1.
  change (abortedCtl (newUploader c sz)) with (∅ : gset nat) in Ha1.
  change (invs (newUploader c sz)) with (∅ : gmap nat Invocation) in Hi1.
  change (qJobs (newUploader c sz)) with (@nil nat) in Hj1.
  change (size (newUploader c sz)) with sz in Hs1.
  remember (upload_settle (upload_start tgt (newUploader c sz))) as s1
    eqn:Es1.
  clear Es1.
  destruct (step_hashed s1 tgt etag Hpc1)
    as (E2 & Hpc2 & Hst2 & Hc2 & Hq2 & Ha2 & Hi2 & Hj2 & Hs2).
  rewrite (run_step _ _ _ _ E2) in Hr. clear E2.
  remember (upload_settle (on_md5 tgt (inr etag) s1)) as s2 eqn:Es2.
  clear Es2.
  rewrite (run_step _ _ _ _ (step_created s2 tgt msg d Hpc2 Hre ltac:(lia)))
    in Hr.
  rewrite Hs2, Hs1 in Hr.
  assert (H0 : passing (within c (λ p, failures p ins)) c ctx (Z.to_nat n) 0
                 (set_pc (PcChunks ctx None)
                    (uploadChunks (preuploadID d) n
                       (set_chunkSize (sliceSize d) s2)))).
  { apply passing_uploadChunks; proj_cbn; try done; try congruence.
    intros p. by apply within_start. }
  pose proof (retrying_run c ctx (Z.to_nat n) ins 0 _ s H0 Hnews Hbud Hr)
    as H.
  simpl in H. fold k in H.
  destruct H as [Hf Hk Hl Ht Hp Hpc Ha].
  pose proof Hf as Hf'. flowing_fields Hf'.
  assert (Hn : 0 ≤ n) by (unfold n; nia).
  split_and!.
  - lia.
  - done.
  - unfold k. by rewrite Hp.
  - intros p inv Hin. by eapply flowing_takes.
  - intros Hlt. rewrite decide_False in Hpc by lia. done.
  - intros Heq. rewrite decide_True in Hpc by lia.
    split_and!; [done|apply Ha; lia|].
    intros m fd Hfd. eexists. split.
    + rewrite (step_upload s _ (on_finish ctx (Resp 0 m fd) s)).
      * unfold on_finish. rewrite decide_False by (by intros ?).
        rewrite Hfd. unfold upload_complete, upload_settle. cbv zeta.
        by rewrite flush_flushed by (by intros ctx' r).
      * unfold upload_resume. by rewrite Hpc.
    + split; [done|]. proj_cbn. unfold completedInfo. by rewrite fl_cfg0.
Qed.

Lemma chunk_retry_policy_witness :
  (∃ s1 s2,
     run (afterCreate 10)
       ((twoFailures ≫= retry_inputs 2)
          ++ [ReadDone 2 exampleFile; UrlReply 2 urlReply]) = Some s1
     ∧ step s1 (PutDone 2 None) = Some s2
     ∧ parts s2 = [2%nat])
  ∧ pc (default (newUploader exampleConfig 10)
          (run (newUploader exampleConfig 10)
             (created false ++ secondFailsTwice))) = PcFinish exampleCtx.
Proof.
  destruct chunk_retry_policy as [Hone Hall]. split.
  - assert (Hrd : reading (afterCreate 10) 2 secondTask 0).
    { split_and!.
      - intros ctx r. vm_compute. discriminate.
      - vm_compute. reflexivity.
      - reflexivity.
      - vm_compute. reflexivity.
      - replace (abortedCtl (afterCreate 10)) with (∅ : gset nat)
          by (vm_compute; reflexivity).
        apply not_elem_of_empty. }
    assert (Hfs : Forall (fails secondTask) twoFailures).
    { repeat constructor; eexists; vm_compute; reflexivity. }
    destruct (Hone (afterCreate 10) 2%nat secondTask twoFailures
                Hrd eq_refl Hfs) as [H _].
    destruct (H ltac:(vm_compute; discriminate) exampleFile "ok"
                {| presignedURL := "https://store/part";
                   isMultipart := false |}
                ltac:(eexists; vm_compute; reflexivity))
      as (Hrun & s2 & Hstep & Hparts).
    eexists _, s2. split; [exact Hrun|]. split; [exact Hstep|exact Hparts].
  - apply (Hall exampleConfig 10 None "etag" "ok"
             {| fileID := Some "F1"; reuse := false; preuploadID := "P1";
                sliceSize := 4 |} secondFailsTwice).
    + vm_compute. discriminate.
    + lia.
    + simpl. lia.
    + reflexivity.
    + vm_compute. reflexivity.
    + intros p. do 3 (destruct p as [|p]; [vm_compute; discriminate|]).
      vm_compute. discriminate.
    + vm_compute. reflexivity.
    + vm_compute. reflexivity.
Defined.
